(** * Chunked big-file upload: reassembly engine

    Shallow embedding of
    [packages/forms/src/components/form/UploadBigFile/uploadBigFileServer.ts]
    and the properties of its specification.

    The server function [loadUploadFiles] works on a directory tree below
    [tempDirectory]: one staging directory [chunks_<uploadId>] per upload,
    holding the chunk files [<part>-<total>] and the marker [error.txt],
    and one finished artifact [<uploadId>] next to the staging directories.
    The embedding keeps that tree, the order in which a directory lists its
    entries (sorted by name, as [fs.readdir] returns them), the
    modification times, the clock, the exceptions of the file-system calls
    and the way in which the user's hook ends. *)

From Stdlib Require Import List String Ascii ZArith Lia Bool Arith.
From Stdlib Require Import Init.Byte Numbers.DecimalString Numbers.DecimalNat.
From Stdlib Require Import Sorting.Permutation.
Import ListNotations.

Set Warnings "-register-all".

Local Open Scope string_scope.
Local Open Scope list_scope.
Local Open Scope Z_scope.

(** ** The file tree below [tempDirectory] *)

Module Fs.

(** A node is a regular file or a directory. A directory keeps its
    entries in the order in which [fs.readdir] lists them: [fs.readdir]
    returns the names sorted as byte strings (libuv's [scandir] compares
    them with [strcmp]), so a new entry takes its place among the names
    that are there, see [insert]. *)
Inductive node : Type :=
| RegFile (mtime : Z) (content : list byte)
| Directory (mtime : Z) (entries : list (string * node)).

Definition dir : Type := list (string * node).

(** A path is the list of the names below [tempDirectory]; [[]] is
    [tempDirectory] itself and [join p x] is [path.join(p, x)]. *)
Definition path : Type := list string.

Definition join (p : path) (x : string) : path := p ++ [x].

Definition names (d : dir) : list string := map fst d.

Fixpoint lookup (name : string) (d : dir) : option node :=
  match d with
  | [] => None
  | (k, n) :: rest => if String.eqb k name then Some n else lookup name rest
  end.

(** Replaces the node of an entry, which keeps its place in the listing. *)
Fixpoint replace (name : string) (n : node) (d : dir) : dir :=
  match d with
  | [] => []
  | (k, m) :: rest =>
      if String.eqb k name then (k, n) :: rest else (k, m) :: replace name n rest
  end.

(** Adds an entry under a name that the directory does not hold: it is
    listed before the first name that is greater. *)
Fixpoint insert (name : string) (n : node) (d : dir) : dir :=
  match d with
  | [] => [(name, n)]
  | (k, m) :: rest =>
      if String.ltb name k then (name, n) :: (k, m) :: rest
      else (k, m) :: insert name n rest
  end.

Definition delete (name : string) (d : dir) : dir :=
  filter (fun e => negb (String.eqb (fst e) name)) d.

Fixpoint resolve (p : path) (d : dir) : option node :=
  match p with
  | [] => None
  | x :: rest =>
      match rest with
      | [] => lookup x d
      | _ :: _ =>
          match lookup x d with
          | Some (Directory _ sub) => resolve rest sub
          | _ => None
          end
      end
  end.

Definition mtimeOf (n : node) : Z :=
  match n with RegFile t _ => t | Directory t _ => t end.

(** A directory of the tree is well formed when no name occurs twice. *)
Definition unique (d : dir) : Prop := NoDup (names d).

(** Every entry is a regular file: the shape of a staging directory,
    which holds chunk files and the error marker only. *)
Definition flat (d : dir) : Prop :=
  forall k n, In (k, n) d -> exists t c, n = RegFile t c.

Definition contents (d : dir) : list (list byte) :=
  map (fun e => match snd e with RegFile _ c => c | Directory _ _ => [] end) d.

End Fs.

Import Fs.

(** ** Exceptions, the world and the monad of the asynchronous code *)

(** The error codes with which the file-system calls throw, and
    [HookError] for whatever the user's hook throws. *)
Inductive errno : Type := ENOENT | ENOTDIR | EISDIR | EEXIST | HookError.

(** The world of one server process: the tree below [tempDirectory], the
    clock, and the calls made to the [onFinished] hook. [clock k] is the
    time in milliseconds in force after [k] calls of [Date.now()]; the file
    system stamps modification times with the time in force. *)
Record world : Type := World {
  root : dir;
  tick : nat;
  clock : nat -> Z;
  finishedCalls : list (string * nat)
}.

Definition setRoot (d : dir) (w : world) : world :=
  World d (tick w) (clock w) (finishedCalls w).

Definition timeOf (w : world) : Z := clock w (tick w).

Inductive result (A : Type) : Type :=
| Ok (a : A)
| Throw (e : errno).
Arguments Ok {A} a.
Arguments Throw {A} e.

(** A computation runs from a world to a result and the world it leaves;
    what was written before an exception stays written. *)
Definition M (A : Type) : Type := world -> result A * world.

Definition ret {A} (a : A) : M A := fun w => (Ok a, w).

Definition bind {A B} (m : M A) (k : A -> M B) : M B :=
  fun w =>
    match m w with
    | (Ok a, w') => k a w'
    | (Throw e, w') => (Throw e, w')
    end.

Definition throw {A} (e : errno) : M A := fun w => (Throw e, w).

(** [try { m } catch { h }] *)
Definition tryCatch {A} (m : M A) (h : M A) : M A :=
  fun w =>
    match m w with
    | (Ok a, w') => (Ok a, w')
    | (Throw _, w') => h w'
    end.

Declare Scope io_scope.
Delimit Scope io_scope with io.
Notation "x <- m ;; k" := (bind m (fun x => k))
  (at level 61, m at next level, right associativity) : io_scope.
Notation "m ;; k" := (bind m (fun _ => k))
  (at level 61, right associativity) : io_scope.
Local Open Scope io_scope.

(** [for (const x of xs) { await body(x) }] *)
Fixpoint forEach {A} (xs : list A) (body : A -> M unit) : M unit :=
  match xs with
  | [] => ret tt
  | x :: rest => body x ;; forEach rest body
  end.

(** ** File-system calls *)

Record Stats : Type := mkStats {
  isFile : bool;
  isDirectory : bool;
  size : Z;
  mtime : Z
}.

(** The size of a directory node is never read by the code. *)
Definition statsOf (n : node) : Stats :=
  match n with
  | RegFile t c => mkStats true false (Z.of_nat (List.length c)) t
  | Directory t _ => mkStats false true 0 t
  end.

(** [Date.now()] *)
Definition dateNow : M Z :=
  fun w => (Ok (timeOf w), World (root w) (S (tick w)) (clock w) (finishedCalls w)).

(** [fs.stat(p)] *)
Definition stat (p : path) : M Stats :=
  fun w =>
    match resolve p (root w) with
    | Some n => (Ok (statsOf n), w)
    | None => (Throw ENOENT, w)
    end.

(** [fs.readdir(p)] *)
Definition readdir (p : path) : M (list string) :=
  fun w =>
    match p with
    | [] => (Ok (names (root w)), w)
    | _ :: _ =>
        match resolve p (root w) with
        | Some (Directory _ es) => (Ok (names es), w)
        | Some (RegFile _ _) => (Throw ENOTDIR, w)
        | None => (Throw ENOENT, w)
        end
    end.

(** Applies [op] to the entries of the directory at [parent]. [op] says
    whether it added or removed an entry, in which case the directory is
    stamped with the time [t]. *)
Fixpoint update (t : Z) (parent : path) (op : dir -> result (dir * bool))
    (d : dir) : result (dir * bool) :=
  match parent with
  | [] => op d
  | x :: rest =>
      match lookup x d with
      | Some (Directory m sub) =>
          match update t rest op sub with
          | Ok (sub', touched) =>
              Ok (replace x (Directory (if touched then t else m) sub') d, false)
          | Throw e => Throw e
          end
      | Some (RegFile _ _) => Throw ENOTDIR
      | None => Throw ENOENT
      end
  end.

Definition mutate (parent : path) (op : Z -> dir -> result (dir * bool)) : M unit :=
  fun w =>
    match update (timeOf w) parent (op (timeOf w)) (root w) with
    | Ok (d, _) => (Ok tt, setRoot d w)
    | Throw e => (Throw e, w)
    end.

(** [fs.writeFile(p, content)]: the parent directory must exist; an
    existing file is overwritten in place, a new one takes its place in
    the listing. *)
Definition writeFile (p : path) (content : list byte) : M unit :=
  match p with
  | [] => throw EISDIR
  | _ :: _ =>
      let name := last p "" in
      mutate (removelast p) (fun t d =>
        match lookup name d with
        | Some (Directory _ _) => Throw EISDIR
        | Some (RegFile _ _) => Ok (replace name (RegFile t content) d, false)
        | None => Ok (insert name (RegFile t content) d, true)
        end)
  end.

(** [fsExtra.ensureDir(p)]. The code calls it on [tempDirectory], which
    the world takes to exist, and on direct children of it. *)
Definition ensureDir (p : path) : M unit :=
  match p with
  | [] => ret tt
  | _ :: _ =>
      let name := last p "" in
      mutate (removelast p) (fun t d =>
        match lookup name d with
        | Some (Directory _ _) => Ok (d, false)
        | Some (RegFile _ _) => Throw EEXIST
        | None => Ok (insert name (Directory t []) d, true)
        end)
  end.

(** [fsExtra.remove(p)]: removes a file or a whole directory; nothing
    happens when the path does not exist. *)
Definition remove (p : path) : M unit :=
  fun w =>
    match resolve p (root w) with
    | None => (Ok tt, w)
    | Some _ =>
        let name := last p "" in
        mutate (removelast p) (fun _ d => Ok (delete name d, true)) w
    end.

(** [oldFs.createWriteStream(p, { flags: 'a' })]: opens for appending and
    creates the file when it is absent. The call returns a stream and
    never throws: when the file cannot be opened, as when [p] is a
    directory, the stream reports it later by an [error] event, to which
    the code does not listen, and nothing is created. *)
Definition createWriteStream (p : path) : M unit :=
  match p with
  | [] => ret tt
  | _ :: _ =>
      let name := last p "" in
      tryCatch
        (mutate (removelast p) (fun t d =>
           match lookup name d with
           | Some _ => Ok (d, false)
           | None => Ok (insert name (RegFile t []) d, true)
           end))
        (ret tt)
  end.

(** [outputStream.write(chunk)] on a stream opened for appending at [p];
    the bytes are taken to be in the file when the call returns. The
    call does not throw either: what is written to a stream that could
    not be opened is dropped. *)
Definition streamWrite (p : path) (chunk : list byte) : M unit :=
  match p with
  | [] => ret tt
  | _ :: _ =>
      let name := last p "" in
      tryCatch
        (mutate (removelast p) (fun t d =>
           match lookup name d with
           | Some (Directory _ _) => Ok (d, false)
           | Some (RegFile _ c) => Ok (replace name (RegFile t (c ++ chunk)) d, false)
           | None => Ok (insert name (RegFile t chunk) d, true)
           end))
        (ret tt)
  end.

(** The bytes that [oldFs.createReadStream(p)] delivers through its
    [data] events until [end]. *)
Definition readStream (p : path) : M (list byte) :=
  fun w =>
    match resolve p (root w) with
    | Some (RegFile _ c) => (Ok c, w)
    | Some (Directory _ _) => (Throw EISDIR, w)
    | None => (Throw ENOENT, w)
    end.

(** ** The request and the options *)

(** [z.infer<typeof zodValidationInfo>]; the JavaScript numbers are taken
    at their integer values. *)
Record UploadInfo : Type := mkInfo {
  uploadId : string;
  uploadSize : Z;
  part : nat;
  total : nat
}.

Record File : Type := mkFile {
  fileName : string;
  fileBytes : list byte
}.

Definition fileSize (f : File) : Z := Z.of_nat (List.length (fileBytes f)).

(** What [loadUploadFiles] reads from [astro]: the method, the answer of
    [validateFrom], and the three form values. [info] is the data of
    [zodValidationInfo.safeParse], [None] when [success] is false, so its
    [uploadId] is a UUID and its numbers are at least 1; [file] is the
    value of the field [file] when it is a [File]. *)
Record Request : Type := mkRequest {
  method : string;
  validFrom : bool;
  astroBigFileUpload : option string;
  info : option UploadInfo;
  file : option File
}.

(** How a call of the user's hook ends: it returns (or its promise is
    fulfilled), or it throws (or its promise is rejected). *)
Inductive HookEnd : Type := Returns | Throws.

(** [Partial<LoadUploadFilesOptions>]. The world is the tree below
    [tempDirectory]; the hook [onFinished], when given, is known by the
    way its call ends, and the world records the calls made to it. The
    two functions of the user are taken to leave the tree below
    [tempDirectory] as it is, and [allowUpload] to answer. *)
Record LoadUploadFilesOptions : Type := mkOptions {
  allowUpload : option (File -> UploadInfo -> bool);
  onFinished : option (string -> nat -> HookEnd);
  maxUploadTime : option Z;
  maxUploadSize : option Z;
  maxDirectorySize : option Z
}.

Record Settings : Type := mkSettings {
  s_allowUpload : option (File -> UploadInfo -> bool);
  s_onFinished : option (string -> nat -> HookEnd);
  s_maxUploadTime : Z;
  s_maxUploadSize : Z;
  s_maxDirectorySize : Z
}.

(** [maxUploadTime] is [1000 * 60 * 60 * 1.5]. *)
Definition DEFAULT_BIG_FILE_UPLOAD_OPTIONS_SERVER : Settings :=
  mkSettings None None
    (1000 * 60 * 60 * 3 / 2)
    (1024 * 1024 * 1024)
    (1024 * 1024 * 1024 * 50).

Definition orDefault {A} (o : option A) (d : A) : A :=
  match o with Some a => a | None => d end.

(** [{ ...DEFAULT_BIG_FILE_UPLOAD_OPTIONS_SERVER, ...options }] *)
Definition settings (options : LoadUploadFilesOptions) : Settings :=
  let d := DEFAULT_BIG_FILE_UPLOAD_OPTIONS_SERVER in
  mkSettings (allowUpload options) (onFinished options)
    (orDefault (maxUploadTime options) (s_maxUploadTime d))
    (orDefault (maxUploadSize options) (s_maxUploadSize d))
    (orDefault (maxDirectorySize options) (s_maxDirectorySize d)).

(** [Response.json({ ok, error?, finished? })] *)
Record Reply : Type := mkReply {
  ok : bool;
  error : option string;
  finished : option bool
}.

(** [loadUploadFiles] returns [false] or a response. *)
Inductive outcome : Type :=
| NotHandled
| Respond (r : Reply).

Definition jsonError (errorMessage : string) : Reply :=
  mkReply false (Some errorMessage) None.

Definition jsonOk : Reply := mkReply true None None.

Definition jsonFinished : Reply := mkReply true None (Some true).

(** ** The functions of the module *)

Definition string_of_nat (n : nat) : string :=
  NilZero.string_of_uint (Nat.to_uint n).

(** The file name of a chunk, [`${part}-${total}`]. *)
Definition chunkName (part total : nat) : string :=
  string_of_nat part ++ "-" ++ string_of_nat total.

Definition includes (files : list string) (name : string) : bool :=
  existsb (String.eqb name) files.

(** The loop of [totalDirectorySize] over the listing: file sizes go to
    [totalSize], the sizes of sub-directories to [promises]. *)
Fixpoint sumEntries (below : node -> Z) (files : dir) (totalSize : Z)
    (promises : list Z) : Z :=
  match files with
  | [] => totalSize + fold_left Z.add promises 0
  | (_, x) :: rest =>
      match x with
      | Directory _ _ => sumEntries below rest totalSize (promises ++ [below x])
      | RegFile _ _ => sumEntries below rest (totalSize + size (statsOf x)) promises
      end
  end.

Fixpoint sizeBelow (n : node) : Z :=
  match n with
  | RegFile _ _ => size (statsOf n)
  | Directory _ es => sumEntries sizeBelow es 0 []
  end.

(** The value that [totalDirectorySize] computes for a directory with
    the entries [d]. *)
Definition directorySize (d : dir) : Z := sumEntries sizeBelow d 0 [].

(** [totalDirectorySize(directory)] *)
Definition totalDirectorySize (directory : path) : M Z :=
  fun w =>
    match directory with
    | [] => (Ok (directorySize (root w)), w)
    | _ :: _ =>
        match resolve directory (root w) with
        | Some (Directory _ es) => (Ok (directorySize es), w)
        | Some (RegFile _ _) => (Throw ENOTDIR, w)
        | None => (Throw ENOENT, w)
        end
    end.

(** [checkIfFileExists(filePath)] *)
Definition checkIfFileExists (filePath : path) : M bool :=
  tryCatch (file <- stat filePath ;; ret (isFile file)) (ret false).

(** The body of the loop of [deleteOldUploads], lines 141-145. *)
Definition reapEntry (tempDirectory : path) (maxUploadTime : Z) (file : string)
    : M unit :=
  let fullPath := join tempDirectory file in
  st <- stat fullPath ;;
  now <- dateNow ;;
  if now - mtime st >? maxUploadTime then remove fullPath else ret tt.

(** [deleteOldUploads(tempDirectory, maxUploadTime)] *)
Definition deleteOldUploads (tempDirectory : path) (maxUploadTime : Z) : M unit :=
  files <- readdir tempDirectory ;;
  forEach files (reapEntry tempDirectory maxUploadTime).

(** The world that the reaping step of a submission leaves. *)
Definition reaped (maxUploadTime : Z) (w : world) : world :=
  snd (deleteOldUploads [] maxUploadTime w).

(** The closure [sendError] of [loadUploadFiles]. *)
Definition sendError (uploadDir : path) (errorMessage : string) : M outcome :=
  writeFile (join uploadDir "error.txt") (list_byte_of_string errorMessage) ;;
  ret (Respond (jsonError errorMessage)).

(** Lines 103-106: the chunk is written unless its file exists. *)
Definition storeChunk (uploadDir : path) (part total : nat) (uploadFile : File)
    : M unit :=
  let chunkSavePath := join uploadDir (chunkName part total) in
  present <- checkIfFileExists chunkSavePath ;;
  if negb present then writeFile chunkSavePath (fileBytes uploadFile) else ret tt.

(** Lines 113-117: the first index of [1..total] whose chunk name is not
    in the listing. *)
Definition missingChunk (files : list string) (total : nat) : option nat :=
  find (fun i => negb (includes files (chunkName i total))) (seq 1 total).

(** The body of the loop of [assemble], lines 121-130. *)
Definition copyChunk (uploadDir uploadFilePath : path) (file : string) : M unit :=
  let fileFullPath := join uploadDir file in
  chunk <- readStream fileFullPath ;;
  (match chunk with
   | [] => ret tt
   | _ :: _ => streamWrite uploadFilePath chunk
   end) ;;
  remove fileFullPath.

(** Lines 119-132: every listed file is streamed into the artifact, in
    the order of the listing, and removed; then the staging directory is
    removed. *)
Definition assemble (uploadDir uploadFilePath : path) (files : list string)
    : M unit :=
  createWriteStream uploadFilePath ;;
  forEach files (copyChunk uploadDir uploadFilePath) ;;
  remove uploadDir.

(** [await onFinished?.(uploadId, files.length)]: the call is recorded,
    and what the hook throws is thrown on. *)
Definition callOnFinished (hook : option (string -> nat -> HookEnd))
    (fileId : string) (totalSize : nat) : M unit :=
  fun w =>
    match hook with
    | Some h =>
        let w' := World (root w) (tick w) (clock w)
                    (finishedCalls w ++ [(fileId, totalSize)]) in
        match h fileId totalSize with
        | Returns => (Ok tt, w')
        | Throws => (Throw HookError, w')
        end
    | None => (Ok tt, w)
    end.

(** Lines 112-135: the completeness check, the assembly and the hook. *)
Definition finishUpload (o : Settings) (uploadDir : path) (data : UploadInfo)
    : M outcome :=
  files <- readdir uploadDir ;;
  match missingChunk files (total data) with
  | Some i =>
      sendError uploadDir ("Missing chunk " ++ string_of_nat i ++ ", upload failed")
  | None =>
      assemble uploadDir (join [] (uploadId data)) files ;;
      callOnFinished (s_onFinished o) (uploadId data) (List.length files) ;;
      ret (Respond jsonFinished)
  end.

(** Lines 76-77: a predicate [allowUpload] is given and answers false. *)
Definition refused (o : Settings) (uploadFile : File) (data : UploadInfo) : bool :=
  match s_allowUpload o with
  | Some allow => negb (allow uploadFile data)
  | None => false
  end.

(** Lines 66-135: the handling of a validated submission. *)
Definition handleChunk (o : Settings) (data : UploadInfo) (uploadFile : File)
    : M outcome :=
  let uploadDir := join [] ("chunks_" ++ uploadId data) in
  ensureDir uploadDir ;;
  if refused o uploadFile data
  then sendError uploadDir "File not allowed"
  else if uploadSize data >? s_maxUploadSize o
  then sendError uploadDir "File size exceeded"
  else
    dirSize <- totalDirectorySize [] ;;
    let totalDirectorySizeWithNewUpload :=
      dirSize + Z.max (uploadSize data) (fileSize uploadFile) in
    if totalDirectorySizeWithNewUpload >? s_maxDirectorySize o
    then sendError uploadDir "Directory size exceeded"
    else
      dirSize' <- totalDirectorySize [] ;;
      let newTotalSize := dirSize' + uploadSize data in
      if newTotalSize >? s_maxUploadSize o
      then remove uploadDir ;; sendError uploadDir "Upload size exceeded"
      else
        let uploadFilePath := join [] (uploadId data) in
        present <- checkIfFileExists uploadFilePath ;;
        if present
        then sendError uploadDir "Upload already exists"
        else
          storeChunk uploadDir (part data) (total data) uploadFile ;;
          if negb (Nat.eqb (part data) (total data))
          then ret (Respond jsonOk)
          else finishUpload o uploadDir data.

(** Lines 47-53: the request is a chunk submission of this component. *)
Definition gated (astro : Request) : bool :=
  if negb (String.eqb (method astro) "POST") || negb (validFrom astro)
  then false
  else match astroBigFileUpload astro with
       | Some v => String.eqb v "true"
       | None => false
       end.

(** Lines 57-135: what a gated submission does after the reaping step. *)
Definition afterReaping (astro : Request) (options : LoadUploadFilesOptions)
    : M outcome :=
  match info astro, file astro with
  | Some data, Some uploadFile => handleChunk (settings options) data uploadFile
  | _, _ => ret (Respond (jsonError "Invalid request"))
  end.

(** [loadUploadFiles(astro, options)] *)
Definition loadUploadFiles (astro : Request) (options : LoadUploadFilesOptions)
    : M outcome :=
  if negb (gated astro) then ret NotHandled
  else
    ensureDir [] ;;
    deleteOldUploads [] (s_maxUploadTime (settings options)) ;;
    afterReaping astro options.

(** ** Vocabulary of the statements *)

(** The bytes of the regular file [name] of a directory. *)
Definition contentOf (d : dir) (name : string) : list byte :=
  match lookup name d with
  | Some (RegFile _ c) => c
  | _ => []
  end.

(** The staging path of an upload can be used: it is free, or it holds a
    directory in which [error.txt] is not a directory. *)
Definition stagingUsable (id : string) (r : dir) : Prop :=
  match lookup ("chunks_" ++ id) r with
  | Some (RegFile _ _) => False
  | Some (Directory _ es) => forall t sub, lookup "error.txt" es <> Some (Directory t sub)
  | None => True
  end.

(** A rejection through [sendError], seen from the start of
    [handleChunk]: the answer carries the message and the staging
    directory is there afterwards, with the marker in it. *)
Definition rejectedWith (msg : string) (id : string) (w : world)
    (run : result outcome * world) : Prop :=
  fst run = Ok (Respond (jsonError msg)) /\
  exists m es,
    lookup ("chunks_" ++ id) (root (snd run)) = Some (Directory m es) /\
    lookup "error.txt" es = Some (RegFile (timeOf w) (list_byte_of_string msg)) /\
    (forall name n, name <> "error.txt" ->
       resolve (join (join [] ("chunks_" ++ id)) name) (root w) = Some n ->
       lookup name es = Some n) /\
    (forall other, other <> ("chunks_" ++ id)%string ->
       lookup other (root (snd run)) = lookup other (root w)).

(** Every node of a directory satisfies [Q]. *)
Definition every (Q : node -> Prop) (d : dir) : Prop :=
  forall k n, In (k, n) d -> Q n.

Definition regular (n : node) : Prop := exists t c, n = RegFile t c.

(** An entry of the staging root is an artifact, or a staging directory
    that holds regular files under distinct names. *)
Definition staged (n : node) : Prop :=
  match n with
  | RegFile _ _ => True
  | Directory _ es => unique es /\ flat es
  end.

(** The shape of the staging root that the module produces. *)
Definition shaped (d : dir) : Prop := unique d /\ every staged d.

(** The worlds that submissions lead to from an empty staging root. *)
Inductive reachable : world -> Prop :=
| reach_empty (ck : nat -> Z) : reachable (World [] 0 ck [])
| reach_submission (w : world) (astro : Request) (options : LoadUploadFilesOptions) :
    reachable w -> reachable (snd (loadUploadFiles astro options w)).

(** A computation keeps the shape of the staging root, however it ends. *)
Definition keeps {A} (m : M A) : Prop :=
  forall w, shaped (root w) -> shaped (root (snd (m w))).

(** An operation on the entries of a directory that keeps the names
    distinct and the nodes in [Q]. *)
Definition gentle (Q : node -> Prop) (op : dir -> result (dir * bool)) : Prop :=
  forall d d' b, op d = Ok (d', b) -> unique d -> every Q d ->
    unique d' /\ every Q d'.

(** The four quota checks of lines 76-95 let the submission through, the
    aggregate size of the staging root being [agg]. *)
Definition admitted (o : Settings) (data : UploadInfo) (uploadFile : File)
    (agg : Z) : Prop :=
  refused o uploadFile data = false /\
  uploadSize data <= s_maxUploadSize o /\
  agg + Z.max (uploadSize data) (fileSize uploadFile) <= s_maxDirectorySize o /\
  agg + uploadSize data <= s_maxUploadSize o.

(** A computation changes, directly under the staging root, only entries
    whose names are in [X], however it ends. *)
Definition confined (X : string -> Prop) {A} (m : M A) : Prop :=
  forall w other, ~ X other ->
    lookup other (root (snd (m w))) = lookup other (root w).

(** The two names under the staging root that belong to the upload [id]. *)
Definition ownNames (id : string) (name : string) : Prop :=
  name = ("chunks_" ++ id)%string \/ name = id.

(** Lines 134-135, once the assembly is done: the answer is [finished],
    unless a hook is given and its call throws. *)
Definition afterHook (hook : option (string -> nat -> HookEnd))
    (fileId : string) (totalSize : nat) : result outcome :=
  match hook with
  | Some h =>
      match h fileId totalSize with
      | Returns => Ok (Respond jsonFinished)
      | Throws => Throw HookError
      end
  | None => Ok (Respond jsonFinished)
  end.

(** What line 134 adds to the calls of the hook. *)
Definition callsOf (hook : option (string -> nat -> HookEnd))
    (fileId : string) (totalSize : nat) : list (string * nat) :=
  match hook with
  | Some _ => [(fileId, totalSize)]
  | None => []
  end.

(** A run got as far as the hook, line 134: it answers [finished], or it
    throws what the hook threw. *)
Definition reachedHook (x : result outcome) : Prop :=
  x = Ok (Respond jsonFinished) \/ x = Throw HookError.

(** A computation makes no call to the hook [onFinished], and so does
    not throw what the hook throws. *)
Definition silent {A} (m : M A) : Prop :=
  forall w,
    finishedCalls (snd (m w)) = finishedCalls w /\ fst (m w) <> Throw HookError.

(** A computation calls the hook [onFinished] once, for the upload [id],
    when it gets as far as line 134, and not at all otherwise. *)
Definition hooked (hook : option (string -> nat -> HookEnd)) (id : string)
    (m : M outcome) : Prop :=
  forall w,
    (exists k,
       fst (m w) = afterHook hook id k /\
       finishedCalls (snd (m w)) =
         finishedCalls w ++ callsOf hook id k) \/
    (~ reachedHook (fst (m w)) /\
     finishedCalls (snd (m w)) = finishedCalls w).

(** The files of the staging directory of the upload [id]; none when
    the directory is not there. *)
Definition stagedFiles (id : string) (r : dir) : dir :=
  match lookup ("chunks_" ++ id) r with
  | Some (Directory _ es) => es
  | _ => []
  end.

(** The names of a directory are in the order of [fs.readdir]: each is
    less than the next. *)
Fixpoint ascending (d : dir) : bool :=
  match d with
  | [] => true
  | (k, _) :: rest =>
      match rest with
      | [] => true
      | (k', _) :: _ => String.ltb k k'
      end && ascending rest
  end.

(** The staging root and the directories directly under it list their
    names in the order of [fs.readdir]. *)
Definition listed (d : dir) : Prop :=
  ascending d = true /\
  forall k m es, In (k, Directory m es) d -> ascending es = true.

(** A computation that returns, returns a response. *)
Definition responds (m : M outcome) : Prop :=
  forall w x w', m w = (Ok x, w') -> exists r, x = Respond r.

(** No character of the string is the separator [-] of a chunk name. *)
Fixpoint noDash (s : string) : bool :=
  match s with
  | EmptyString => true
  | String c rest => negb (Ascii.eqb c "-") && noDash rest
  end.

(** The entries that the reaper keeps, in the order of the listing: the
    entry at place [j] is judged at the clock reading [ck (tk + j)]. *)
Fixpoint survivors (maxUploadTime : Z) (ck : nat -> Z) (tk : nat) (d : dir) : dir :=
  match d with
  | [] => []
  | (k, n) :: rest =>
      if ck tk - mtimeOf n >? maxUploadTime
      then survivors maxUploadTime ck (S tk) rest
      else (k, n) :: survivors maxUploadTime ck (S tk) rest
  end.

(** The first name of a listing, if any, is greater than [k]. *)
Definition below (k : string) (d : dir) : bool :=
  match d with
  | [] => true
  | (k', _) :: _ => String.ltb k k'
  end.

(** A computation keeps the listings in the order of [fs.readdir],
    however it ends. *)
Definition tidy {A} (m : M A) : Prop :=
  forall w, listed (root w) -> listed (root (snd (m w))).

(** An operation on the entries of a directory that keeps them in
    order, and adds no directory but an empty one. *)
Definition orderly (op : dir -> result (dir * bool)) : Prop :=
  forall d d' b, op d = Ok (d', b) ->
    (ascending d = true -> ascending d' = true) /\
    (forall k m es, In (k, Directory m es) d' ->
       In (k, Directory m es) d \/ es = []).

(** ** Sample worlds and requests *)

Module Sample.

Definition bytes (s : string) : list byte := list_byte_of_string s.

(** Upload identifiers, and the name of the staging directory of [U]. *)
Definition U : string := "123e4567-e89b-12d3-a456-426614174000".
Definition V : string := "0b6f1c9e-4a55-4c1b-9f0e-2d5a7c3e8b11".
Definition W : string := "7d2c4e8a-91b3-4f6d-8a2e-5c1f0b9d3e77".
Definition chunks_U : string := "chunks_" ++ U.

(** A clock that stands at [t]. *)
Definition at_time (t : Z) : nat -> Z := fun _ => t.

Definition submission (id : string) (declared : Z) (part total : nat)
    (payload : string) : Request :=
  mkRequest "POST" true (Some "true")
    (Some (mkInfo id declared part total))
    (Some (mkFile "blob" (bytes payload))).

(** A hook that returns, and one that throws. *)
Definition quiet_hook : string -> nat -> HookEnd := fun _ _ => Returns.
Definition failing_hook : string -> nat -> HookEnd := fun _ _ => Throws.

Definition defaults : LoadUploadFilesOptions :=
  mkOptions None (Some quiet_hook) None None None.

Definition with_failing_hook : LoadUploadFilesOptions :=
  mkOptions None (Some failing_hook) None None None.

(** The staging directories of [V], last touched at time 0, and of [W],
    last touched at time 1000000, seen at time 6000000. *)
Definition two_uploads : world :=
  World [(("chunks_" ++ V)%string, Directory 0 [("1-2", RegFile 0 (bytes "x"))]);
         (("chunks_" ++ W)%string, Directory 1000000 [("1-3", RegFile 1000000 (bytes "y"))])]
        0 (at_time 6000000) [].

(** The staging directory of upload [U] holds part 1 of 2. *)
Definition one_chunk_stored : world :=
  World [(chunks_U, Directory 5 [("1-2", RegFile 5 (bytes "A"))])]
        0 (at_time 10) [].

(** A directory sits at the path of the artifact of upload [U]. *)
Definition directory_at_artifact : world :=
  World [(U, Directory 5 [])] 0 (at_time 10) [].

(** A directory sits at the path of the artifact of upload [U], and the
    staging directory of [U] holds the only part of the upload. *)
Definition staged_beside_directory : world :=
  World [(U, Directory 5 []);
         (chunks_U, Directory 5 [("1-1", RegFile 5 (bytes "AB"))])]
        0 (at_time 10) [].

Definition fresh : world := World [] 0 (at_time 10) [].

Definition after (astro : Request) (w : world) : world :=
  snd (loadUploadFiles astro defaults w).

(** Upload [U] of two parts: part 2 was submitted first and rejected for
    the missing part 1, then part 1 was submitted. *)
Definition after_rejection : world :=
  after (submission U 2 1 2 "A") (after (submission U 2 2 2 "B") fresh).

(** The staging directory of upload [U] of 3 parts holds part 1 only. *)
Definition first_of_three : world :=
  World [(chunks_U, Directory 5 [("1-3", RegFile 5 (bytes "aa"))])]
        0 (at_time 10) [].

(** The staging directory of upload [U] of 2 parts holds both parts and
    the marker of a rejection, which is listed after them. *)
Definition marker_after_chunks : world :=
  World [(chunks_U, Directory 5 [("1-2", RegFile 5 (bytes "aa"));
                                   ("2-2", RegFile 4 (bytes "bb"));
                                   ("error.txt", RegFile 4 (bytes "oops"))])]
        0 (at_time 10) [].

(** The parts of an upload of ten parts of one byte each, part [i]
    carrying the [i]-th letter. *)
Definition letter (i : nat) : string :=
  String.substring (i - 1) 1 "abcdefghij".

Definition part_of_ten (i : nat) : Request := submission U 10 i 10 (letter i).

(** The staging root after the submissions of the parts [order], one
    after the other. *)
Definition submitted (order : list nat) (w : world) : world :=
  fold_left (fun w i => after (part_of_ten i) w) order w.

(** The staging directory of upload [U] holds part 1 of 2, of 50 bytes. *)
Definition half_uploaded : world :=
  World [(chunks_U, Directory 5 [("1-2", RegFile 5 (repeat "x"%byte 50))])]
        0 (at_time 10) [].

Definition second_half : Request :=
  mkRequest "POST" true (Some "true") (Some (mkInfo U 100 2 2))
    (Some (mkFile "blob" (repeat "y"%byte 50))).

Definition limit100 : LoadUploadFilesOptions :=
  mkOptions None (Some quiet_hook) None (Some 100) None.

(** Upload [U] is finished: its artifact is there, its staging directory
    is gone. *)
Definition finished_upload : world :=
  World [(U, RegFile 5 (bytes "AB"))] 0 (at_time 10) [].

(** Part 2 of 3 of upload [U], submitted to an empty staging root. *)
Definition part_two : Request := submission U 6 2 3 "bb".

(** The only part of upload [U], submitted to an empty staging root. *)
Definition only_part : Request := submission U 2 1 1 "AB".

(** A submission for [U] that declares more than the default maximum. *)
Definition oversized : Request := submission U 2000000000 1 1 "AB".

(** A gated request whose metadata did not pass the validation. *)
Definition malformed : Request :=
  mkRequest "POST" true (Some "true") None (Some (mkFile "blob" (bytes "AB"))).

(** The artifact of upload [U], written at time 0 and seen at time
    6000000, past the default maximum age. *)
Definition stale_artifact : world :=
  World [(U, RegFile 0 (bytes "AB"))] 0 (at_time 6000000) [].

(** The staging directory of upload [U] of 2 parts lists part 1, then
    part 2. *)
Definition listed_in_order : world :=
  World [(chunks_U, Directory 5 [("1-2", RegFile 4 (bytes "aa"));
                                 ("2-2", RegFile 5 (bytes "bb"))])]
        0 (at_time 10) [].

(** Part 2 of 2 of upload [U], submitted after part 1. *)
Definition second_part : Request := submission U 2 2 2 "B".

End Sample.

(** * Properties *)

(** ** Facts on directories *)

Section DirectoryFacts.

Implicit Types (d : dir) (k name : string) (n : node).

Lemma lookup_insert_other d name k n :
  name <> k -> lookup name (insert k n d) = lookup name d.
Proof.
  intros Hne. induction d as [|[k' n'] d IH]; simpl.
  - destruct (String.eqb_spec k name); [congruence | reflexivity].
  - destruct (String.ltb k k'); simpl.
    + destruct (String.eqb_spec k name); [congruence | reflexivity].
    + rewrite IH. reflexivity.
Qed.

Lemma lookup_insert_same d k n :
  lookup k d = None -> lookup k (insert k n d) = Some n.
Proof.
  induction d as [|[k' n'] d IH]; simpl; intros H.
  - rewrite String.eqb_refl. reflexivity.
  - destruct (String.eqb k' k) eqn:E; [discriminate |].
    destruct (String.ltb k k'); simpl.
    + rewrite String.eqb_refl. reflexivity.
    + rewrite E. apply IH. exact H.
Qed.

Lemma In_insert d k n (e : string * node) :
  In e (insert k n d) <-> e = (k, n) \/ In e d.
Proof.
  induction d as [|[k' n'] d IH]; simpl.
  - intuition congruence.
  - destruct (String.ltb k k'); simpl.
    + intuition congruence.
    + rewrite IH. intuition congruence.
Qed.

Lemma In_names_insert d k n (x : string) :
  In x (names (insert k n d)) <-> x = k \/ In x (names d).
Proof.
  unfold names. rewrite !in_map_iff. split.
  - intros [[k' n'] [E Hin]]. simpl in E. subst k'.
    apply In_insert in Hin. destruct Hin as [Heq | Hin].
    + inversion Heq. auto.
    + right. exists (x, n'). auto.
  - intros [-> | [[k' n'] [E Hin]]].
    + exists (k, n). split; [reflexivity |]. apply In_insert. auto.
    + exists (k', n'). split; [exact E |]. apply In_insert. auto.
Qed.

Lemma length_insert d k n : List.length (insert k n d) = S (List.length d).
Proof.
  induction d as [|[k' n'] d IH]; simpl.
  - reflexivity.
  - destruct (String.ltb k k'); simpl; [| rewrite IH]; reflexivity.
Qed.

Lemma lookup_replace_same d name n :
  lookup name d <> None -> lookup name (replace name n d) = Some n.
Proof.
  induction d as [|[k' n'] d IH]; simpl; intros H.
  - congruence.
  - destruct (String.eqb k' name) eqn:E; simpl; rewrite E; auto.
Qed.

Lemma lookup_replace_other d name k n :
  k <> name -> lookup name (replace k n d) = lookup name d.
Proof.
  intros Hne. induction d as [|[k' n'] d IH]; simpl.
  - reflexivity.
  - destruct (String.eqb k' k) eqn:E; simpl.
    + apply String.eqb_eq in E. subst k'.
      destruct (String.eqb_spec k name); [contradiction | reflexivity].
    + rewrite IH. reflexivity.
Qed.

Lemma lookup_delete_same d name : lookup name (delete name d) = None.
Proof.
  induction d as [|[k' n'] d IH]; simpl.
  - reflexivity.
  - destruct (String.eqb k' name) eqn:E; simpl.
    + exact IH.
    + rewrite E. exact IH.
Qed.

Lemma lookup_delete_other d name k :
  k <> name -> lookup name (delete k d) = lookup name d.
Proof.
  intros Hne. induction d as [|[k' n'] d IH]; simpl.
  - reflexivity.
  - destruct (String.eqb k' k) eqn:E; simpl.
    + apply String.eqb_eq in E. subst k'.
      destruct (String.eqb_spec k name); [contradiction | exact IH].
    + rewrite IH. reflexivity.
Qed.

Lemma lookup_In d name n : lookup name d = Some n -> In (name, n) d.
Proof.
  induction d as [|[k' n'] d IH]; simpl; intros H.
  - discriminate.
  - destruct (String.eqb_spec k' name).
    + left. congruence.
    + right. auto.
Qed.

Lemma lookup_None d name : lookup name d = None <-> ~ In name (names d).
Proof.
  induction d as [|[k' n'] d IH]; simpl.
  - tauto.
  - destruct (String.eqb_spec k' name); split; intros H.
    + discriminate.
    + exfalso. apply H. left. assumption.
    + intros [H1 | H1]; [contradiction | ]. apply IH in H. contradiction.
    + apply IH. intros H1. apply H. right. assumption.
Qed.

Lemma In_lookup d name n :
  unique d -> In (name, n) d -> lookup name d = Some n.
Proof.
  unfold unique. induction d as [|[k' n'] d IH]; simpl; intros Hu Hin.
  - contradiction.
  - inversion Hu as [|? ? Hnotin Hu']; subst.
    destruct Hin as [Heq | Hin].
    + inversion Heq; subst. rewrite String.eqb_refl. reflexivity.
    + destruct (String.eqb_spec k' name) as [-> | Hne].
      * exfalso. apply Hnotin. apply (in_map fst) in Hin. exact Hin.
      * auto.
Qed.

Lemma names_replace d k n : names (replace k n d) = names d.
Proof.
  induction d as [|[k' n'] d IH]; simpl.
  - reflexivity.
  - destruct (String.eqb k' k); simpl; [| rewrite IH]; reflexivity.
Qed.

Lemma names_delete d k :
  names (delete k d) = filter (fun x => negb (String.eqb x k)) (names d).
Proof.
  induction d as [|[k' n'] d IH]; simpl.
  - reflexivity.
  - destruct (String.eqb k' k); simpl; rewrite IH; reflexivity.
Qed.

Lemma unique_delete d k : unique d -> unique (delete k d).
Proof.
  unfold unique. rewrite names_delete. apply NoDup_filter.
Qed.

Lemma delete_absent d k : ~ In k (names d) -> delete k d = d.
Proof.
  induction d as [|[k' n'] d IH]; simpl; intros H.
  - reflexivity.
  - destruct (String.eqb_spec k' k) as [-> | Hne]; simpl.
    + exfalso. apply H. left. reflexivity.
    + f_equal. apply IH. intros H1. apply H. right. assumption.
Qed.

Lemma resolve_one d name : resolve (join [] name) d = lookup name d.
Proof. reflexivity. Qed.

Lemma resolve_two d k name :
  resolve (join (join [] k) name) d =
  match lookup k d with
  | Some (Directory _ sub) => lookup name sub
  | _ => None
  end.
Proof. reflexivity. Qed.

(** The staging directory of an upload never has the name of its
    finished artifact. *)
Lemma staging_name_differs (id : string) : ("chunks_" ++ id)%string <> id.
Proof.
  intros H. apply (f_equal String.length) in H.
  simpl in H. lia.
Qed.

End DirectoryFacts.

(** ** Facts on the file-system calls *)

Lemma bind_run {A B} (m : M A) (k : A -> M B) w a w' :
  m w = (Ok a, w') -> bind m k w = k a w'.
Proof. intros H. unfold bind. rewrite H. reflexivity. Qed.

Lemma checkIfFileExists_run (p : path) (w : world) :
  checkIfFileExists p w =
  (Ok match resolve p (root w) with
      | Some (RegFile _ _) => true
      | _ => false
      end, w).
Proof.
  unfold checkIfFileExists, tryCatch, bind, stat, ret.
  destruct (resolve p (root w)) as [[t c | t es] |]; reflexivity.
Qed.

Lemma remove_top (name : string) (w : world) :
  remove (join [] name) w = (Ok tt, setRoot (delete name (root w)) w).
Proof.
  unfold remove, join. simpl.
  destruct (lookup name (root w)) eqn:E.
  - reflexivity.
  - unfold setRoot. rewrite delete_absent.
    + destruct w; reflexivity.
    + apply lookup_None. exact E.
Qed.

(** ** The reaper *)

Lemma mtime_statsOf (n : node) : mtime (statsOf n) = mtimeOf n.
Proof. destruct n; reflexivity. Qed.

Lemma reap_loop (maxUploadTime : Z) (ck : nat -> Z) (fc : list (string * nat)) :
  forall (suf r : dir) (tk : nat),
    unique suf ->
    (forall name n, In (name, n) suf -> lookup name r = Some n) ->
    exists r',
      forEach (names suf) (reapEntry [] maxUploadTime) (World r tk ck fc)
        = (Ok tt, World r' (tk + List.length suf) ck fc) /\
      (forall name, ~ In name (names suf) -> lookup name r' = lookup name r) /\
      (forall j name n, nth_error suf j = Some (name, n) ->
         lookup name r' =
         if ck (tk + j)%nat - mtimeOf n >? maxUploadTime then None else Some n).
Proof.
  induction suf as [|[k0 n0] suf IH]; intros r tk Hu Hin.
  - exists r. simpl. rewrite Nat.add_0_r. split; [reflexivity | split].
    + reflexivity.
    + intros [|j] ? ? H; discriminate.
  - inversion Hu as [|? ? Hnotin Hu']; subst.
    assert (Hk0 : lookup k0 r = Some n0) by (apply Hin; left; reflexivity).
    set (old := ck tk - mtimeOf n0 >? maxUploadTime).
    set (r1 := if old then delete k0 r else r).
    assert (Hstep : reapEntry [] maxUploadTime k0 (World r tk ck fc)
                    = (Ok tt, World r1 (S tk) ck fc)).
    { unfold reapEntry, bind, stat, dateNow, timeOf. simpl.
      rewrite Hk0. simpl. rewrite mtime_statsOf. fold old.
      unfold r1. destruct old.
      - rewrite remove_top. reflexivity.
      - reflexivity. }
    destruct (IH r1 (S tk) Hu') as [r' [Hrun [Hout Hin']]].
    { intros name n H. unfold r1. destruct old.
      - rewrite lookup_delete_other.
        + apply Hin. right. exact H.
        + intros ->. apply Hnotin. apply (in_map fst) in H. exact H.
      - apply Hin. right. exact H. }
    exists r'. split; [| split].
    + simpl. rewrite (bind_run _ _ _ _ _ Hstep). rewrite Hrun.
      replace (S tk + List.length suf)%nat with (tk + S (List.length suf))%nat by lia.
      reflexivity.
    + intros name Hn. simpl in Hn. rewrite Hout by tauto.
      unfold r1. destruct old; [| reflexivity].
      apply lookup_delete_other. tauto.
    + intros [|j] name n H; simpl in H.
      * inversion H; subst. rewrite Nat.add_0_r. fold old.
        rewrite Hout by exact Hnotin.
        unfold r1. destruct old.
        -- apply lookup_delete_same.
        -- exact Hk0.
      * replace (tk + S j)%nat with (S tk + j)%nat by lia.
        apply Hin'. exact H.
Qed.

Lemma deleteOldUploads_run (maxUploadTime : Z) (w : world) :
  unique (root w) ->
  exists r',
    deleteOldUploads [] maxUploadTime w
      = (Ok tt, World r' (tick w + List.length (root w)) (clock w) (finishedCalls w)) /\
    (forall name, ~ In name (names (root w)) -> lookup name r' = None) /\
    (forall j name n, nth_error (root w) j = Some (name, n) ->
       lookup name r' =
       if clock w (tick w + j)%nat - mtimeOf n >? maxUploadTime then None else Some n).
Proof.
  intros Hu. destruct w as [r tk ck fc]. simpl in *.
  destruct (reap_loop maxUploadTime ck fc r r tk Hu) as [r' [Hrun [Hout Hin]]].
  { intros name n H. apply In_lookup; assumption. }
  exists r'. split; [| split].
  - unfold deleteOldUploads, bind, readdir. simpl. exact Hrun.
  - intros name Hn. rewrite Hout by exact Hn. apply lookup_None. exact Hn.
  - exact Hin.
Qed.

Lemma reaped_world (maxUploadTime : Z) (w : world) :
  unique (root w) ->
  deleteOldUploads [] maxUploadTime w = (Ok tt, reaped maxUploadTime w) /\
  clock (reaped maxUploadTime w) = clock w /\
  finishedCalls (reaped maxUploadTime w) = finishedCalls w.
Proof.
  intros Hu. unfold reaped.
  destruct (deleteOldUploads_run maxUploadTime w Hu) as [r' [Hrun _]].
  rewrite Hrun. simpl. auto.
Qed.

Lemma loadUploadFiles_gated (astro : Request) (options : LoadUploadFilesOptions)
    (w : world) :
  gated astro = true ->
  unique (root w) ->
  loadUploadFiles astro options w =
  afterReaping astro options (reaped (s_maxUploadTime (settings options)) w).
Proof.
  intros Hg Hu. unfold loadUploadFiles. rewrite Hg. simpl.
  destruct (reaped_world (s_maxUploadTime (settings options)) w Hu) as [Hrun _].
  unfold ensureDir. unfold bind at 1. unfold ret at 1.
  rewrite (bind_run _ _ _ _ _ Hrun). reflexivity.
Qed.

Lemma reaped_root (maxUploadTime : Z) (w : world) :
  unique (root w) ->
  (forall name, lookup name (root w) = None ->
     lookup name (root (reaped maxUploadTime w)) = None) /\
  (forall j name n, nth_error (root w) j = Some (name, n) ->
     lookup name (root (reaped maxUploadTime w)) =
     if clock w (tick w + j)%nat - mtimeOf n >? maxUploadTime then None else Some n).
Proof.
  intros Hu. unfold reaped.
  destruct (deleteOldUploads_run maxUploadTime w Hu) as [r' [Hrun [Hout Hin]]].
  rewrite Hrun. simpl. split.
  - intros name H. apply Hout. apply lookup_None. exact H.
  - exact Hin.
Qed.

Lemma reaped_lookup (maxUploadTime : Z) (w : world) (name : string) :
  unique (root w) ->
  lookup name (root (reaped maxUploadTime w)) = None \/
  lookup name (root (reaped maxUploadTime w)) = lookup name (root w).
Proof.
  intros Hu. destruct (reaped_root maxUploadTime w Hu) as [Hout Hin].
  destruct (lookup name (root w)) as [n|] eqn:E.
  - apply lookup_In in E. apply In_nth_error in E. destruct E as [j Hj].
    rewrite (Hin j name n Hj).
    destruct (clock w (tick w + j)%nat - mtimeOf n >? maxUploadTime); auto.
  - left. apply Hout. exact E.
Qed.

(** ** Rejections of a validated submission *)

Lemma setRoot_same (w : world) : setRoot (root w) w = w.
Proof. destruct w; reflexivity. Qed.

Lemma root_setRoot (d : dir) (w : world) : root (setRoot d w) = d.
Proof. reflexivity. Qed.

Lemma ensureDir_top (name : string) (w : world) :
  ensureDir (join [] name) w =
  match lookup name (root w) with
  | Some (Directory _ _) => (Ok tt, w)
  | Some (RegFile _ _) => (Throw EEXIST, w)
  | None => (Ok tt, setRoot (insert name (Directory (timeOf w) []) (root w)) w)
  end.
Proof.
  unfold ensureDir, join, mutate. simpl.
  destruct (lookup name (root w)) as [[t c | t es] |]; try reflexivity.
  rewrite setRoot_same. reflexivity.
Qed.

Lemma ensureDir_top_lookup (name other : string) (w w' : world) :
  ensureDir (join [] name) w = (Ok tt, w') ->
  other <> name ->
  lookup other (root w') = lookup other (root w).
Proof.
  rewrite ensureDir_top. intros H Hne.
  destruct (lookup name (root w)) as [[t c | t es] |]; inversion H; subst.
  - reflexivity.
  - simpl. apply lookup_insert_other. exact Hne.
Qed.

Lemma bind_inv {A B} (m : M A) (k : A -> M B) (w : world) (b : B) :
  fst (bind m k w) = Ok b ->
  exists a w', m w = (Ok a, w') /\ fst (k a w') = Ok b.
Proof.
  unfold bind. destruct (m w) as [[a | e] w']; simpl; intros H.
  - exists a, w'. auto.
  - discriminate.
Qed.

Lemma sendError_reply (uploadDir : path) (msg : string) (w : world) (r : Reply) :
  fst (sendError uploadDir msg w) = Ok (Respond r) -> r = jsonError msg.
Proof.
  unfold sendError. intros H. apply bind_inv in H.
  destruct H as [[] [w' [_ H]]]. simpl in H. congruence.
Qed.

(** The answer [Upload already exists] is given only when the path of the
    artifact holds a regular file. *)
Lemma handleChunk_already_exists (o : Settings) (data : UploadInfo)
    (uploadFile : File) (w : world) :
  fst (handleChunk o data uploadFile w)
    = Ok (Respond (jsonError "Upload already exists")) ->
  exists t c, lookup (uploadId data) (root w) = Some (RegFile t c).
Proof.
  unfold handleChunk. intros H.
  apply bind_inv in H. destruct H as [[] [w1 [Hens H]]].
  pose proof (ensureDir_top_lookup _ (uploadId data) _ _ Hens
                (fun e => staging_name_differs _ (eq_sym e))) as Hsame.
  destruct (refused o uploadFile data).
  { apply sendError_reply in H. discriminate. }
  destruct (uploadSize data >? s_maxUploadSize o).
  { apply sendError_reply in H. discriminate. }
  apply bind_inv in H. destruct H as [s1 [w2 [Hs1 H]]].
  unfold totalDirectorySize in Hs1. inversion Hs1; subst w2; clear Hs1.
  destruct (_ >? s_maxDirectorySize o).
  { apply sendError_reply in H. discriminate. }
  apply bind_inv in H. destruct H as [s2 [w2 [Hs2 H]]].
  unfold totalDirectorySize in Hs2. inversion Hs2; subst w2; clear Hs2.
  destruct (_ >? s_maxUploadSize o).
  { apply bind_inv in H. destruct H as [[] [w3 [_ H]]].
    apply sendError_reply in H. discriminate. }
  rewrite (bind_run _ _ _ _ _ (checkIfFileExists_run _ w1)) in H.
  unfold join in H. simpl in H. rewrite Hsame in H.
  destruct (lookup (uploadId data) (root w)) as [[t c | t es] |].
  - exists t, c. reflexivity.
  - exfalso.
    apply bind_inv in H. destruct H as [[] [w3 [_ H]]].
    destruct (negb (part data =? total data)%nat).
    { simpl in H. discriminate. }
    unfold finishUpload in H.
    apply bind_inv in H. destruct H as [files [w4 [_ H]]].
    destruct (missingChunk files (total data)).
    + apply sendError_reply in H. discriminate.
    + apply bind_inv in H. destruct H as [[] [w5 [_ H]]].
      apply bind_inv in H. destruct H as [[] [w6 [_ H]]].
      simpl in H. discriminate.
  - exfalso.
    apply bind_inv in H. destruct H as [[] [w3 [_ H]]].
    destruct (negb (part data =? total data)%nat).
    { simpl in H. discriminate. }
    unfold finishUpload in H.
    apply bind_inv in H. destruct H as [files [w4 [_ H]]].
    destruct (missingChunk files (total data)).
    + apply sendError_reply in H. discriminate.
    + apply bind_inv in H. destruct H as [[] [w5 [_ H]]].
      apply bind_inv in H. destruct H as [[] [w6 [_ H]]].
      simpl in H. discriminate.
Qed.

(** ** Writing into a staging directory *)

Lemma writeFile_in_staging (s name : string) (content : list byte) (w : world)
    (m : Z) (es : dir) :
  lookup s (root w) = Some (Directory m es) ->
  (forall t sub, lookup name es <> Some (Directory t sub)) ->
  exists m' es',
    writeFile (join (join [] s) name) content w
      = (Ok tt, setRoot (replace s (Directory m' es') (root w)) w) /\
    lookup name es' = Some (RegFile (timeOf w) content) /\
    (forall other, other <> name -> lookup other es' = lookup other es) /\
    (forall other, In other (names es) -> In other (names es')).
Proof.
  intros Hs Hfile. unfold writeFile, join, mutate. simpl. rewrite Hs.
  destruct (lookup name es) as [[t c | t sub] |] eqn:E.
  - exists m, (replace name (RegFile (timeOf w) content) es).
    split; [reflexivity | split; [| split]].
    + apply lookup_replace_same. congruence.
    + intros other Hne. apply lookup_replace_other. congruence.
    + intros other Hin. rewrite names_replace. exact Hin.
  - exfalso. apply (Hfile t sub). reflexivity.
  - exists (timeOf w), (insert name (RegFile (timeOf w) content) es).
    split; [reflexivity | split; [| split]].
    + apply lookup_insert_same. exact E.
    + intros other Hne. apply lookup_insert_other. exact Hne.
    + intros other Hin. apply In_names_insert. right. exact Hin.
Qed.

Lemma sendError_in_staging (s msg : string) (w : world) (m : Z) (es : dir) :
  lookup s (root w) = Some (Directory m es) ->
  (forall t sub, lookup "error.txt" es <> Some (Directory t sub)) ->
  exists m' es',
    sendError (join [] s) msg w
      = (Ok (Respond (jsonError msg)),
         setRoot (replace s (Directory m' es') (root w)) w) /\
    lookup "error.txt" es' = Some (RegFile (timeOf w) (list_byte_of_string msg)) /\
    (forall other, other <> "error.txt" -> lookup other es' = lookup other es).
Proof.
  intros Hs Hfile.
  destruct (writeFile_in_staging s "error.txt" (list_byte_of_string msg) w m es
              Hs Hfile) as [m' [es' [Hrun [Hnew [Hold _]]]]].
  exists m', es'. split; [| split; assumption].
  unfold sendError. rewrite (bind_run _ _ _ _ _ Hrun). reflexivity.
Qed.

(** ** The completeness check *)

Lemma includes_In (files : list string) (name : string) :
  includes files name = true <-> In name files.
Proof.
  unfold includes. rewrite existsb_exists. split.
  - intros [x [Hin Heq]]. apply String.eqb_eq in Heq. subst. exact Hin.
  - intros Hin. exists name. split; [exact Hin | apply String.eqb_refl].
Qed.

Lemma find_seq_Some (f : nat -> bool) :
  forall (len start i : nat),
    find f (seq start len) = Some i ->
    (start <= i < start + len)%nat /\ f i = true /\
    (forall j, (start <= j < i)%nat -> f j = false).
Proof.
  induction len as [|len IH]; simpl; intros start i H.
  - discriminate.
  - destruct (f start) eqn:E.
    + inversion H; subst. repeat split; try lia. exact E.
    + apply IH in H. destruct H as [Hr [Hi Hj]]. repeat split; try lia.
      * exact Hi.
      * intros j Hj'. destruct (Nat.eq_dec j start) as [-> | Hne].
        -- exact E.
        -- apply Hj. lia.
Qed.

Lemma find_seq_None (f : nat -> bool) :
  forall (len start : nat),
    find f (seq start len) = None ->
    forall j, (start <= j < start + len)%nat -> f j = false.
Proof.
  induction len as [|len IH]; simpl; intros start H j Hj.
  - lia.
  - destruct (f start) eqn:E; [discriminate |].
    destruct (Nat.eq_dec j start) as [-> | Hne].
    + exact E.
    + apply (IH (S start) H). lia.
Qed.

Lemma missingChunk_Some (files : list string) (total i : nat) :
  missingChunk files total = Some i ->
  (1 <= i <= total)%nat /\
  ~ In (chunkName i total) files /\
  (forall j, (1 <= j < i)%nat -> In (chunkName j total) files).
Proof.
  unfold missingChunk. intros H. apply find_seq_Some in H.
  destruct H as [Hr [Hi Hj]]. split; [lia | split].
  - intros Hin. apply includes_In in Hin. rewrite Hin in Hi. discriminate.
  - intros j Hjr. apply includes_In. specialize (Hj j Hjr).
    destruct (includes files (chunkName j total)); [reflexivity | discriminate].
Qed.

Lemma missingChunk_None (files : list string) (total : nat) :
  missingChunk files total = None <->
  (forall j, (1 <= j <= total)%nat -> In (chunkName j total) files).
Proof.
  unfold missingChunk. split.
  - intros H j Hj. apply includes_In.
    pose proof (find_seq_None _ _ _ H j) as Hf. simpl in Hf.
    destruct (includes files (chunkName j total)); [reflexivity |].
    assert (true = false) by (apply Hf; lia). discriminate.
  - intros H.
    destruct (find _ (seq 1 total)) as [i|] eqn:E; [| reflexivity].
    apply find_seq_Some in E. destruct E as [Hr [Hi _]].
    assert (Hin : In (chunkName i total) files) by (apply H; lia).
    apply includes_In in Hin. rewrite Hin in Hi. discriminate.
Qed.

Lemma readdir_staging (s : string) (w : world) (m : Z) (es : dir) :
  lookup s (root w) = Some (Directory m es) ->
  readdir (join [] s) w = (Ok (names es), w).
Proof.
  intros H. unfold readdir, join. simpl. rewrite H. reflexivity.
Qed.

(** ** Chunk names *)

Lemma noDash_digits (d : Decimal.uint) :
  noDash (NilEmpty.string_of_uint d) = true.
Proof. induction d; simpl; auto. Qed.

Lemma noDash_string_of_nat (n : nat) : noDash (string_of_nat n) = true.
Proof.
  unfold string_of_nat, NilZero.string_of_uint.
  destruct (Nat.to_uint n) eqn:E; try (rewrite <- E; apply noDash_digits).
  reflexivity.
Qed.

Lemma string_of_nat_injective (n n' : nat) :
  string_of_nat n = string_of_nat n' -> n = n'.
Proof.
  unfold string_of_nat. intros H.
  assert (Hval : forall d,
            exists y, NilZero.uint_of_string (NilZero.string_of_uint d) = Some y /\
                      Nat.of_uint y = Nat.of_uint d).
  { intros d. destruct d;
      try (eexists; split; [apply NilZero.usu; discriminate | reflexivity]).
    exists Decimal.zero. split; reflexivity. }
  destruct (Hval (Nat.to_uint n)) as [y [Hy Ey]].
  destruct (Hval (Nat.to_uint n')) as [y' [Hy' Ey']].
  rewrite H in Hy. rewrite Hy in Hy'. inversion Hy'; subst y'.
  rewrite <- (DecimalNat.Unsigned.of_to n), <- (DecimalNat.Unsigned.of_to n').
  congruence.
Qed.

Lemma split_at_dash (s1 : string) :
  forall s1' s2 s2',
    noDash s1 = true -> noDash s1' = true ->
    (s1 ++ "-" ++ s2)%string = (s1' ++ "-" ++ s2')%string ->
    s1 = s1' /\ s2 = s2'.
Proof.
  induction s1 as [|c r IH]; intros s1' s2 s2' H1 H1' E.
  - destruct s1' as [|c' r']; simpl in E.
    + inversion E. auto.
    + inversion E; subst c'. simpl in H1'. discriminate.
  - destruct s1' as [|c' r']; simpl in E.
    + inversion E; subst c. simpl in H1. discriminate.
    + inversion E; subst c'. simpl in H1, H1'.
      apply andb_true_iff in H1. apply andb_true_iff in H1'.
      destruct (IH r' s2 s2') as [-> ->]; tauto.
Qed.

Lemma chunk_key_of_name (part total part' total' : nat) :
  chunkName part total = chunkName part' total' ->
  part = part' /\ total = total'.
Proof.
  unfold chunkName. intros H.
  apply split_at_dash in H; try apply noDash_string_of_nat.
  destruct H as [Hp Ht].
  split; apply string_of_nat_injective; assumption.
Qed.

Lemma chunkName_not_marker (part total : nat) :
  String.eqb (chunkName part total) "error.txt" = false.
Proof.
  apply String.eqb_neq. intros H.
  assert (Hd : noDash "error.txt" = true) by reflexivity.
  change "error.txt" with ("error.txt" ++ "")%string in H.
  unfold chunkName in H.
  assert (Hshape : forall s1 s2 s,
            noDash s = true -> (s1 ++ "-" ++ s2)%string <> s).
  { clear. induction s1 as [|c r IH]; intros s2 s Hs E; subst s; simpl in Hs.
    - discriminate.
    - apply andb_true_iff in Hs. destruct Hs as [_ Hs].
      apply (IH s2 _ Hs eq_refl). }
  apply (Hshape _ _ _ Hd H).
Qed.

(** ** The assembly *)

Lemma contents_by_name (d : dir) :
  unique d -> map (contentOf d) (names d) = contents d.
Proof.
  intros Hu. unfold names, contents. rewrite map_map.
  apply map_ext_in. intros [k n] Hin. unfold contentOf. simpl.
  rewrite (In_lookup d k n Hu Hin). destruct n; reflexivity.
Qed.

Lemma copyChunk_run (s id file : string) (w : world) (m t tf : Z)
    (cur : dir) (acc c : list byte) :
  s <> id ->
  lookup s (root w) = Some (Directory m cur) ->
  lookup id (root w) = Some (RegFile t acc) ->
  lookup file cur = Some (RegFile tf c) ->
  exists r' m' t',
    copyChunk (join [] s) (join [] id) file w = (Ok tt, setRoot r' w) /\
    lookup s r' = Some (Directory m' (delete file cur)) /\
    lookup id r' = Some (RegFile t' (acc ++ c)) /\
    (forall other, other <> s -> other <> id ->
       lookup other r' = lookup other (root w)).
Proof.
  intros Hne Hs Hid Hfile.
  set (r1 := match c with
             | [] => root w
             | _ :: _ => replace id (RegFile (timeOf w) (acc ++ c)) (root w)
             end).
  assert (Hs1 : lookup s r1 = Some (Directory m cur)).
  { unfold r1. destruct c; [exact Hs |].
    rewrite lookup_replace_other by congruence. exact Hs. }
  assert (Hid1 : exists t', lookup id r1 = Some (RegFile t' (acc ++ c))).
  { unfold r1. destruct c.
    - exists t. rewrite app_nil_r. exact Hid.
    - exists (timeOf w). apply lookup_replace_same. congruence. }
  assert (Hother1 : forall other, other <> id -> lookup other r1 = lookup other (root w)).
  { intros other Ho. unfold r1. destruct c; [reflexivity |].
    apply lookup_replace_other. congruence. }
  destruct Hid1 as [t' Hid1].
  exists (replace s (Directory (timeOf w) (delete file cur)) r1), (timeOf w), t'.
  split; [| split; [| split]].
  - assert (Hread : readStream (join (join [] s) file) w = (Ok c, w)).
    { unfold readStream, join. simpl. rewrite Hs, Hfile. reflexivity. }
    assert (Hwrite :
      (match c with
       | [] => ret tt
       | _ :: _ => streamWrite (join [] id) c
       end) w = (Ok tt, setRoot r1 w)).
    { unfold r1. destruct c.
      - unfold ret. rewrite setRoot_same. reflexivity.
      - unfold streamWrite, tryCatch, mutate, join. simpl. rewrite Hid.
        reflexivity. }
    assert (Hremove :
      remove (join (join [] s) file) (setRoot r1 w)
      = (Ok tt, setRoot (replace s (Directory (timeOf w) (delete file cur)) r1) w)).
    { unfold remove, mutate, join. simpl. rewrite Hs1, Hfile. simpl.
      reflexivity. }
    unfold copyChunk.
    rewrite (bind_run _ _ _ _ _ Hread).
    rewrite (bind_run _ _ _ _ _ Hwrite).
    exact Hremove.
  - apply lookup_replace_same. congruence.
  - rewrite lookup_replace_other by congruence. exact Hid1.
  - intros other Ho1 Ho2. rewrite lookup_replace_other by congruence.
    apply Hother1. exact Ho2.
Qed.

Lemma assemble_loop (s id : string) (Hne : s <> id) :
  forall (files : list string) (w : world) (m t : Z) (cur : dir) (acc : list byte),
    NoDup files ->
    (forall f, In f files -> exists tf c, lookup f cur = Some (RegFile tf c)) ->
    lookup s (root w) = Some (Directory m cur) ->
    lookup id (root w) = Some (RegFile t acc) ->
    exists r' m' cur' t',
      forEach files (copyChunk (join [] s) (join [] id)) w = (Ok tt, setRoot r' w) /\
      lookup s r' = Some (Directory m' cur') /\
      lookup id r' = Some (RegFile t' (acc ++ List.concat (map (contentOf cur) files))) /\
      (forall other, other <> s -> other <> id ->
         lookup other r' = lookup other (root w)).
Proof.
  induction files as [|f files IH]; intros w m t cur acc Hnd Hfiles Hs Hid.
  - exists (root w), m, cur, t. simpl. rewrite app_nil_r, setRoot_same.
    unfold ret. auto.
  - inversion Hnd as [|? ? Hnotin Hnd']; subst.
    destruct (Hfiles f (or_introl eq_refl)) as [tf [c Hf]].
    destruct (copyChunk_run s id f w m t tf cur acc c Hne Hs Hid Hf)
      as [r1 [m1 [t1 [Hrun [Hs1 [Hid1 Hother1]]]]]].
    destruct (IH (setRoot r1 w) m1 t1 (delete f cur) (acc ++ c) Hnd')
      as [r' [m' [cur' [t' [Hrun' [Hs' [Hid' Hother']]]]]]].
    { intros g Hg. rewrite lookup_delete_other.
      - apply Hfiles. right. exact Hg.
      - intros ->. contradiction. }
    { exact Hs1. }
    { exact Hid1. }
    exists r', m', cur', t'. split; [| split; [exact Hs' | split]].
    + simpl. rewrite (bind_run _ _ _ _ _ Hrun). rewrite Hrun'. reflexivity.
    + rewrite Hid'. simpl. rewrite <- app_assoc.
      unfold contentOf at 2. rewrite Hf.
      do 5 f_equal. apply map_ext_in. intros g Hg. unfold contentOf.
      rewrite lookup_delete_other; [reflexivity |].
      intros ->. contradiction.
    + intros other Ho1 Ho2. rewrite Hother' by assumption.
      simpl. apply Hother1; assumption.
Qed.

Lemma assemble_run (s id : string) (w : world) (m : Z) (es : dir) :
  s <> id ->
  lookup s (root w) = Some (Directory m es) ->
  unique es ->
  flat es ->
  lookup id (root w) = None ->
  exists r' t,
    assemble (join [] s) (join [] id) (names es) w = (Ok tt, setRoot r' w) /\
    lookup s r' = None /\
    lookup id r' = Some (RegFile t (List.concat (contents es))) /\
    (forall other, other <> s -> other <> id ->
       lookup other r' = lookup other (root w)).
Proof.
  intros Hne Hs Hu Hflat Hid.
  set (w1 := setRoot (insert id (RegFile (timeOf w) []) (root w)) w).
  assert (Hopen : createWriteStream (join [] id) w = (Ok tt, w1)).
  { unfold createWriteStream, tryCatch, join, mutate. simpl. rewrite Hid.
    reflexivity. }
  assert (Hs1 : lookup s (root w1) = Some (Directory m es)).
  { simpl. rewrite lookup_insert_other by exact Hne. exact Hs. }
  assert (Hid1 : lookup id (root w1) = Some (RegFile (timeOf w) [])).
  { simpl. apply lookup_insert_same. exact Hid. }
  destruct (assemble_loop s id Hne (names es) w1 m (timeOf w) es [] Hu)
    as [r2 [m2 [cur2 [t2 [Hrun [Hs2 [Hid2 Hother2]]]]]]].
  { intros f Hf. apply in_map_iff in Hf. destruct Hf as [[k n] [Hk Hin]].
    simpl in Hk. subst k. destruct (Hflat f n Hin) as [tf [c ->]].
    exists tf, c. apply In_lookup; assumption. }
  { exact Hs1. }
  { exact Hid1. }
  exists (delete s r2), t2.
  split; [| split; [| split]].
  - unfold assemble. rewrite (bind_run _ _ _ _ _ Hopen).
    rewrite (bind_run _ _ _ _ _ Hrun). rewrite remove_top. reflexivity.
  - apply lookup_delete_same.
  - rewrite lookup_delete_other by exact Hne. rewrite Hid2. simpl.
    rewrite contents_by_name by exact Hu. reflexivity.
  - intros other Ho1 Ho2. rewrite lookup_delete_other by congruence.
    rewrite Hother2 by assumption. simpl.
    apply lookup_insert_other. exact Ho2.
Qed.

(** ** The hook and the end of a finishing submission *)

Lemma callOnFinished_then_finished (hook : option (string -> nat -> HookEnd))
    (id : string) (k : nat) (w : world) :
  (callOnFinished hook id k ;; ret (Respond jsonFinished)) w
  = (afterHook hook id k,
     World (root w) (tick w) (clock w) (finishedCalls w ++ callsOf hook id k)).
Proof.
  unfold bind, callOnFinished, afterHook, callsOf, ret.
  destruct hook as [h |].
  - destruct (h id k); reflexivity.
  - rewrite app_nil_r. destruct w; reflexivity.
Qed.

Lemma finishUpload_run (o : Settings) (data : UploadInfo) (w : world)
    (m : Z) (es : dir) :
  lookup ("chunks_" ++ uploadId data) (root w) = Some (Directory m es) ->
  unique es ->
  flat es ->
  lookup (uploadId data) (root w) = None ->
  missingChunk (names es) (total data) = None ->
  exists (w' : world) (t : Z),
    finishUpload o (join [] ("chunks_" ++ uploadId data)) data w
      = (afterHook (s_onFinished o) (uploadId data) (List.length es), w') /\
    lookup (uploadId data) (root w') = Some (RegFile t (List.concat (contents es))) /\
    lookup ("chunks_" ++ uploadId data) (root w') = None /\
    finishedCalls w' =
      finishedCalls w ++ callsOf (s_onFinished o) (uploadId data) (List.length es).
Proof.
  intros Hdir Hu Hflat Hart Hnone. unfold finishUpload.
  rewrite (bind_run _ _ _ _ _ (readdir_staging _ w m es Hdir)), Hnone.
  destruct (assemble_run _ _ w m es (staging_name_differs _) Hdir Hu Hflat Hart)
    as [r' [t [Hrun [Hs' [Hid' _]]]]].
  rewrite (bind_run _ _ _ _ _ Hrun).
  unfold names. rewrite length_map.
  rewrite callOnFinished_then_finished.
  eexists. exists t. split; [reflexivity |].
  cbn [root finishedCalls setRoot]. auto.
Qed.

(** ** The store step *)

Lemma In_names_lookup (d : dir) (x : string) :
  In x (names d) <-> lookup x d <> None.
Proof.
  split.
  - intros Hin E. apply lookup_None in E. contradiction.
  - intros Hne. destruct (in_dec string_dec x (names d)) as [Hin | Hout];
      [exact Hin |].
    apply lookup_None in Hout. contradiction.
Qed.

Lemma replace_same (d : dir) (k : string) (n : node) :
  lookup k d = Some n -> replace k n d = d.
Proof.
  induction d as [|[k' n'] d IH]; simpl; intros H.
  - reflexivity.
  - destruct (String.eqb_spec k' k) as [-> | Hne].
    + inversion H. reflexivity.
    + rewrite (IH H). reflexivity.
Qed.

(** The store step in a staging directory where the place of the chunk
    is not taken by a directory: afterwards the chunk file is there, and
    every other file is as it was. *)
Lemma storeChunk_in_staging (s : string) (part total : nat) (uploadFile : File)
    (w : world) (m : Z) (es : dir) :
  lookup s (root w) = Some (Directory m es) ->
  (forall t sub, lookup (chunkName part total) es <> Some (Directory t sub)) ->
  exists m' es',
    storeChunk (join [] s) part total uploadFile w
      = (Ok tt, setRoot (replace s (Directory m' es') (root w)) w) /\
    (exists t c, lookup (chunkName part total) es' = Some (RegFile t c)) /\
    (forall other, other <> chunkName part total ->
       lookup other es' = lookup other es).
Proof.
  intros Hs Hfile. unfold storeChunk.
  rewrite (bind_run _ _ _ _ _ (checkIfFileExists_run _ w)).
  rewrite resolve_two, Hs.
  destruct (lookup (chunkName part total) es) as [[t c | t sub] |] eqn:E.
  - exists m, es. simpl. unfold ret.
    rewrite (replace_same _ _ _ Hs), setRoot_same.
    split; [reflexivity | split; [eauto | reflexivity]].
  - exfalso. apply (Hfile t sub). reflexivity.
  - simpl.
    assert (Hfile' : forall t sub,
              lookup (chunkName part total) es <> Some (Directory t sub))
      by (intros t sub; congruence).
    destruct (writeFile_in_staging s (chunkName part total) (fileBytes uploadFile)
                w m es Hs Hfile') as [m' [es' [Hrun [Hnew [Hold _]]]]].
    exists m', es'. split; [exact Hrun | split; [eauto | exact Hold]].
Qed.

(** The completeness check after the last part was stored: when a part
    before the last is not staged, the check stops at the first such
    part. *)
Lemma missingChunk_after_store (es es' : dir) (total missing : nat) :
  lookup (chunkName total total) es' <> None ->
  (forall other, other <> chunkName total total ->
     lookup other es' = lookup other es) ->
  (1 <= missing < total)%nat ->
  ~ In (chunkName missing total) (names es) ->
  exists i,
    missingChunk (names es') total = Some i /\
    (1 <= i <= missing)%nat /\
    ~ In (chunkName i total) (names es) /\
    (forall j, (1 <= j < i)%nat -> In (chunkName j total) (names es)).
Proof.
  intros Hlast Hold Hrange Hmissing.
  assert (Hsame : forall j, j <> total ->
            (In (chunkName j total) (names es') <-> In (chunkName j total) (names es))).
  { intros j Hj. rewrite !In_names_lookup, Hold; [reflexivity |].
    intros E. apply chunk_key_of_name in E. tauto. }
  destruct (missingChunk (names es') total) as [i |] eqn:E.
  - destruct (missingChunk_Some _ _ _ E) as [Hi [Hnot Hbefore]].
    assert (Hne : i <> total).
    { intros ->. apply Hnot. apply In_names_lookup. exact Hlast. }
    assert (Hle : (i <= missing)%nat).
    { destruct (Nat.le_gt_cases i missing) as [Hle | Hgt]; [exact Hle |].
      exfalso. apply Hmissing. apply Hsame; [lia |]. apply Hbefore. lia. }
    exists i. split; [reflexivity | split; [lia | split]].
    + intros Hin. apply Hnot. apply Hsame; assumption.
    + intros j Hj. apply Hsame; [lia |]. apply Hbefore. exact Hj.
  - exfalso. apply Hmissing. apply Hsame; [lia |].
    apply (proj1 (missingChunk_None _ _) E). lia.
Qed.

(** ** The quota guard *)

Lemma sumEntries_sum (d : dir) :
  forall (a : Z) (ps : list Z),
    sumEntries sizeBelow d a ps = a + fold_left Z.add ps 0 + directorySize d.
Proof.
  unfold directorySize.
  induction d as [|[k x] d IH]; intros a ps; simpl.
  - lia.
  - destruct x as [t c | t es].
    + rewrite (IH (a + _) ps), (IH (size _) []). simpl. lia.
    + rewrite (IH a (ps ++ _)), (IH 0 (_ :: _)). rewrite fold_left_app. simpl. lia.
Qed.

Lemma directorySize_cons (k : string) (x : node) (d : dir) :
  directorySize ((k, x) :: d) = sizeBelow x + directorySize d.
Proof.
  unfold directorySize at 1. simpl. destruct x as [t c | t es].
  - rewrite sumEntries_sum. simpl. lia.
  - rewrite sumEntries_sum. simpl. lia.
Qed.

Lemma directorySize_app (d1 d2 : dir) :
  directorySize (d1 ++ d2) = directorySize d1 + directorySize d2.
Proof.
  induction d1 as [|[k x] d1 IH]; simpl.
  - reflexivity.
  - rewrite !directorySize_cons, IH. lia.
Qed.

Lemma directorySize_insert (d : dir) (k : string) (n : node) :
  directorySize (insert k n d) = directorySize d + sizeBelow n.
Proof.
  induction d as [|[k' n'] d IH]; simpl.
  - rewrite directorySize_cons. change (directorySize []) with 0. lia.
  - destruct (String.ltb k k').
    + rewrite !directorySize_cons. lia.
    + rewrite !directorySize_cons, IH. lia.
Qed.

Lemma ensureDir_staging (id : string) (w : world) :
  stagingUsable id (root w) ->
  exists w1 m es,
    ensureDir (join [] ("chunks_" ++ id)) w = (Ok tt, w1) /\
    lookup ("chunks_" ++ id) (root w1) = Some (Directory m es) /\
    (forall t sub, lookup "error.txt" es <> Some (Directory t sub)) /\
    (lookup ("chunks_" ++ id) (root w) = Some (Directory m es) \/
     lookup ("chunks_" ++ id) (root w) = None /\ es = []) /\
    directorySize (root w1) = directorySize (root w) /\
    (forall other, other <> ("chunks_" ++ id)%string ->
       lookup other (root w1) = lookup other (root w)) /\
    timeOf w1 = timeOf w /\
    finishedCalls w1 = finishedCalls w.
Proof.
  unfold stagingUsable. intros Hu. rewrite ensureDir_top.
  destruct (lookup ("chunks_" ++ id) (root w)) as [[t c | t es] |] eqn:E.
  - contradiction.
  - exists w, t, es. repeat split; auto.
  - exists (setRoot (insert ("chunks_" ++ id)%string (Directory (timeOf w) []) (root w)) w),
      (timeOf w), []. rewrite root_setRoot.
    split; [reflexivity | split; [| split; [| split; [| split; [| split]]]]].
    + apply lookup_insert_same. exact E.
    + intros t sub. discriminate.
    + right. auto.
    + rewrite directorySize_insert.
      change (sizeBelow (Directory (timeOf w) [])) with 0. lia.
    + intros other Hne. apply lookup_insert_other. exact Hne.
    + split; reflexivity.
Qed.

(** The checks of [handleChunk] up to the store step, read on the world
    [w1] that [ensureDir] leaves. *)
Lemma handleChunk_guards (o : Settings) (data : UploadInfo) (uploadFile : File)
    (w w1 : world) :
  let uploadDir := join [] ("chunks_" ++ uploadId data) in
  let agg := directorySize (root w1) in
  ensureDir uploadDir w = (Ok tt, w1) ->
  handleChunk o data uploadFile w =
  if refused o uploadFile data
  then sendError uploadDir "File not allowed" w1
  else if uploadSize data >? s_maxUploadSize o
  then sendError uploadDir "File size exceeded" w1
  else if agg + Z.max (uploadSize data) (fileSize uploadFile) >? s_maxDirectorySize o
  then sendError uploadDir "Directory size exceeded" w1
  else if agg + uploadSize data >? s_maxUploadSize o
  then (remove uploadDir ;; sendError uploadDir "Upload size exceeded") w1
  else match lookup (uploadId data) (root w1) with
       | Some (RegFile _ _) => sendError uploadDir "Upload already exists" w1
       | _ =>
           (storeChunk uploadDir (part data) (total data) uploadFile ;;
            if negb (Nat.eqb (part data) (total data))
            then ret (Respond jsonOk)
            else finishUpload o uploadDir data) w1
       end.
Proof.
  intros uploadDir agg Hens. unfold handleChunk. fold uploadDir.
  rewrite (bind_run _ _ _ _ _ Hens).
  destruct (refused o uploadFile data); [reflexivity |].
  destruct (uploadSize data >? s_maxUploadSize o); [reflexivity |].
  unfold bind at 1. unfold totalDirectorySize at 1. fold agg.
  destruct (_ >? s_maxDirectorySize o); [reflexivity |].
  unfold bind at 1. unfold totalDirectorySize at 1. fold agg.
  destruct (agg + uploadSize data >? s_maxUploadSize o); [reflexivity |].
  rewrite (bind_run _ _ _ _ _ (checkIfFileExists_run _ w1)).
  unfold join. simpl.
  destruct (lookup (uploadId data) (root w1)) as [[t c | t es] |]; reflexivity.
Qed.

Lemma remove_then_sendError (s msg : string) (w : world) :
  (remove (join [] s) ;; sendError (join [] s) msg) w
  = (Throw ENOENT, setRoot (delete s (root w)) w).
Proof.
  rewrite (bind_run _ _ _ _ _ (remove_top s w)).
  unfold sendError, bind, writeFile, mutate, join. simpl.
  rewrite lookup_delete_same. reflexivity.
Qed.

Lemma gtb_true (a b : Z) : a > b -> (a >? b) = true.
Proof. intros H. destruct (Z.gtb_spec a b); [reflexivity | lia]. Qed.

Lemma gtb_false (a b : Z) : a <= b -> (a >? b) = false.
Proof. intros H. destruct (Z.gtb_spec a b); [lia | reflexivity]. Qed.

Lemma sendError_rejectedWith (msg id : string) (w w1 : world) :
  stagingUsable id (root w) ->
  ensureDir (join [] ("chunks_" ++ id)) w = (Ok tt, w1) ->
  rejectedWith msg id w (sendError (join [] ("chunks_" ++ id)) msg w1).
Proof.
  intros Hu Hens.
  destruct (ensureDir_staging id w Hu)
    as [w1' [m [es [Hens' [Hs [Hmarker [Horig [_ [Hother [Htime _]]]]]]]]]].
  rewrite Hens in Hens'. inversion Hens'; subst w1'. clear Hens'.
  destruct (sendError_in_staging _ msg w1 m es Hs Hmarker)
    as [m' [es' [Hrun [Hnew Hold]]]].
  rewrite Hrun. unfold rejectedWith. cbn [fst snd]. rewrite root_setRoot.
  split; [reflexivity |].
  exists m', es'. split; [| split; [| split]].
  - apply lookup_replace_same. congruence.
  - rewrite Hnew, Htime. reflexivity.
  - intros name n Hname Hres. rewrite Hold by exact Hname.
    rewrite resolve_two in Hres.
    destruct Horig as [Horig | [Horig _]]; rewrite Horig in Hres.
    + exact Hres.
    + discriminate.
  - intros other Hne. rewrite lookup_replace_other by congruence.
    apply Hother. exact Hne.
Qed.

Lemma handleChunk_quota (o : Settings) (data : UploadInfo) (uploadFile : File)
    (w : world) :
  let id := uploadId data in
  let agg := directorySize (root w) in
  let run := handleChunk o data uploadFile w in
  stagingUsable id (root w) ->
  (refused o uploadFile data = true ->
     rejectedWith "File not allowed" id w run) /\
  (refused o uploadFile data = false ->
   uploadSize data > s_maxUploadSize o ->
     rejectedWith "File size exceeded" id w run) /\
  (refused o uploadFile data = false ->
   uploadSize data <= s_maxUploadSize o ->
   agg + Z.max (uploadSize data) (fileSize uploadFile) > s_maxDirectorySize o ->
     rejectedWith "Directory size exceeded" id w run) /\
  (refused o uploadFile data = false ->
   uploadSize data <= s_maxUploadSize o ->
   agg + Z.max (uploadSize data) (fileSize uploadFile) <= s_maxDirectorySize o ->
   agg + uploadSize data > s_maxUploadSize o ->
     fst run = Throw ENOENT /\
     lookup ("chunks_" ++ id) (root (snd run)) = None) /\
  (refused o uploadFile data = false ->
   uploadSize data <= s_maxUploadSize o ->
   agg + Z.max (uploadSize data) (fileSize uploadFile) <= s_maxDirectorySize o ->
   agg + uploadSize data <= s_maxUploadSize o ->
   forall t c, lookup id (root w) = Some (RegFile t c) ->
     rejectedWith "Upload already exists" id w run).
Proof.
  intros id agg run Hu.
  destruct (ensureDir_staging id w Hu)
    as [w1 [m [es [Hens [Hs [Hmarker [_ [Hsize [Hother _]]]]]]]]].
  pose proof (handleChunk_guards o data uploadFile w w1 Hens) as Hrun.
  simpl in Hrun. rewrite Hsize in Hrun. fold agg in Hrun. fold id in Hrun.
  unfold run. rewrite Hrun. clear Hrun.
  split; [| split; [| split; [| split]]].
  - intros ->. apply sendError_rejectedWith; assumption.
  - intros -> H1. rewrite (gtb_true _ _ H1).
    apply sendError_rejectedWith; assumption.
  - intros -> H1 H2. rewrite (gtb_false _ _ H1), (gtb_true _ _ H2).
    apply sendError_rejectedWith; assumption.
  - intros -> H1 H2 H3.
    rewrite (gtb_false _ _ H1), (gtb_false _ _ H2), (gtb_true _ _ H3).
    unfold id. rewrite remove_then_sendError. simpl. split; [reflexivity |].
    apply lookup_delete_same.
  - intros -> H1 H2 H3 t c Hart.
    rewrite (gtb_false _ _ H1), (gtb_false _ _ H2), (gtb_false _ _ H3).
    rewrite (Hother id), Hart.
    + apply sendError_rejectedWith; assumption.
    + intros E. symmetry in E. revert E. apply staging_name_differs.
Qed.

Lemma loadUploadFiles_valid (astro : Request) (options : LoadUploadFilesOptions)
    (w : world) (data : UploadInfo) (uploadFile : File) :
  gated astro = true ->
  unique (root w) ->
  info astro = Some data ->
  file astro = Some uploadFile ->
  loadUploadFiles astro options w =
  handleChunk (settings options) data uploadFile
    (reaped (s_maxUploadTime (settings options)) w).
Proof.
  intros Hg Hu Hinfo Hfile. rewrite (loadUploadFiles_gated _ _ _ Hg Hu).
  unfold afterReaping. rewrite Hinfo, Hfile. reflexivity.
Qed.

(** ** The shape of the staging root is kept *)

Lemma names_insert (d : dir) (k : string) (n : node) :
  Permutation (k :: names d) (names (insert k n d)).
Proof.
  induction d as [|[k' n'] d IH]; simpl.
  - reflexivity.
  - destruct (String.ltb k k'); simpl.
    + reflexivity.
    + rewrite <- IH. apply perm_swap.
Qed.

Lemma unique_insert (d : dir) (k : string) (n : node) :
  lookup k d = None -> unique d -> unique (insert k n d).
Proof.
  unfold unique. intros Hk Hu.
  apply (Permutation_NoDup (names_insert d k n)).
  constructor; [| exact Hu]. apply lookup_None. exact Hk.
Qed.

Lemma unique_replace (d : dir) (k : string) (n : node) :
  unique d -> unique (replace k n d).
Proof. unfold unique. rewrite names_replace. auto. Qed.

Section Shape.

Variable Q : node -> Prop.

Lemma every_insert (d : dir) (k : string) (n : node) :
  Q n -> every Q d -> every Q (insert k n d).
Proof.
  intros Hn Hd k' n' Hin. apply In_insert in Hin.
  destruct Hin as [E | Hin].
  - inversion E; subst. exact Hn.
  - apply (Hd k' n' Hin).
Qed.

Lemma every_replace (d : dir) (k : string) (n : node) :
  Q n -> every Q d -> every Q (replace k n d).
Proof.
  intros Hn. induction d as [|[k0 n0] d IH]; simpl; intros Hd k' n' Hin.
  - contradiction.
  - destruct (String.eqb k0 k).
    + destruct Hin as [E | Hin].
      * inversion E; subst. exact Hn.
      * apply (Hd k' n'). right. exact Hin.
    + destruct Hin as [E | Hin].
      * apply (Hd k' n'). left. exact E.
      * apply (IH (fun a b H => Hd a b (or_intror H)) k' n' Hin).
Qed.

Lemma every_delete (d : dir) (k : string) :
  every Q d -> every Q (delete k d).
Proof.
  intros Hd k' n' Hin. unfold delete in Hin. apply filter_In in Hin.
  apply (Hd k' n'). tauto.
Qed.

Lemma gentle_delete (k : string) : gentle Q (fun d => Ok (delete k d, true)).
Proof.
  intros d d' b E Hu Hq. inversion E; subst. split.
  - apply unique_delete. exact Hu.
  - apply every_delete. exact Hq.
Qed.

(** The operation of [writeFile], [createWriteStream] and [streamWrite]:
    the entry [k] becomes a node of [Q], or is left as it is; on a
    directory the operation fails or does nothing. *)
Lemma gentle_put (k : string) (f : option node -> option node) (failing : bool) :
  (forall o n, f o = Some n -> Q n) ->
  gentle Q (fun d =>
    match lookup k d with
    | Some (Directory _ _) => if failing then Throw EISDIR else Ok (d, false)
    | Some (RegFile t c) =>
        match f (Some (RegFile t c)) with
        | Some n => Ok (replace k n d, false)
        | None => Ok (d, false)
        end
    | None =>
        match f None with
        | Some n => Ok (insert k n d, true)
        | None => Ok (d, false)
        end
    end).
Proof.
  intros Hf d d' b E Hu Hq.
  destruct (lookup k d) as [[t c | t es] |] eqn:Hk.
  - destruct (f (Some (RegFile t c))) as [n|] eqn:En; inversion E; subst.
    + split; [apply unique_replace; exact Hu |].
      apply every_replace; [apply (Hf _ _ En) | exact Hq].
    + auto.
  - destruct failing; inversion E; subst. auto.
  - destruct (f None) as [n|] eqn:En; inversion E; subst.
    + split; [apply unique_insert; assumption |].
      apply every_insert; [apply (Hf _ _ En) | exact Hq].
    + auto.
Qed.

End Shape.

Lemma shaped_lookup (d : dir) (k : string) (m : Z) (es : dir) :
  shaped d -> lookup k d = Some (Directory m es) -> unique es /\ flat es.
Proof.
  intros [_ Hq] Hk. apply lookup_In in Hk. apply (Hq _ _ Hk).
Qed.

Lemma shaped_replace (d : dir) (k : string) (m : Z) (es : dir) :
  shaped d -> unique es -> flat es ->
  shaped (replace k (Directory m es) d).
Proof.
  intros [Hu Hq] Hu' Hq'. split.
  - apply unique_replace. exact Hu.
  - apply every_replace; [split; assumption | exact Hq].
Qed.

(** A change below a staging directory, or directly under the staging
    root, keeps the shape when its operation is gentle. *)
Lemma mutate_keeps (parent : path) (op : Z -> dir -> result (dir * bool)) :
  (forall t, gentle staged (op t)) ->
  (forall t, gentle regular (op t)) ->
  keeps (mutate parent op).
Proof.
  intros Htop Hsub w Hw. unfold mutate.
  destruct parent as [|x rest]; simpl.
  - destruct (op (timeOf w) (root w)) as [[d' b] | e] eqn:E; simpl; [| exact Hw].
    destruct Hw as [Hu Hq]. apply (Htop _ _ _ _ E Hu Hq).
  - destruct (lookup x (root w)) as [[t c | m es] |] eqn:Hx; simpl; try exact Hw.
    destruct (shaped_lookup _ _ _ _ Hw Hx) as [Hu Hq].
    destruct rest as [|y rest]; simpl.
    + destruct (op (timeOf w) es) as [[es' b] | e] eqn:E; simpl; [| exact Hw].
      destruct (Hsub _ _ _ _ E Hu Hq) as [Hu' Hq'].
      apply shaped_replace; assumption.
    + destruct (lookup y es) as [[t c | m' es'] |] eqn:Hy; simpl; try exact Hw.
      apply lookup_In in Hy. destruct (Hq _ _ Hy) as [t [c E]]. discriminate.
Qed.

Lemma keeps_ret {A} (a : A) : keeps (ret a).
Proof. intros w Hw. exact Hw. Qed.

Lemma keeps_throw {A} (e : errno) : keeps (@throw A e).
Proof. intros w Hw. exact Hw. Qed.

Lemma keeps_bind {A B} (m : M A) (k : A -> M B) :
  keeps m -> (forall a, keeps (k a)) -> keeps (bind m k).
Proof.
  intros Hm Hk w Hw. unfold bind. specialize (Hm w Hw).
  destruct (m w) as [[a | e] w1]; simpl in *.
  - apply Hk. exact Hm.
  - exact Hm.
Qed.

Lemma keeps_forEach {A} (xs : list A) (body : A -> M unit) :
  (forall x, keeps (body x)) -> keeps (forEach xs body).
Proof.
  intros Hb. induction xs as [|x xs IH]; simpl.
  - apply keeps_ret.
  - apply keeps_bind; [apply Hb | intros _; exact IH].
Qed.

(** A computation that only reads keeps the shape. *)
Lemma keeps_reading {A} (m : M A) :
  (forall w, root (snd (m w)) = root w) -> keeps m.
Proof. intros H w Hw. rewrite H. exact Hw. Qed.

Lemma keeps_stat (p : path) : keeps (stat p).
Proof.
  apply keeps_reading. intros w. unfold stat.
  destruct (resolve p (root w)); reflexivity.
Qed.

Lemma keeps_readdir (p : path) : keeps (readdir p).
Proof.
  apply keeps_reading. intros w. unfold readdir.
  destruct p; [reflexivity |].
  destruct (resolve _ (root w)) as [[? ? | ? ?] |]; reflexivity.
Qed.

Lemma keeps_readStream (p : path) : keeps (readStream p).
Proof.
  apply keeps_reading. intros w. unfold readStream.
  destruct (resolve p (root w)) as [[? ? | ? ?] |]; reflexivity.
Qed.

Lemma keeps_totalDirectorySize (p : path) : keeps (totalDirectorySize p).
Proof.
  apply keeps_reading. intros w. unfold totalDirectorySize.
  destruct p; [reflexivity |].
  destruct (resolve _ (root w)) as [[? ? | ? ?] |]; reflexivity.
Qed.

Lemma keeps_checkIfFileExists (p : path) : keeps (checkIfFileExists p).
Proof.
  apply keeps_reading. intros w. rewrite checkIfFileExists_run. reflexivity.
Qed.

Lemma keeps_callOnFinished (hook : option (string -> nat -> HookEnd))
    (id : string) (k : nat) :
  keeps (callOnFinished hook id k).
Proof.
  apply keeps_reading. intros w. unfold callOnFinished.
  destruct hook as [h |]; [destruct (h id k) |]; reflexivity.
Qed.

Lemma keeps_tryCatch {A} (m h : M A) : keeps m -> keeps h -> keeps (tryCatch m h).
Proof.
  intros Hm Hh w Hw. unfold tryCatch. specialize (Hm w Hw).
  destruct (m w) as [[a | e] w1]; simpl in *.
  - exact Hm.
  - apply Hh. exact Hm.
Qed.

Lemma keeps_remove (p : path) : keeps (remove p).
Proof.
  intros w Hw. unfold remove.
  destruct (resolve p (root w)); [| exact Hw].
  apply mutate_keeps; [intros _; apply gentle_delete .. | exact Hw].
Qed.

Lemma keeps_writeFile (p : path) (content : list byte) : keeps (writeFile p content).
Proof.
  unfold writeFile. destruct p as [|x rest]; [apply keeps_throw |].
  apply mutate_keeps; intros t;
    apply (gentle_put _ _ (fun _ => Some (RegFile t content)) true);
    intros o n E; inversion E; subst; simpl; unfold regular; eauto.
Qed.

Lemma keeps_streamWrite (p : path) (chunk : list byte) : keeps (streamWrite p chunk).
Proof.
  unfold streamWrite. destruct p as [|x rest]; [apply keeps_ret |].
  apply keeps_tryCatch; [| apply keeps_ret].
  apply mutate_keeps; intros t;
    apply (gentle_put _ _ (fun o =>
             match o with
             | Some (RegFile _ c) => Some (RegFile t (c ++ chunk))
             | _ => Some (RegFile t chunk)
             end) false);
    intros [[? ? | ? ?] |] n E; inversion E; subst; simpl; unfold regular; eauto.
Qed.

Lemma keeps_createWriteStream (p : path) : keeps (createWriteStream p).
Proof.
  unfold createWriteStream. destruct p as [|x rest]; [apply keeps_ret |].
  apply keeps_tryCatch; [| apply keeps_ret].
  assert (Hop : forall (Q : node -> Prop) t,
            Q (RegFile t []) ->
            gentle Q (fun d =>
              match lookup (last (x :: rest) "") d with
              | Some _ => Ok (d, false)
              | None => Ok (insert (last (x :: rest) "") (RegFile t []) d, true)
              end)).
  { intros Q t HQ d d' b E Hu Hq.
    destruct (lookup _ d) eqn:Hk; inversion E; subst; [auto |].
    split; [apply unique_insert; assumption | apply every_insert; assumption]. }
  apply mutate_keeps; intros t; apply Hop; simpl; unfold regular; eauto.
Qed.

(** [ensureDir] of a direct child of the staging root. *)
Lemma keeps_ensureDir_top (name : string) : keeps (ensureDir (join [] name)).
Proof.
  intros w Hw. rewrite ensureDir_top.
  destruct (lookup name (root w)) as [[t c | t es] |] eqn:E; try exact Hw.
  destruct Hw as [Hu Hq]. simpl. split.
  - apply unique_insert; assumption.
  - apply every_insert; [| exact Hq]. simpl. split.
    + constructor.
    + intros k n [].
Qed.

Create HintDb keeps.

#[local] Hint Resolve keeps_ret keeps_throw keeps_stat keeps_readdir
  keeps_readStream keeps_totalDirectorySize keeps_checkIfFileExists
  keeps_callOnFinished keeps_remove keeps_writeFile keeps_streamWrite
  keeps_createWriteStream keeps_ensureDir_top : keeps.

Ltac keeps_step :=
  match goal with
  | |- keeps (bind _ _) => apply keeps_bind; [| intros ?]
  | |- keeps (forEach _ _) => apply keeps_forEach; intros ?
  | |- keeps (if ?b then _ else _) => destruct b
  | |- keeps (match ?x with _ => _ end) => destruct x
  | |- keeps _ => solve [auto with keeps]
  end.

Lemma keeps_sendError (uploadDir : path) (msg : string) :
  keeps (sendError uploadDir msg).
Proof. unfold sendError. repeat keeps_step. Qed.

Lemma keeps_deleteOldUploads (maxUploadTime : Z) :
  keeps (deleteOldUploads [] maxUploadTime).
Proof.
  unfold deleteOldUploads, reapEntry. repeat keeps_step.
  apply keeps_reading. reflexivity.
Qed.

Lemma keeps_finishUpload (o : Settings) (id : string) (data : UploadInfo) :
  keeps (finishUpload o (join [] id) data).
Proof.
  unfold finishUpload, assemble, copyChunk.
  repeat (keeps_step || apply keeps_sendError).
Qed.

Lemma keeps_handleChunk (o : Settings) (data : UploadInfo) (uploadFile : File) :
  keeps (handleChunk o data uploadFile).
Proof.
  unfold handleChunk, storeChunk.
  repeat (keeps_step || apply keeps_sendError || apply keeps_finishUpload).
Qed.

(** Every submission leaves a staging root of the shape it found: the
    names under the root are distinct, and every directory under it holds
    regular files under distinct names. *)
Lemma loadUploadFiles_keeps_shape (astro : Request)
    (options : LoadUploadFilesOptions) :
  keeps (loadUploadFiles astro options).
Proof.
  unfold loadUploadFiles, afterReaping.
  repeat (keeps_step || apply keeps_deleteOldUploads || apply keeps_handleChunk).
  apply keeps_reading. reflexivity.
Qed.

(** In every world that submissions lead to from an empty staging root,
    the names under the root are distinct and every staging directory
    holds regular files under distinct names. *)
Lemma reachable_shaped (w : world) : reachable w -> shaped (root w).
Proof.
  induction 1 as [ck | w astro options _ IH].
  - split; [constructor | intros k n []].
  - apply loadUploadFiles_keeps_shape. exact IH.
Qed.

Lemma shaped_stagingUsable (id : string) (d : dir) :
  shaped d ->
  (forall t c, lookup ("chunks_" ++ id) d <> Some (RegFile t c)) ->
  stagingUsable id d.
Proof.
  intros Hd Hfree. unfold stagingUsable.
  destruct (lookup ("chunks_" ++ id) d) as [[t c | m es] |] eqn:E.
  - apply (Hfree t c). reflexivity.
  - destruct (shaped_lookup _ _ _ _ Hd E) as [_ Hflat].
    intros t sub Hmarker. apply lookup_In in Hmarker.
    destruct (Hflat _ _ Hmarker) as [t' [c' E']]. discriminate.
  - exact I.
Qed.

(** ** The listings stay in the order of [fs.readdir] *)

(** [fs.readdir] returns the names sorted, and the embedding lists a
    directory in the order of its entries. The two agree in every world
    that submissions lead to: the file-system calls below keep the entries
    of the staging root, and of every directory directly under it, sorted
    by name. *)

Lemma ascii_compare_refl (a : ascii) : Ascii.compare a a = Eq.
Proof. unfold Ascii.compare. apply N.compare_refl. Qed.

Lemma string_ltb_trans (a b c : string) :
  String.ltb a b = true -> String.ltb b c = true -> String.ltb a c = true.
Proof.
  unfold String.ltb. revert b c.
  induction a as [|x a IH]; intros [|y b] [|z c]; simpl; intros H1 H2;
    try discriminate H1; try discriminate H2; try reflexivity.
  destruct (Ascii.compare x y) eqn:Exy; try discriminate H1;
    destruct (Ascii.compare y z) eqn:Eyz; try discriminate H2.
  - apply Ascii.compare_eq_iff in Exy, Eyz. subst.
    rewrite ascii_compare_refl. apply (IH _ _ H1 H2).
  - apply Ascii.compare_eq_iff in Exy. subst. rewrite Eyz. reflexivity.
  - apply Ascii.compare_eq_iff in Eyz. subst. rewrite Exy. reflexivity.
  - unfold Ascii.compare in *. apply N.compare_lt_iff in Exy, Eyz.
    rewrite (proj2 (N.compare_lt_iff _ _) (N.lt_trans _ _ _ Exy Eyz)).
    reflexivity.
Qed.

Lemma string_ltb_total (a b : string) :
  a <> b -> String.ltb a b = false -> String.ltb b a = true.
Proof.
  unfold String.ltb. intros Hne H. rewrite String.compare_antisym.
  destruct (String.compare a b) eqn:E; try discriminate; [| reflexivity].
  apply String.compare_eq_iff in E. contradiction.
Qed.

Lemma ascending_cons (k : string) (n : node) (d : dir) :
  ascending ((k, n) :: d) = below k d && ascending d.
Proof. destruct d as [|[k' n'] d]; reflexivity. Qed.

Lemma below_insert (k x : string) (n : node) (d : dir) :
  below k d = true -> String.ltb k x = true -> below k (insert x n d) = true.
Proof.
  destruct d as [|[k' n'] d]; simpl; intros Hd Hx.
  - exact Hx.
  - destruct (String.ltb x k'); simpl; assumption.
Qed.

Lemma ascending_insert (d : dir) (k : string) (n : node) :
  lookup k d = None -> ascending d = true -> ascending (insert k n d) = true.
Proof.
  induction d as [|[k' n'] d IH]; intros Hk Hd.
  - reflexivity.
  - simpl in Hk. destruct (String.eqb_spec k' k) as [E | Hne]; [discriminate |].
    rewrite ascending_cons in Hd. apply andb_true_iff in Hd. destruct Hd as [Hb Hd].
    simpl insert. destruct (String.ltb k k') eqn:Hlt.
    + rewrite ascending_cons. simpl below. rewrite Hlt.
      rewrite ascending_cons, Hb, Hd. reflexivity.
    + rewrite ascending_cons, (IH Hk Hd), andb_true_r.
      apply below_insert; [exact Hb |].
      apply string_ltb_total; [congruence | exact Hlt].
Qed.

Lemma ascending_replace (d : dir) (k : string) (n : node) :
  ascending (replace k n d) = ascending d.
Proof.
  induction d as [|[k' n'] d IH]; [reflexivity |].
  simpl replace. destruct (String.eqb k' k).
  - rewrite !ascending_cons. reflexivity.
  - rewrite !ascending_cons, IH. f_equal.
    destruct d as [|[k2 n2] d]; [reflexivity |].
    simpl. destruct (String.eqb k2 k); reflexivity.
Qed.

Lemma below_delete (k x : string) (d : dir) :
  ascending d = true -> below k d = true -> below k (delete x d) = true.
Proof.
  induction d as [|[k' n'] d IH]; intros Hd Hb.
  - reflexivity.
  - rewrite ascending_cons in Hd. apply andb_true_iff in Hd. destruct Hd as [Hb' Hd].
    simpl in Hb. simpl delete. destruct (String.eqb k' x); simpl.
    + apply IH; [exact Hd |].
      destruct d as [|[k2 n2] d]; [reflexivity |]. simpl in *.
      apply (string_ltb_trans _ _ _ Hb Hb').
    + exact Hb.
Qed.

Lemma ascending_delete (d : dir) (k : string) :
  ascending d = true -> ascending (delete k d) = true.
Proof.
  induction d as [|[k' n'] d IH]; intros Hd.
  - reflexivity.
  - rewrite ascending_cons in Hd. apply andb_true_iff in Hd. destruct Hd as [Hb Hd].
    simpl delete. destruct (String.eqb k' k); simpl negb; cbv iota.
    + apply IH. exact Hd.
    + rewrite ascending_cons, (IH Hd), andb_true_r.
      apply below_delete; assumption.
Qed.

Lemma In_replace (d : dir) (x : string) (n : node) (e : string * node) :
  In e (replace x n d) -> e = (x, n) \/ In e d.
Proof.
  induction d as [|[k' n'] d IH]; simpl; [tauto |].
  destruct (String.eqb_spec k' x) as [-> | Hne]; simpl.
  - intros [E | Hin]; [left; symmetry; exact E | right; right; exact Hin].
  - intros [E | Hin]; [right; left; exact E |].
    destruct (IH Hin) as [H | H]; [left; exact H | right; right; exact H].
Qed.

Lemma update_ascending (t : Z) (op : dir -> result (dir * bool)) :
  orderly op ->
  forall parent d d' b,
    update t parent op d = Ok (d', b) ->
    ascending d = true -> ascending d' = true.
Proof.
  intros Hop [|x rest] d d' b; simpl; intros H Hd.
  - apply (proj1 (Hop _ _ _ H) Hd).
  - destruct (lookup x d) as [[? ? | m sub] |]; try discriminate.
    destruct (update t rest op sub) as [[sub' touched] | e]; [| discriminate].
    inversion H; subst. rewrite ascending_replace. exact Hd.
Qed.

Lemma mutate_tidy (parent : path) (op : Z -> dir -> result (dir * bool)) :
  (forall t, orderly (op t)) -> tidy (mutate parent op).
Proof.
  intros Hop w [Ha Hsub]. unfold mutate.
  destruct parent as [|x rest]; simpl.
  - destruct (op (timeOf w) (root w)) as [[d' b] | e] eqn:E; simpl;
      [| split; assumption].
    destruct (Hop _ _ _ _ E) as [H1 H2]. split; [exact (H1 Ha) |].
    intros k m es Hin. destruct (H2 _ _ _ Hin) as [Hold | ->];
      [exact (Hsub _ _ _ Hold) | reflexivity].
  - destruct (lookup x (root w)) as [[t c | m sub] |] eqn:Hx; simpl;
      try (split; assumption).
    destruct (update (timeOf w) rest (op (timeOf w)) sub)
      as [[sub' touched] | e] eqn:E; simpl; [| split; assumption].
    split; [rewrite ascending_replace; exact Ha |].
    intros k m' es Hin. apply In_replace in Hin. destruct Hin as [Heq | Hin].
    + inversion Heq; subst.
      apply (update_ascending _ _ (Hop (timeOf w)) _ _ _ _ E).
      apply lookup_In in Hx. apply (Hsub _ _ _ Hx).
    + apply (Hsub _ _ _ Hin).
Qed.

Lemma tidy_reading {A} (m : M A) :
  (forall w, root (snd (m w)) = root w) -> tidy m.
Proof. intros H w Hw. rewrite H. exact Hw. Qed.

Lemma tidy_bind {A B} (m : M A) (k : A -> M B) :
  tidy m -> (forall a, tidy (k a)) -> tidy (bind m k).
Proof.
  intros Hm Hk w Hw. unfold bind. specialize (Hm w Hw).
  destruct (m w) as [[a | e] w1]; simpl in *.
  - apply Hk. exact Hm.
  - exact Hm.
Qed.

Lemma tidy_tryCatch {A} (m h : M A) : tidy m -> tidy h -> tidy (tryCatch m h).
Proof.
  intros Hm Hh w Hw. unfold tryCatch. specialize (Hm w Hw).
  destruct (m w) as [[a | e] w1]; simpl in *.
  - exact Hm.
  - apply Hh. exact Hm.
Qed.

Lemma tidy_forEach {A} (xs : list A) (body : A -> M unit) :
  (forall x, tidy (body x)) -> tidy (forEach xs body).
Proof.
  intros Hb. induction xs as [|x xs IH]; simpl.
  - apply tidy_reading. reflexivity.
  - apply tidy_bind; [apply Hb | intros _; exact IH].
Qed.

Ltac orderly_op :=
  intros ?t ?d ?d' ?b ?E;
  repeat match type of E with
         | context [match ?x with _ => _ end] => destruct x eqn:?
         end;
  inversion E; subst; clear E;
  (split;
   [ intros ?Hd;
     first [ assumption
           | rewrite ascending_replace; assumption
           | apply ascending_insert; assumption
           | apply ascending_delete; assumption ]
   | intros ?k ?m ?es ?Hin;
     first [ left; assumption
           | apply In_replace in Hin; destruct Hin as [Heq | Hin];
             [discriminate Heq | left; assumption]
           | apply In_insert in Hin; destruct Hin as [Heq | Hin];
             [first [discriminate Heq | inversion Heq; right; reflexivity]
             | left; assumption]
           | left; unfold delete in Hin; apply filter_In in Hin; tauto ] ]).

Lemma tidy_writeFile (p : path) (content : list byte) : tidy (writeFile p content).
Proof.
  unfold writeFile. destruct p; [apply tidy_reading; reflexivity |].
  apply mutate_tidy. orderly_op.
Qed.

Lemma tidy_ensureDir (p : path) : tidy (ensureDir p).
Proof.
  unfold ensureDir. destruct p; [apply tidy_reading; reflexivity |].
  apply mutate_tidy. orderly_op.
Qed.

Lemma tidy_createWriteStream (p : path) : tidy (createWriteStream p).
Proof.
  unfold createWriteStream. destruct p; [apply tidy_reading; reflexivity |].
  apply tidy_tryCatch; [| apply tidy_reading; reflexivity].
  apply mutate_tidy. orderly_op.
Qed.

Lemma tidy_streamWrite (p : path) (chunk : list byte) : tidy (streamWrite p chunk).
Proof.
  unfold streamWrite. destruct p; [apply tidy_reading; reflexivity |].
  apply tidy_tryCatch; [| apply tidy_reading; reflexivity].
  apply mutate_tidy. orderly_op.
Qed.

Lemma tidy_remove (p : path) : tidy (remove p).
Proof.
  intros w Hw. unfold remove.
  destruct (resolve p (root w)); [| exact Hw].
  apply mutate_tidy; [| exact Hw]. orderly_op.
Qed.

(** Every submission keeps the listings in the order of [fs.readdir]. *)
Lemma loadUploadFiles_tidy (astro : Request) (options : LoadUploadFilesOptions) :
  tidy (loadUploadFiles astro options).
Proof.
  assert (Hread : forall A (m : M A), (forall w, snd (m w) = w) -> tidy m).
  { intros A m H. apply tidy_reading. intros w. rewrite H. reflexivity. }
  unfold loadUploadFiles, afterReaping, handleChunk, finishUpload, assemble,
    copyChunk, storeChunk, sendError, deleteOldUploads, reapEntry.
  repeat first
    [ apply tidy_writeFile | apply tidy_ensureDir | apply tidy_createWriteStream
    | apply tidy_streamWrite | apply tidy_remove
    | apply tidy_bind; [| intros ?]
    | apply tidy_forEach; intros ?
    | match goal with
      | |- tidy (if ?b then _ else _) => destruct b
      | |- tidy (match ?x with _ => _ end) => destruct x
      end
    | apply tidy_reading; intros ?w; reflexivity
    | apply tidy_reading; intros ?w; rewrite checkIfFileExists_run; reflexivity
    | apply tidy_reading; intros ?w;
      match goal with
      | |- context [stat ?p ?w] => unfold stat; destruct (resolve p (root w))
      | |- context [readdir ?p ?w] =>
          unfold readdir; destruct p; [| destruct (resolve _ (root w)) as [[? ? | ? ?] |]]
      | |- context [readStream ?p ?w] =>
          unfold readStream; destruct (resolve p (root w)) as [[? ? | ? ?] |]
      | |- context [callOnFinished ?h ?i ?k ?w] =>
          unfold callOnFinished; destruct h as [h' |]; [destruct (h' i k) |]
      end; reflexivity ].
Qed.

Lemma reachable_listed (w : world) : reachable w -> listed (root w).
Proof.
  induction 1 as [ck | w astro options _ IH].
  - split; [reflexivity | intros k m es []].
  - apply loadUploadFiles_tidy. exact IH.
Qed.

(** * The claims of the specification *)

(** The sample worlds are well formed. *)

Lemma sample_unique_two : unique (root Sample.two_uploads).
Proof.
  unfold unique. simpl. repeat constructor; simpl; intuition discriminate.
Defined.

Lemma sample_unique_directory : unique (root Sample.directory_at_artifact).
Proof.
  unfold unique. simpl. repeat constructor; simpl; intuition discriminate.
Defined.

Lemma sample_unique_half : unique (root Sample.half_uploaded).
Proof.
  unfold unique. simpl. repeat constructor; simpl; intuition discriminate.
Defined.

Lemma sample_unique_finished : unique (root Sample.finished_upload).
Proof.
  unfold unique. simpl. repeat constructor; simpl; intuition discriminate.
Defined.

(** C1. The artifact follows the order of the listing, not the order of
    the parts. [fs.readdir] lists the names sorted as strings, and the
    name [10-total] of part 10 is less than the name [2-total] of part 2
    whatever the total: from ten parts on, the parts are not assembled in
    the order of their indices. When the staging directory lists the ten
    chunks of an upload of ten parts, the artifact is part 1, part 10,
    part 2, ..., part 9. So it is on the upload of the ten letters [a] to
    [j], one per part, submitted to an empty staging root in the order
    1, ..., 10, or with the first nine parts in the opposite order: every
    part is acknowledged, the last one is answered [finished], and the
    artifact is [ajbcdefghi], not [abcdefghij]. *)
Theorem artifact_follows_listing_order :
  (forall total : nat,
     String.ltb (chunkName 10 total) (chunkName 2 total) = true) /\
  (forall (o : Settings) (data : UploadInfo) (w : world) (m : Z) (es : dir),
     let uploadDir := join [] ("chunks_" ++ uploadId data) in
     let uploadFilePath := join [] (uploadId data) in
     let listing := [1; 10; 2; 3; 4; 5; 6; 7; 8; 9]%nat in
     total data = 10%nat ->
     resolve uploadDir (root w) = Some (Directory m es) ->
     flat es ->
     names es = map (fun i => chunkName i 10) listing ->
     ascending es = true /\
     (resolve uploadFilePath (root w) = None ->
      exists (w' : world) (t : Z),
        finishUpload o uploadDir data w
          = (afterHook (s_onFinished o) (uploadId data) 10, w') /\
        resolve uploadFilePath (root w')
          = Some (RegFile t
                    (List.concat
                       (map (fun i => contentOf es (chunkName i 10)) listing))))) /\
  (forall order : list nat,
     In order [[1; 2; 3; 4; 5; 6; 7; 8; 9]; [9; 8; 7; 6; 5; 4; 3; 2; 1]]%nat ->
     let staged := Sample.submitted order Sample.fresh in
     let run := loadUploadFiles (Sample.part_of_ten 10) Sample.defaults staged in
     names (stagedFiles Sample.U (root staged))
       = ["1-10"; "2-10"; "3-10"; "4-10"; "5-10"; "6-10"; "7-10"; "8-10"; "9-10"] /\
     fst run = Ok (Respond jsonFinished) /\
     resolve (join [] Sample.U) (root (snd run))
       = Some (RegFile 10 (Sample.bytes "ajbcdefghi"))) /\
  map (fun i => fst (loadUploadFiles (Sample.part_of_ten i) Sample.defaults
                       (Sample.submitted (seq 1 (i - 1)) Sample.fresh)))
      (seq 1 9)
    = repeat (Ok (Respond jsonOk)) 9 /\
  Sample.bytes "ajbcdefghi" <> Sample.bytes "abcdefghij".
Proof.
  split; [| split; [| split; [| split]]].
  - intros total. unfold chunkName.
    change (string_of_nat 10) with "10". change (string_of_nat 2) with "2".
    reflexivity.
  - intros o data w m es uploadDir uploadFilePath listing Htotal Hdir Hflat Hnames.
    unfold uploadDir, uploadFilePath in *. rewrite resolve_one in Hdir.
    split.
    { clear Hdir Hflat. unfold listing in Hnames.
      repeat (destruct es as [|[? ?] es]; [discriminate Hnames |]).
      destruct es; [| discriminate Hnames].
      simpl in Hnames. inversion Hnames; subst. vm_compute. reflexivity. }
    intros Hart. rewrite resolve_one in Hart.
    assert (Hu : unique es).
    { unfold unique. rewrite Hnames. vm_compute.
      repeat constructor; simpl; intuition discriminate. }
    assert (Hnone : missingChunk (names es) (total data) = None).
    { rewrite Hnames, Htotal. vm_compute. reflexivity. }
    destruct (finishUpload_run o data w m es Hdir Hu Hflat Hart Hnone)
      as [w' [t [Hrun [Hart' _]]]].
    exists w', t. rewrite Hrun, resolve_one, Hart'.
    assert (Hlen : List.length es = 10%nat).
    { rewrite <- (length_map fst es). fold (names es). rewrite Hnames. reflexivity. }
    rewrite Hlen. split; [reflexivity |].
    rewrite <- (contents_by_name es Hu), Hnames, map_map. reflexivity.
  - intros order [<- | [<- | []]]; vm_compute; repeat split.
  - vm_compute. reflexivity.
  - vm_compute. discriminate.
Qed.

(** C2. The fourth quota check does not answer [Upload size exceeded]:
    its branch, lines 93-94, removes the staging directory and then
    throws [ENOENT] from the write of the marker, in every world. With a
    per-upload maximum of 100 bytes and part 1 of 50 bytes staged, the
    submission of part 2 with a declared size of 100 bytes ends that way,
    with the staging directory gone. *)
Theorem upload_size_exceeded_throws :
  (forall (id : string) (w : world),
     let uploadDir := join [] ("chunks_" ++ id) in
     (remove uploadDir ;; sendError uploadDir "Upload size exceeded") w
     = (Throw ENOENT, setRoot (delete ("chunks_" ++ id) (root w)) w)) /\
  loadUploadFiles Sample.second_half Sample.limit100 Sample.half_uploaded
  = (Throw ENOENT, World [] 1 (Sample.at_time 10) []).
Proof.
  split.
  - intros id w. apply remove_then_sendError.
  - vm_compute. reflexivity.
Qed.

(** C3, as stated, fails: with the artifact of upload [U] in place, a
    submission for [U] that declares more than the per-upload maximum is
    answered [File size exceeded], not [Upload already exists]. *)
Lemma duplicate_check_first_refuted :
  let run := loadUploadFiles (Sample.submission Sample.U 2000000000 1 1 "AB")
               Sample.defaults Sample.finished_upload in
  lookup Sample.U (root Sample.finished_upload) = Some (RegFile 5 (Sample.bytes "AB")) /\
  fst run = Ok (Respond (jsonError "File size exceeded")) /\
  fst run <> Ok (Respond (jsonError "Upload already exists")).
Proof.
  vm_compute. repeat split. discriminate.
Qed.

(** C3, amended. For a validated submission whose artifact is in place
    after the reaping step, the quota guard runs before the duplicate
    check: when one of its first three checks fails the answer is the
    reason of that check, and when all four checks pass the answer is
    [Upload already exists]. *)
Theorem duplicate_check_follows_quota_guard (astro : Request)
    (options : LoadUploadFilesOptions) (w : world) (data : UploadInfo)
    (uploadFile : File) (t : Z) (c : list byte) :
  let o := settings options in
  let w1 := reaped (s_maxUploadTime o) w in
  let id := uploadId data in
  let agg := directorySize (root w1) in
  let answer := fst (loadUploadFiles astro options w) in
  gated astro = true ->
  unique (root w) ->
  info astro = Some data ->
  file astro = Some uploadFile ->
  stagingUsable id (root w1) ->
  lookup id (root w1) = Some (RegFile t c) ->
  (refused o uploadFile data = true ->
     answer = Ok (Respond (jsonError "File not allowed"))) /\
  (refused o uploadFile data = false ->
   uploadSize data > s_maxUploadSize o ->
     answer = Ok (Respond (jsonError "File size exceeded"))) /\
  (refused o uploadFile data = false ->
   uploadSize data <= s_maxUploadSize o ->
   agg + Z.max (uploadSize data) (fileSize uploadFile) > s_maxDirectorySize o ->
     answer = Ok (Respond (jsonError "Directory size exceeded"))) /\
  (refused o uploadFile data = false ->
   uploadSize data <= s_maxUploadSize o ->
   agg + Z.max (uploadSize data) (fileSize uploadFile) <= s_maxDirectorySize o ->
   agg + uploadSize data <= s_maxUploadSize o ->
     answer = Ok (Respond (jsonError "Upload already exists"))).
Proof.
  intros o w1 id agg answer Hg Hu Hinfo Hfile Hst Hart.
  unfold answer. rewrite (loadUploadFiles_valid _ _ _ _ _ Hg Hu Hinfo Hfile).
  destruct (handleChunk_quota o data uploadFile w1 Hst) as [H1 [H2 [H3 [_ H5]]]].
  split; [| split; [| split]].
  - intros E. apply (H1 E).
  - intros E E1. apply (H2 E E1).
  - intros E E1 E2. apply (H3 E E1 E2).
  - intros E E1 E2 E3. apply (H5 E E1 E2 E3 t c Hart).
Qed.

Lemma duplicate_check_follows_quota_guard_witness :
  fst (loadUploadFiles (Sample.submission Sample.U 2000000000 1 1 "AB")
         Sample.defaults Sample.finished_upload)
    = Ok (Respond (jsonError "File size exceeded")) /\
  fst (loadUploadFiles (Sample.submission Sample.U 2 1 1 "AB")
         Sample.defaults Sample.finished_upload)
    = Ok (Respond (jsonError "Upload already exists")).
Proof.
  split.
  - destruct (duplicate_check_follows_quota_guard
                (Sample.submission Sample.U 2000000000 1 1 "AB") Sample.defaults
                Sample.finished_upload (mkInfo Sample.U 2000000000 1 1)
                (mkFile "blob" (Sample.bytes "AB")) 5 (Sample.bytes "AB")
                eq_refl sample_unique_finished eq_refl eq_refl)
      as [_ [H _]].
    + vm_compute. exact I.
    + reflexivity.
    + apply H; [reflexivity | vm_compute; reflexivity].
  - destruct (duplicate_check_follows_quota_guard
                (Sample.submission Sample.U 2 1 1 "AB") Sample.defaults
                Sample.finished_upload (mkInfo Sample.U 2 1 1)
                (mkFile "blob" (Sample.bytes "AB")) 5 (Sample.bytes "AB")
                eq_refl sample_unique_finished eq_refl eq_refl)
      as [_ [_ [_ H]]].
    + vm_compute. exact I.
    + reflexivity.
    + apply H; [reflexivity | | |]; vm_compute; discriminate.
Defined.




(** C5. A finishing submission whose completeness check passes assembles
    every file that the staging directory lists, whatever its name: the
    artifact is the concatenation of the bytes of all entries in the order
    of the listing, the staging directory is removed, and the hook gets
    the number of entries. After a rejected finishing submission the
    marker [error.txt] is such an entry, listed after the chunks: for an
    upload of 2 parts submitted as part 2, part 1, part 2, the artifact
    holds the two parts followed by the bytes of the marker, and the hook
    gets 3. *)
Theorem extra_staging_files_are_assembled :
  (forall (o : Settings) (data : UploadInfo) (w : world) (m : Z) (es : dir),
     let uploadDir := join [] ("chunks_" ++ uploadId data) in
     let uploadFilePath := join [] (uploadId data) in
     resolve uploadDir (root w) = Some (Directory m es) ->
     unique es ->
     flat es ->
     resolve uploadFilePath (root w) = None ->
     (forall i, (1 <= i <= total data)%nat ->
        In (chunkName i (total data)) (names es)) ->
     exists (w' : world) (t : Z),
       finishUpload o uploadDir data w
         = (afterHook (s_onFinished o) (uploadId data) (List.length es), w') /\
       resolve uploadFilePath (root w')
         = Some (RegFile t (List.concat (contents es))) /\
       resolve uploadDir (root w') = None /\
       finishedCalls w' =
         finishedCalls w ++ callsOf (s_onFinished o) (uploadId data) (List.length es)) /\
  (let last := Sample.submission Sample.U 2 2 2 "B" in
   let first := Sample.submission Sample.U 2 1 2 "A" in
   let w1 := Sample.after last Sample.fresh in
   let w2 := Sample.after first w1 in
   let run := loadUploadFiles last Sample.defaults w2 in
   fst (loadUploadFiles last Sample.defaults Sample.fresh)
     = Ok (Respond (jsonError "Missing chunk 1, upload failed")) /\
   fst (loadUploadFiles first Sample.defaults w1) = Ok (Respond jsonOk) /\
   names (stagedFiles Sample.U (root w2)) = ["1-2"; "2-2"; "error.txt"] /\
   fst run = Ok (Respond jsonFinished) /\
   resolve (join [] Sample.U) (root (snd run))
     = Some (RegFile 10 (Sample.bytes "A" ++ Sample.bytes "B"
                         ++ Sample.bytes "Missing chunk 1, upload failed")) /\
   finishedCalls (snd run) = [(Sample.U, 3%nat)]).
Proof.
  split.
  - intros o data w m es uploadDir uploadFilePath Hdir Hu Hflat Hart Hall.
    unfold uploadDir in *. unfold uploadFilePath in *.
    rewrite resolve_one in Hdir, Hart.
    unfold finishUpload.
    rewrite (bind_run _ _ _ _ _ (readdir_staging _ w m es Hdir)).
    rewrite (proj2 (missingChunk_None _ _) Hall).
    destruct (assemble_run _ _ w m es (staging_name_differs _) Hdir Hu Hflat Hart)
      as [r' [t [Hrun [Hs' [Hid' _]]]]].
    rewrite (bind_run _ _ _ _ _ Hrun).
    unfold names. rewrite length_map.
    rewrite callOnFinished_then_finished.
    eexists. exists t. split; [reflexivity |].
    cbn [root finishedCalls setRoot]. rewrite !resolve_one.
    split; [exact Hid' | split; [exact Hs' | reflexivity]].
  - vm_compute. repeat split.
Qed.

Lemma extra_staging_files_are_assembled_witness :
  exists (w' : world) (t : Z),
    finishUpload (settings Sample.defaults) (join [] Sample.chunks_U)
      (mkInfo Sample.U 4 2 2) Sample.marker_after_chunks
      = (Ok (Respond jsonFinished), w') /\
    resolve (join [] Sample.U) (root w')
      = Some (RegFile t (Sample.bytes "aa" ++ Sample.bytes "bb"
                         ++ Sample.bytes "oops")) /\
    resolve (join [] Sample.chunks_U) (root w') = None /\
    finishedCalls w' = [(Sample.U, 3%nat)].
Proof.
  destruct extra_staging_files_are_assembled as [H _].
  apply (H (settings Sample.defaults) (mkInfo Sample.U 4 2 2)
           Sample.marker_after_chunks 5
           [("1-2", RegFile 5 (Sample.bytes "aa"));
            ("2-2", RegFile 4 (Sample.bytes "bb"));
            ("error.txt", RegFile 4 (Sample.bytes "oops"))]).
  - reflexivity.
  - unfold unique. simpl. repeat constructor; simpl; intuition discriminate.
  - intros k n [E | [E | [E | []]]]; inversion E; eauto.
  - reflexivity.
  - simpl. intros i Hi.
    assert (i = 1 \/ i = 2)%nat as [-> | ->] by lia; vm_compute; tauto.
Defined.

(** C6. The quota guard of an admitted submission, in the order of the
    code, read on the world that the reaping step leaves. The first three
    checks reject through [sendError] with their reasons and keep the
    staging directory. The fourth check, on the aggregate size plus the
    declared size against the per-upload maximum, removes the staging
    directory, after which writing the marker throws: the submission ends
    with the exception [ENOENT] and no answer [Upload size exceeded] is
    returned. *)
Theorem quota_guard_checks (astro : Request) (options : LoadUploadFilesOptions)
    (w : world) (data : UploadInfo) (uploadFile : File) :
  let o := settings options in
  let w1 := reaped (s_maxUploadTime o) w in
  let id := uploadId data in
  let agg := directorySize (root w1) in
  let run := loadUploadFiles astro options w in
  gated astro = true ->
  unique (root w) ->
  info astro = Some data ->
  file astro = Some uploadFile ->
  stagingUsable id (root w1) ->
  (refused o uploadFile data = true ->
     rejectedWith "File not allowed" id w1 run) /\
  (refused o uploadFile data = false ->
   uploadSize data > s_maxUploadSize o ->
     rejectedWith "File size exceeded" id w1 run) /\
  (refused o uploadFile data = false ->
   uploadSize data <= s_maxUploadSize o ->
   agg + Z.max (uploadSize data) (fileSize uploadFile) > s_maxDirectorySize o ->
     rejectedWith "Directory size exceeded" id w1 run) /\
  (refused o uploadFile data = false ->
   uploadSize data <= s_maxUploadSize o ->
   agg + Z.max (uploadSize data) (fileSize uploadFile) <= s_maxDirectorySize o ->
   agg + uploadSize data > s_maxUploadSize o ->
     fst run = Throw ENOENT /\
     lookup ("chunks_" ++ id) (root (snd run)) = None).
Proof.
  intros o w1 id agg run Hg Hu Hinfo Hfile Hst.
  unfold run. rewrite (loadUploadFiles_valid _ _ _ _ _ Hg Hu Hinfo Hfile).
  destruct (handleChunk_quota o data uploadFile w1 Hst) as [H1 [H2 [H3 [H4 _]]]].
  split; [exact H1 | split; [exact H2 | split; [exact H3 | exact H4]]].
Qed.

Lemma quota_guard_checks_witness :
  fst (loadUploadFiles Sample.second_half Sample.limit100 Sample.half_uploaded)
    = Throw ENOENT /\
  lookup Sample.chunks_U
    (root (snd (loadUploadFiles Sample.second_half Sample.limit100
                  Sample.half_uploaded)))
    = None.
Proof.
  destruct (quota_guard_checks Sample.second_half Sample.limit100
              Sample.half_uploaded (mkInfo Sample.U 100 2 2)
              (mkFile "blob" (repeat "y"%byte 50))
              eq_refl sample_unique_half eq_refl eq_refl)
    as [_ [_ [_ H]]].
  - vm_compute. intros t sub. discriminate.
  - apply H.
    + reflexivity.
    + vm_compute. discriminate.
    + vm_compute. discriminate.
    + vm_compute. reflexivity.
Defined.

(** C7. Storing a chunk whose key [(part, total)] already has a file in
    the staging directory of the upload writes nothing: the store step
    returns with the world it started from, so the stored chunk is not
    overwritten. *)
Theorem resubmitted_chunk_is_not_rewritten (id : string) (part total : nat)
    (uploadFile : File) (w : world) (t : Z) (c : list byte) :
  resolve (join (join [] ("chunks_" ++ id)) (chunkName part total)) (root w)
    = Some (RegFile t c) ->
  storeChunk (join [] ("chunks_" ++ id)) part total uploadFile w = (Ok tt, w).
Proof.
  intros H. unfold storeChunk.
  rewrite (bind_run _ _ _ _ _ (checkIfFileExists_run _ w)).
  rewrite H. reflexivity.
Qed.

Lemma resubmitted_chunk_is_not_rewritten_witness :
  storeChunk (join [] Sample.chunks_U) 1 2 (mkFile "blob" (Sample.bytes "Z"))
    Sample.one_chunk_stored
  = (Ok tt, Sample.one_chunk_stored).
Proof.
  apply (resubmitted_chunk_is_not_rewritten Sample.U 1 2 _ Sample.one_chunk_stored
           5 (Sample.bytes "A")).
  reflexivity.
Defined.

(** C8. A submission of the last part ([part == total]) that passes the
    quota checks and the duplicate check stores its chunk and comes to the
    completeness check. When a part before the last has no file [i-total]
    in the staging directory, the answer is the error [Missing chunk i,
    upload failed] for the smallest such [i]; the staging directory is
    still there afterwards, with every file it had and with the chunk of
    the submission; only the marker [error.txt] is written besides. *)
Theorem missing_chunk_is_reported (astro : Request)
    (options : LoadUploadFilesOptions) (w : world) (data : UploadInfo)
    (uploadFile : File) (missing : nat) :
  let o := settings options in
  let w0 := reaped (s_maxUploadTime o) w in
  let id := uploadId data in
  let es := stagedFiles id (root w0) in
  let last := chunkName (part data) (total data) in
  gated astro = true ->
  unique (root w) ->
  info astro = Some data ->
  file astro = Some uploadFile ->
  part data = total data ->
  admitted o data uploadFile (directorySize (root w0)) ->
  (forall t c, lookup id (root w0) <> Some (RegFile t c)) ->
  (forall t c, lookup ("chunks_" ++ id) (root w0) <> Some (RegFile t c)) ->
  flat es ->
  (1 <= missing < total data)%nat ->
  ~ In (chunkName missing (total data)) (names es) ->
  exists (i : nat) (w' : world) (m' : Z) (es' : dir),
    loadUploadFiles astro options w
      = (Ok (Respond (jsonError
               ("Missing chunk " ++ string_of_nat i ++ ", upload failed"))), w') /\
    (1 <= i <= missing)%nat /\
    ~ In (chunkName i (total data)) (names es) /\
    (forall j, (1 <= j < i)%nat -> In (chunkName j (total data)) (names es)) /\
    resolve (join [] ("chunks_" ++ id)) (root w') = Some (Directory m' es') /\
    (exists t c, lookup last es' = Some (RegFile t c)) /\
    (forall name, name <> "error.txt" -> name <> last ->
       lookup name es' = lookup name es).
Proof.
  intros o w0 id es last Hg Hu Hinfo Hfile Hpart [Ha [Hb [Hc Hd]]] Hart Hdir
    Hflat Hrange Hmissing.
  rewrite (loadUploadFiles_valid _ _ _ _ _ Hg Hu Hinfo Hfile).
  fold o. fold w0.
  assert (Hst : stagingUsable id (root w0)).
  { unfold stagingUsable. unfold es, stagedFiles in Hflat.
    destruct (lookup ("chunks_" ++ id) (root w0)) as [[t c | t sub] |] eqn:E.
    - apply (Hdir t c). reflexivity.
    - intros t' sub' Hm. apply lookup_In in Hm.
      destruct (Hflat _ _ Hm) as [t'' [c'' E']]. discriminate.
    - exact I. }
  destruct (ensureDir_staging id w0 Hst)
    as [w1 [m [es1 [Hens [Hs [_ [Horig [Hsize [Hother _]]]]]]]]].
  assert (Hes : es1 = es).
  { unfold es, stagedFiles. destruct Horig as [-> | [-> ->]]; reflexivity. }
  subst es1.
  assert (Hne : id <> ("chunks_" ++ id)%string).
  { intros E. symmetry in E. revert E. apply staging_name_differs. }
  assert (Hgo : handleChunk o data uploadFile w0 =
                (storeChunk (join [] ("chunks_" ++ id)) (part data) (total data)
                   uploadFile ;;
                 if negb (Nat.eqb (part data) (total data))
                 then ret (Respond jsonOk)
                 else finishUpload o (join [] ("chunks_" ++ id)) data) w1).
  { rewrite (handleChunk_guards o data uploadFile w0 w1 Hens).
    rewrite Hsize, Ha, (gtb_false _ _ Hb), (gtb_false _ _ Hc), (gtb_false _ _ Hd).
    fold id. rewrite (Hother id Hne).
    destruct (lookup id (root w0)) as [[t c | t sub] |] eqn:E; try reflexivity.
    exfalso. apply (Hart t c). reflexivity. }
  rewrite Hgo. clear Hgo.
  assert (Hfree : forall t sub, lookup last es <> Some (Directory t sub)).
  { intros t sub Hm. apply lookup_In in Hm.
    destruct (Hflat _ _ Hm) as [t' [c' E']]. discriminate. }
  destruct (storeChunk_in_staging ("chunks_" ++ id) (part data) (total data)
              uploadFile w1 m es Hs Hfree)
    as [m2 [es2 [Hstore [[tl [cl Hlast]] Hold]]]].
  fold last in Hlast, Hold.
  rewrite (bind_run _ _ _ _ _ Hstore).
  rewrite Hpart, Nat.eqb_refl. cbn [negb].
  set (w2 := setRoot (replace ("chunks_" ++ id) (Directory m2 es2) (root w1)) w1).
  assert (Hs2 : lookup ("chunks_" ++ id) (root w2) = Some (Directory m2 es2)).
  { unfold w2. rewrite root_setRoot. apply lookup_replace_same. congruence. }
  unfold last in Hlast, Hold. rewrite Hpart in Hlast, Hold.
  destruct (missingChunk_after_store es es2 (total data) missing)
    as [i [Hfirst [Hi [Hnot Hbefore]]]]; try assumption.
  { congruence. }
  unfold finishUpload.
  rewrite (bind_run _ _ _ _ _ (readdir_staging _ w2 m2 es2 Hs2)), Hfirst.
  assert (Hmarker : forall t sub, lookup "error.txt" es2 <> Some (Directory t sub)).
  { intros t sub Hm. rewrite Hold in Hm.
    - apply lookup_In in Hm. destruct (Hflat _ _ Hm) as [t' [c' E']]. discriminate.
    - intros E. symmetry in E. apply String.eqb_eq in E.
      rewrite chunkName_not_marker in E. discriminate. }
  destruct (sendError_in_staging _
              ("Missing chunk " ++ string_of_nat i ++ ", upload failed")
              w2 m2 es2 Hs2 Hmarker) as [m3 [es3 [Hrun [_ Hold3]]]].
  exists i, (setRoot (replace ("chunks_" ++ id) (Directory m3 es3) (root w2)) w2),
    m3, es3.
  split; [exact Hrun | split; [exact Hi | split; [exact Hnot |
    split; [exact Hbefore | split; [| split]]]]].
  - rewrite resolve_one, root_setRoot. apply lookup_replace_same. congruence.
  - exists tl, cl. unfold last. rewrite Hpart. rewrite Hold3; [exact Hlast |].
    intros E. apply String.eqb_eq in E.
    rewrite chunkName_not_marker in E. discriminate.
  - intros name Hn1 Hn2. unfold last in Hn2. rewrite Hpart in Hn2.
    rewrite (Hold3 name Hn1). apply Hold. exact Hn2.
Qed.

Lemma sample_unique_first : unique (root Sample.first_of_three).
Proof.
  unfold unique. simpl. repeat constructor; simpl; intuition discriminate.
Defined.

Lemma missing_chunk_is_reported_witness :
  exists (i : nat) (w' : world) (m' : Z) (es' : dir),
    loadUploadFiles (Sample.submission Sample.U 6 3 3 "cc") Sample.defaults
      Sample.first_of_three
      = (Ok (Respond (jsonError
               ("Missing chunk " ++ string_of_nat i ++ ", upload failed"))), w') /\
    (1 <= i <= 2)%nat /\
    ~ In (chunkName i 3) ["1-3"] /\
    (forall j, (1 <= j < i)%nat -> In (chunkName j 3) ["1-3"]) /\
    resolve (join [] Sample.chunks_U) (root w') = Some (Directory m' es') /\
    (exists t c, lookup "3-3" es' = Some (RegFile t c)) /\
    (forall name, name <> "error.txt" -> name <> "3-3" ->
       lookup name es' = lookup name [("1-3", RegFile 5 (Sample.bytes "aa"))]).
Proof.
  apply (missing_chunk_is_reported (Sample.submission Sample.U 6 3 3 "cc")
           Sample.defaults Sample.first_of_three (mkInfo Sample.U 6 3 3)
           (mkFile "blob" (Sample.bytes "cc")) 2
           eq_refl sample_unique_first eq_refl eq_refl eq_refl).
  - vm_compute. repeat split; discriminate.
  - intros t c. vm_compute. discriminate.
  - intros t c. vm_compute. discriminate.
  - intros k n Hin. vm_compute in Hin. destruct Hin as [E | []].
    inversion E. eauto.
  - simpl. lia.
  - vm_compute. intuition discriminate.
Defined.

(** C9. A submission that passes the gate runs the reaper before anything
    else, whatever upload it is for. Every entry directly under the
    staging root whose age [now - mtime] exceeds [maxUploadTime], [now]
    being the reading of the clock taken for that entry, is gone after the
    reaping step with all it holds; every other entry is still there,
    unchanged. *)
Theorem reaper_removes_stale_entries (astro : Request)
    (options : LoadUploadFilesOptions) (w : world) :
  gated astro = true ->
  unique (root w) ->
  let maxAge := s_maxUploadTime (settings options) in
  loadUploadFiles astro options w = afterReaping astro options (reaped maxAge w) /\
  forall j name n,
    nth_error (root w) j = Some (name, n) ->
    lookup name (root (reaped maxAge w)) =
    if clock w (tick w + j)%nat - mtimeOf n >? maxAge then None else Some n.
Proof.
  intros Hg Hu maxAge. split.
  - apply loadUploadFiles_gated; assumption.
  - apply reaped_root. exact Hu.
Qed.

Lemma reaper_removes_stale_entries_witness :
  lookup ("chunks_" ++ Sample.V)
    (root (reaped (s_maxUploadTime (settings Sample.defaults)) Sample.two_uploads))
    = None /\
  lookup ("chunks_" ++ Sample.W)
    (root (reaped (s_maxUploadTime (settings Sample.defaults)) Sample.two_uploads))
    = Some (Directory 1000000 [("1-3", RegFile 1000000 (Sample.bytes "y"))]).
Proof.
  destruct (reaper_removes_stale_entries
              (Sample.submission Sample.U 300 1 3 "p") Sample.defaults
              Sample.two_uploads eq_refl sample_unique_two) as [_ H].
  split.
  - exact (H 0%nat _ _ eq_refl).
  - exact (H 1%nat _ _ eq_refl).
Defined.

(** C10. [checkIfFileExists] always returns, and leaves the world as it
    is: it answers [false] when [stat] fails and when the path holds
    something that is not a regular file. So a directory at the path of
    the artifact never makes a submission end with [Upload already
    exists]. *)
Theorem checkIfFileExists_never_throws (p : path) (w : world) :
  (exists b, checkIfFileExists p w = (Ok b, w)) /\
  (resolve p (root w) = None -> checkIfFileExists p w = (Ok false, w)) /\
  (forall t es,
     resolve p (root w) = Some (Directory t es) ->
     checkIfFileExists p w = (Ok false, w) /\
     forall astro options data,
       unique (root w) ->
       info astro = Some data ->
       p = join [] (uploadId data) ->
       fst (loadUploadFiles astro options w)
         <> Ok (Respond (jsonError "Upload already exists"))).
Proof.
  rewrite checkIfFileExists_run. split; [| split].
  - eexists. reflexivity.
  - intros ->. reflexivity.
  - intros t es Hdir. rewrite Hdir. split; [reflexivity |].
    intros astro options data Hu Hinfo -> Hreply.
    unfold join in Hdir. simpl in Hdir.
    destruct (gated astro) eqn:Hg.
    + rewrite (loadUploadFiles_gated _ _ _ Hg Hu) in Hreply.
      unfold afterReaping in Hreply. rewrite Hinfo in Hreply.
      destruct (file astro) as [uploadFile |].
      * apply handleChunk_already_exists in Hreply.
        destruct Hreply as [t' [c' Hreg]].
        destruct (reaped_lookup (s_maxUploadTime (settings options)) w
                    (uploadId data) Hu) as [E | E];
          rewrite E in Hreg; congruence.
      * simpl in Hreply. discriminate.
    + unfold loadUploadFiles in Hreply. rewrite Hg in Hreply.
      simpl in Hreply. discriminate.
Qed.

Lemma checkIfFileExists_never_throws_witness :
  checkIfFileExists (join [] Sample.U) Sample.directory_at_artifact
    = (Ok false, Sample.directory_at_artifact) /\
  fst (loadUploadFiles (Sample.submission Sample.U 300 1 2 "A") Sample.defaults
         Sample.directory_at_artifact)
    <> Ok (Respond (jsonError "Upload already exists")).
Proof.
  destruct (checkIfFileExists_never_throws (join [] Sample.U)
              Sample.directory_at_artifact) as [_ [_ H]].
  destruct (H 5 [] eq_refl) as [H1 H2].
  split.
  - exact H1.
  - exact (H2 (Sample.submission Sample.U 300 1 2 "A") Sample.defaults
              (mkInfo Sample.U 300 1 2) sample_unique_directory eq_refl eq_refl).
Defined.

(** * Further properties of the module *)

(** ** What an answer tells about the run *)

Lemma bind_ok {A B} (m : M A) (k : A -> M B) (w w' : world) (b : B) :
  bind m k w = (Ok b, w') ->
  exists a w1, m w = (Ok a, w1) /\ k a w1 = (Ok b, w').
Proof.
  unfold bind. destruct (m w) as [[a | e] w1]; intros H.
  - exists a, w1. auto.
  - discriminate.
Qed.

Lemma ensureDir_top_size (name : string) (w w1 : world) :
  ensureDir (join [] name) w = (Ok tt, w1) ->
  directorySize (root w1) = directorySize (root w).
Proof.
  rewrite ensureDir_top.
  destruct (lookup name (root w)) as [[t c | t es] |]; intros H; inversion H; subst.
  - reflexivity.
  - rewrite root_setRoot, directorySize_insert.
    change (sizeBelow (Directory (timeOf w) [])) with 0. lia.
Qed.

(** The ways in which [handleChunk] ends with a response: a rejection
    through [sendError] before the store step, or the store step followed
    by the acknowledgement or by [finishUpload]. *)
Lemma handleChunk_cases (o : Settings) (data : UploadInfo) (uploadFile : File)
    (w w' : world) (r : Reply) :
  let uploadDir := join [] ("chunks_" ++ uploadId data) in
  handleChunk o data uploadFile w = (Ok (Respond r), w') ->
  exists w1,
    ensureDir uploadDir w = (Ok tt, w1) /\
    ((exists msg,
        In msg ["File not allowed"; "File size exceeded";
                "Directory size exceeded"; "Upload already exists"] /\
        sendError uploadDir msg w1 = (Ok (Respond r), w')) \/
     (admitted o data uploadFile (directorySize (root w)) /\
      exists w2,
        storeChunk uploadDir (part data) (total data) uploadFile w1 = (Ok tt, w2) /\
        ((part data <> total data /\ r = jsonOk /\ w' = w2) \/
         (part data = total data /\
          finishUpload o uploadDir data w2 = (Ok (Respond r), w'))))).
Proof.
  intros uploadDir H.
  assert (Hens : exists w1, ensureDir uploadDir w = (Ok tt, w1)).
  { unfold handleChunk in H. apply bind_ok in H.
    destruct H as [[] [w1 [Hens _]]]. exists w1. exact Hens. }
  destruct Hens as [w1 Hens]. exists w1. split; [exact Hens |].
  rewrite (handleChunk_guards o data uploadFile w w1 Hens) in H.
  rewrite (ensureDir_top_size _ _ _ Hens) in H.
  fold uploadDir in H.
  destruct (refused o uploadFile data) eqn:E0.
  { left. exists "File not allowed". split; [simpl; tauto | exact H]. }
  destruct (Z.gtb_spec (uploadSize data) (s_maxUploadSize o)) as [E1 | E1].
  { left. exists "File size exceeded". split; [simpl; tauto | exact H]. }
  destruct (Z.gtb_spec (directorySize (root w)
                        + Z.max (uploadSize data) (fileSize uploadFile))
              (s_maxDirectorySize o)) as [E2 | E2].
  { left. exists "Directory size exceeded". split; [simpl; tauto | exact H]. }
  destruct (Z.gtb_spec (directorySize (root w) + uploadSize data)
              (s_maxUploadSize o)) as [E3 | E3].
  { unfold uploadDir in H. rewrite remove_then_sendError in H. discriminate. }
  destruct (lookup (uploadId data) (root w1)) as [[t c | t es] |] eqn:Ea.
  { left. exists "Upload already exists". split; [simpl; tauto | exact H]. }
  - right. split; [repeat split; assumption |].
    apply bind_ok in H. destruct H as [[] [w2 [Hstore H]]].
    exists w2. split; [exact Hstore |].
    destruct (Nat.eqb_spec (part data) (total data)) as [Ep | Ep]; simpl in H.
    + right. auto.
    + left. inversion H; subst. auto.
  - right. split; [repeat split; assumption |].
    apply bind_ok in H. destruct H as [[] [w2 [Hstore H]]].
    exists w2. split; [exact Hstore |].
    destruct (Nat.eqb_spec (part data) (total data)) as [Ep | Ep]; simpl in H.
    + right. auto.
    + left. inversion H; subst. auto.
Qed.

(** The ways in which [loadUploadFiles] returns. *)
Lemma loadUploadFiles_cases (astro : Request) (options : LoadUploadFilesOptions)
    (w w' : world) (x : outcome) :
  loadUploadFiles astro options w = (Ok x, w') ->
  (gated astro = false /\ x = NotHandled /\ w' = w) \/
  (gated astro = true /\
   deleteOldUploads [] (s_maxUploadTime (settings options)) w
     = (Ok tt, reaped (s_maxUploadTime (settings options)) w) /\
   afterReaping astro options (reaped (s_maxUploadTime (settings options)) w)
     = (Ok x, w')).
Proof.
  unfold loadUploadFiles. destruct (gated astro); simpl; intros H.
  - right. split; [reflexivity |].
    apply bind_ok in H. destruct H as [[] [w0 [H0 H]]].
    unfold ensureDir, ret in H0. inversion H0; subst w0. clear H0.
    apply bind_ok in H. destruct H as [[] [w1 [H1 H]]].
    unfold reaped. rewrite H1. simpl. auto.
  - left. unfold ret in H. inversion H. auto.
Qed.

Lemma afterReaping_cases (astro : Request) (options : LoadUploadFilesOptions)
    (w w' : world) (r : Reply) :
  afterReaping astro options w = (Ok (Respond r), w') ->
  (r = jsonError "Invalid request" /\ w' = w /\
   (info astro = None \/ file astro = None)) \/
  (exists data uploadFile,
     info astro = Some data /\ file astro = Some uploadFile /\
     handleChunk (settings options) data uploadFile w = (Ok (Respond r), w')).
Proof.
  unfold afterReaping.
  destruct (info astro) as [data |]; [destruct (file astro) as [uploadFile |] |];
    intros H.
  - right. exists data, uploadFile. auto.
  - left. unfold ret in H. inversion H. auto.
  - left. unfold ret in H. inversion H. auto.
Qed.

(** ** A submission stays within the names of its upload *)

Lemma confined_weaken (X Y : string -> Prop) {A} (m : M A) :
  (forall n, X n -> Y n) -> confined X m -> confined Y m.
Proof. intros HXY Hm w other Ho. apply Hm. intros HX. apply Ho, HXY, HX. Qed.

Lemma confined_reading (X : string -> Prop) {A} (m : M A) :
  (forall w, root (snd (m w)) = root w) -> confined X m.
Proof. intros H w other _. rewrite H. reflexivity. Qed.

Lemma confined_bind (X : string -> Prop) {A B} (m : M A) (k : A -> M B) :
  confined X m -> (forall a, confined X (k a)) -> confined X (bind m k).
Proof.
  intros Hm Hk w other Ho. unfold bind. specialize (Hm w other Ho).
  destruct (m w) as [[a | e] w1]; simpl in *.
  - rewrite (Hk a w1 other Ho). exact Hm.
  - exact Hm.
Qed.

Lemma confined_tryCatch (X : string -> Prop) {A} (m h : M A) :
  confined X m -> confined X h -> confined X (tryCatch m h).
Proof.
  intros Hm Hh w other Ho. unfold tryCatch. specialize (Hm w other Ho).
  destruct (m w) as [[a | e] w1]; simpl in *.
  - exact Hm.
  - rewrite (Hh w1 other Ho). exact Hm.
Qed.

Lemma confined_forEach (X : string -> Prop) {A} (xs : list A) (body : A -> M unit) :
  (forall x, confined X (body x)) -> confined X (forEach xs body).
Proof.
  intros Hb. induction xs as [|x xs IH]; simpl.
  - apply confined_reading. reflexivity.
  - apply confined_bind; [apply Hb | intros _; exact IH].
Qed.

(** A change below the entry [x] of the staging root. *)
Lemma confined_mutate_below (X : string -> Prop) (x : string) (rest : path)
    (op : Z -> dir -> result (dir * bool)) :
  X x -> confined X (mutate (x :: rest) op).
Proof.
  intros Hx w other Ho. unfold mutate. simpl.
  destruct (lookup x (root w)) as [[t c | m es] |]; try reflexivity.
  destruct (update (timeOf w) rest (op (timeOf w)) es) as [[es' b] | e];
    [| reflexivity].
  simpl. apply lookup_replace_other. intros ->. contradiction.
Qed.

(** A change of the entry [x] of the staging root itself. *)
Lemma confined_mutate_top (X : string -> Prop) (x : string)
    (op : Z -> dir -> result (dir * bool)) :
  X x ->
  (forall t d d' b other,
     op t d = Ok (d', b) -> other <> x -> lookup other d' = lookup other d) ->
  confined X (mutate [] op).
Proof.
  intros Hx Hop w other Ho. unfold mutate. simpl.
  destruct (op (timeOf w) (root w)) as [[d' b] | e] eqn:E; [| reflexivity].
  simpl. apply (Hop _ _ _ _ _ E). intros ->. contradiction.
Qed.

Lemma confined_writeFile (X : string -> Prop) (x : string) (rest : path)
    (content : list byte) :
  X x -> confined X (writeFile (x :: rest) content).
Proof.
  intros Hx. unfold writeFile. destruct rest as [|y rest].
  - apply (confined_mutate_top X x); [exact Hx |].
    intros t d d' b other E Hne. simpl in E.
    destruct (lookup x d) as [[? ? | ? ?] |]; inversion E; subst.
    + apply lookup_replace_other. congruence.
    + apply lookup_insert_other. exact Hne.
  - apply confined_mutate_below. exact Hx.
Qed.

Lemma confined_streamWrite (X : string -> Prop) (x : string) (rest : path)
    (chunk : list byte) :
  X x -> confined X (streamWrite (x :: rest) chunk).
Proof.
  intros Hx. unfold streamWrite.
  apply confined_tryCatch; [| apply confined_reading; reflexivity].
  destruct rest as [|y rest].
  - apply (confined_mutate_top X x); [exact Hx |].
    intros t d d' b other E Hne. simpl in E.
    destruct (lookup x d) as [[? ? | ? ?] |]; inversion E; subst.
    + apply lookup_replace_other. congruence.
    + reflexivity.
    + apply lookup_insert_other. exact Hne.
  - apply confined_mutate_below. exact Hx.
Qed.

Lemma confined_createWriteStream (X : string -> Prop) (x : string) (rest : path) :
  X x -> confined X (createWriteStream (x :: rest)).
Proof.
  intros Hx. unfold createWriteStream.
  apply confined_tryCatch; [| apply confined_reading; reflexivity].
  destruct rest as [|y rest].
  - apply (confined_mutate_top X x); [exact Hx |].
    intros t d d' b other E Hne. simpl in E.
    destruct (lookup x d); inversion E; subst.
    + reflexivity.
    + apply lookup_insert_other. exact Hne.
  - apply confined_mutate_below. exact Hx.
Qed.

Lemma confined_ensureDir (X : string -> Prop) (x : string) (rest : path) :
  X x -> confined X (ensureDir (x :: rest)).
Proof.
  intros Hx. unfold ensureDir. destruct rest as [|y rest].
  - apply (confined_mutate_top X x); [exact Hx |].
    intros t d d' b other E Hne. simpl in E.
    destruct (lookup x d) as [[? ? | ? ?] |]; inversion E; subst.
    + reflexivity.
    + apply lookup_insert_other. exact Hne.
  - apply confined_mutate_below. exact Hx.
Qed.

Lemma confined_remove (X : string -> Prop) (x : string) (rest : path) :
  X x -> confined X (remove (x :: rest)).
Proof.
  intros Hx w other Ho. unfold remove.
  destruct (resolve (x :: rest) (root w)); [| reflexivity].
  revert w other Ho. fold (confined X (mutate (removelast (x :: rest))
                            (fun (_ : Z) d => Ok (delete (last (x :: rest) "") d, true)))).
  destruct rest as [|y rest].
  - apply (confined_mutate_top X x); [exact Hx |].
    intros t d d' b other E Hne. simpl in E. inversion E; subst.
    apply lookup_delete_other. congruence.
  - apply confined_mutate_below. exact Hx.
Qed.

Lemma confined_sendError (X : string -> Prop) (x : string) (msg : string) :
  X x -> confined X (sendError (join [] x) msg).
Proof.
  intros Hx. unfold sendError. apply confined_bind.
  - apply confined_writeFile. exact Hx.
  - intros _. apply confined_reading. reflexivity.
Qed.

Lemma confined_storeChunk (X : string -> Prop) (x : string) (part total : nat)
    (uploadFile : File) :
  X x -> confined X (storeChunk (join [] x) part total uploadFile).
Proof.
  intros Hx. unfold storeChunk. apply confined_bind.
  - apply confined_reading. intros w. rewrite checkIfFileExists_run. reflexivity.
  - intros present. destruct (negb present).
    + apply confined_writeFile. exact Hx.
    + apply confined_reading. reflexivity.
Qed.

Lemma confined_copyChunk (X : string -> Prop) (s id file : string) :
  X s -> X id -> confined X (copyChunk (join [] s) (join [] id) file).
Proof.
  intros Hs Hid. unfold copyChunk. apply confined_bind.
  - apply confined_reading. intros w. unfold readStream.
    destruct (resolve _ (root w)) as [[? ? | ? ?] |]; reflexivity.
  - intros chunk. apply confined_bind.
    + destruct chunk.
      * apply confined_reading. reflexivity.
      * apply confined_streamWrite. exact Hid.
    + intros _. apply confined_remove. exact Hs.
Qed.

Lemma confined_assemble (X : string -> Prop) (s id : string) (files : list string) :
  X s -> X id -> confined X (assemble (join [] s) (join [] id) files).
Proof.
  intros Hs Hid. unfold assemble. apply confined_bind.
  - apply confined_createWriteStream. exact Hid.
  - intros _. apply confined_bind.
    + apply confined_forEach. intros file. apply confined_copyChunk; assumption.
    + intros _. apply confined_remove. exact Hs.
Qed.

Lemma confined_finishUpload (o : Settings) (data : UploadInfo) :
  confined (ownNames (uploadId data))
    (finishUpload o (join [] ("chunks_" ++ uploadId data)) data).
Proof.
  unfold finishUpload. apply confined_bind.
  - apply confined_reading. intros w. unfold readdir. simpl.
    destruct (lookup _ (root w)) as [[? ? | ? ?] |]; reflexivity.
  - intros files. destruct (missingChunk files (total data)).
    + apply confined_sendError. left. reflexivity.
    + apply confined_bind.
      * apply confined_assemble; [left | right]; reflexivity.
      * intros _. apply confined_bind.
        -- apply confined_reading. intros w. unfold callOnFinished.
           destruct (s_onFinished o) as [h |]; [destruct (h _ _) |];
             reflexivity.
        -- intros _. apply confined_reading. reflexivity.
Qed.

Lemma confined_handleChunk (o : Settings) (data : UploadInfo) (uploadFile : File) :
  confined (ownNames (uploadId data)) (handleChunk o data uploadFile).
Proof.
  assert (Hs : ownNames (uploadId data) ("chunks_" ++ uploadId data))
    by (left; reflexivity).
  unfold handleChunk. apply confined_bind.
  { apply confined_ensureDir. exact Hs. }
  intros _. destruct (refused o uploadFile data).
  { apply confined_sendError. exact Hs. }
  destruct (uploadSize data >? s_maxUploadSize o).
  { apply confined_sendError. exact Hs. }
  apply confined_bind; [apply confined_reading; reflexivity | intros dirSize].
  destruct (_ >? s_maxDirectorySize o).
  { apply confined_sendError. exact Hs. }
  apply confined_bind; [apply confined_reading; reflexivity | intros dirSize'].
  destruct (_ >? s_maxUploadSize o).
  { apply confined_bind; [apply confined_remove; exact Hs | intros _].
    apply confined_sendError. exact Hs. }
  apply confined_bind.
  { apply confined_reading. intros w. rewrite checkIfFileExists_run. reflexivity. }
  intros present. destruct present.
  { apply confined_sendError. exact Hs. }
  apply confined_bind; [apply confined_storeChunk; exact Hs | intros _].
  destruct (negb (part data =? total data)%nat).
  - apply confined_reading. reflexivity.
  - apply confined_finishUpload.
Qed.

(** ** What the file-system calls leave when they return *)

Lemma writeFile_staging_ok (s name : string) (content : list byte) (w w' : world) :
  writeFile (join (join [] s) name) content w = (Ok tt, w') ->
  resolve (join (join [] s) name) (root w') = Some (RegFile (timeOf w) content) /\
  exists m es, lookup s (root w') = Some (Directory m es).
Proof.
  unfold writeFile, join, mutate. simpl.
  destruct (lookup s (root w)) as [[t c | m es] |] eqn:Hs; try discriminate.
  destruct (lookup name es) as [[t c | t sub] |] eqn:Hn; try discriminate;
    intros H; inversion H; subst; clear H; rewrite root_setRoot;
    rewrite lookup_replace_same by congruence.
  - split; [| eauto]. apply lookup_replace_same. congruence.
  - split; [| eauto]. apply lookup_insert_same. exact Hn.
Qed.

Lemma sendError_ok (s msg : string) (w w' : world) (x : outcome) :
  sendError (join [] s) msg w = (Ok x, w') ->
  x = Respond (jsonError msg) /\
  resolve (join (join [] s) "error.txt") (root w')
    = Some (RegFile (timeOf w) (list_byte_of_string msg)) /\
  exists m es, lookup s (root w') = Some (Directory m es).
Proof.
  unfold sendError. intros H. apply bind_ok in H.
  destruct H as [[] [w1 [Hwrite H]]]. unfold ret in H. inversion H; subst.
  split; [reflexivity |]. apply writeFile_staging_ok. exact Hwrite.
Qed.

Lemma storeChunk_ok (s : string) (part total : nat) (uploadFile : File)
    (w w' : world) :
  storeChunk (join [] s) part total uploadFile w = (Ok tt, w') ->
  exists t c,
    resolve (join (join [] s) (chunkName part total)) (root w')
      = Some (RegFile t c) /\
    (c = fileBytes uploadFile \/
     resolve (join (join [] s) (chunkName part total)) (root w)
       = Some (RegFile t c)).
Proof.
  unfold storeChunk. rewrite (bind_run _ _ _ _ _ (checkIfFileExists_run _ w)).
  destruct (resolve (join (join [] s) (chunkName part total)) (root w))
    as [[t c | t es] |] eqn:E; simpl; intros H.
  - unfold ret in H. inversion H; subst. exists t, c. auto.
  - apply writeFile_staging_ok in H. destruct H as [H _].
    exists (timeOf w), (fileBytes uploadFile). auto.
  - apply writeFile_staging_ok in H. destruct H as [H _].
    exists (timeOf w), (fileBytes uploadFile). auto.
Qed.

Lemma ensureDir_top_resolve (s name : string) (w w1 : world) :
  ensureDir (join [] s) w = (Ok tt, w1) ->
  resolve (join (join [] s) name) (root w1) = resolve (join (join [] s) name) (root w).
Proof.
  rewrite ensureDir_top, !resolve_two.
  destruct (lookup s (root w)) as [[t c | t es] |] eqn:E; intros H;
    inversion H; subst.
  - rewrite E. reflexivity.
  - rewrite root_setRoot, (lookup_insert_same _ _ _ E). reflexivity.
Qed.

Lemma createWriteStream_top (id : string) (w : world) :
  createWriteStream (join [] id) w =
  (Ok tt,
   match lookup id (root w) with
   | Some _ => w
   | None => setRoot (insert id (RegFile (timeOf w) []) (root w)) w
   end).
Proof.
  unfold createWriteStream, tryCatch, mutate, join. simpl.
  destruct (lookup id (root w)); [rewrite setRoot_same |]; reflexivity.
Qed.

Lemma streamWrite_top (id : string) (chunk : list byte) (w : world) :
  streamWrite (join [] id) chunk w =
  (Ok tt,
   match lookup id (root w) with
   | Some (Directory _ _) => w
   | Some (RegFile _ c) =>
       setRoot (replace id (RegFile (timeOf w) (c ++ chunk)) (root w)) w
   | None => setRoot (insert id (RegFile (timeOf w) chunk) (root w)) w
   end).
Proof.
  unfold streamWrite, tryCatch, mutate, join. simpl.
  destruct (lookup id (root w)) as [[t c | t sub] |];
    [| rewrite setRoot_same |]; reflexivity.
Qed.

(** A regular file at the path of the artifact stays a regular file
    through the copy of a chunk, and a directory there stays as it is:
    nothing can be written to it. *)
Lemma copyChunk_ok (s id file : string) (w w' : world) :
  s <> id ->
  copyChunk (join [] s) (join [] id) file w = (Ok tt, w') ->
  ((exists t c, lookup id (root w) = Some (RegFile t c)) ->
   exists t c, lookup id (root w') = Some (RegFile t c)) /\
  (forall t sub, lookup id (root w) = Some (Directory t sub) ->
     lookup id (root w') = Some (Directory t sub)).
Proof.
  intros Hne H. unfold copyChunk in H.
  apply bind_ok in H. destruct H as [chunk [w1 [Hread H]]].
  assert (w1 = w) as ->.
  { unfold readStream in Hread.
    destruct (resolve _ (root w)) as [[? ? | ? ?] |]; inversion Hread; auto. }
  apply bind_ok in H. destruct H as [[] [w2 [Hwrite H]]].
  pose proof (confined_remove (eq s) s [file] eq_refl w2 id) as Hrem.
  unfold join in H. simpl in H. rewrite H in Hrem. simpl in Hrem.
  rewrite Hrem by congruence. clear Hrem H.
  destruct chunk as [|b chunk].
  - unfold ret in Hwrite. inversion Hwrite; subst. auto.
  - rewrite streamWrite_top in Hwrite. inversion Hwrite; subst w2. clear Hwrite.
    split.
    + intros [t [c Hid]]. rewrite Hid, root_setRoot.
      rewrite lookup_replace_same by congruence. eauto.
    + intros t sub Hid. rewrite Hid. exact Hid.
Qed.

Lemma copy_loop_ok (s id : string) (files : list string) :
  s <> id ->
  forall w w',
    forEach files (copyChunk (join [] s) (join [] id)) w = (Ok tt, w') ->
    ((exists t c, lookup id (root w) = Some (RegFile t c)) ->
     exists t c, lookup id (root w') = Some (RegFile t c)) /\
    (forall t sub, lookup id (root w) = Some (Directory t sub) ->
       lookup id (root w') = Some (Directory t sub)).
Proof.
  intros Hne. induction files as [|f files IH]; simpl; intros w w' H.
  - unfold ret in H. inversion H; subst. auto.
  - apply bind_ok in H. destruct H as [[] [w1 [Hcopy H]]].
    destruct (copyChunk_ok s id f w w1 Hne Hcopy) as [Hreg Hdir].
    destruct (IH w1 w' H) as [Hreg' Hdir']. auto.
Qed.

(** When the assembly returns, the staging directory is gone, and the
    path of the artifact holds a regular file, unless a directory was
    there, which is as it was. *)
Lemma assemble_ok (s id : string) (files : list string) (w w' : world) :
  s <> id ->
  assemble (join [] s) (join [] id) files w = (Ok tt, w') ->
  lookup s (root w') = None /\
  match lookup id (root w) with
  | Some (Directory t sub) => lookup id (root w') = Some (Directory t sub)
  | _ => exists t c, lookup id (root w') = Some (RegFile t c)
  end.
Proof.
  intros Hne H. unfold assemble in H.
  rewrite (bind_run _ _ _ _ _ (createWriteStream_top id w)) in H.
  apply bind_ok in H. destruct H as [[] [w2 [Hloop H]]].
  rewrite remove_top in H. inversion H; subst. rewrite root_setRoot. split.
  - apply lookup_delete_same.
  - rewrite lookup_delete_other by exact Hne.
    destruct (copy_loop_ok s id files Hne _ _ Hloop) as [Hreg Hdir].
    destruct (lookup id (root w)) as [[t c | t sub] |] eqn:E.
    + apply Hreg. eauto.
    + apply Hdir. exact E.
    + apply Hreg. rewrite root_setRoot, (lookup_insert_same _ _ _ E). eauto.
Qed.

(** ** Calls of the hook *)

Lemma silent_ret {A} (a : A) : silent (ret a).
Proof. intros w. split; [reflexivity | discriminate]. Qed.

Lemma silent_bind {A B} (m : M A) (k : A -> M B) :
  silent m -> (forall a, silent (k a)) -> silent (bind m k).
Proof.
  intros Hm Hk w. unfold bind. specialize (Hm w).
  destruct (m w) as [[a | e] w1]; simpl in *.
  - destruct (Hk a w1) as [Hc Hn]. destruct Hm as [Hm _].
    split; [congruence | exact Hn].
  - destruct Hm as [Hc Hn]. split; [exact Hc |].
    intros E. apply Hn. inversion E. reflexivity.
Qed.

Lemma silent_tryCatch {A} (m h : M A) :
  silent m -> silent h -> silent (tryCatch m h).
Proof.
  intros Hm Hh w. unfold tryCatch. specialize (Hm w).
  destruct (m w) as [[a | e] w1]; simpl in *.
  - exact Hm.
  - destruct (Hh w1) as [Hc Hn]. destruct Hm as [Hm _].
    split; [congruence | exact Hn].
Qed.

Lemma silent_forEach {A} (xs : list A) (body : A -> M unit) :
  (forall x, silent (body x)) -> silent (forEach xs body).
Proof.
  intros Hb. induction xs as [|x xs IH]; simpl.
  - apply silent_ret.
  - apply silent_bind; [apply Hb | intros _; exact IH].
Qed.

(** A change of the tree throws what its operation throws, or [ENOENT]
    or [ENOTDIR] on the way to the directory. *)
Lemma update_plain (t : Z) (op : dir -> result (dir * bool)) :
  (forall d, op d <> Throw HookError) ->
  forall parent d, update t parent op d <> Throw HookError.
Proof.
  intros Hop. induction parent as [|x rest IH]; intros d; simpl.
  - apply Hop.
  - destruct (lookup x d) as [[? ? | m sub] |]; try discriminate.
    specialize (IH sub).
    destruct (update t rest op sub) as [[sub' touched] | e]; congruence.
Qed.

Lemma silent_mutate (parent : path) (op : Z -> dir -> result (dir * bool)) :
  (forall t d, op t d <> Throw HookError) -> silent (mutate parent op).
Proof.
  intros Hop w. unfold mutate.
  pose proof (update_plain (timeOf w) (op (timeOf w)) (Hop (timeOf w))
                parent (root w)) as Hu.
  destruct (update _ _ _ (root w)) as [[d b] | e]; simpl.
  - split; [reflexivity | discriminate].
  - split; [reflexivity | congruence].
Qed.

Ltac silent_leaf :=
  intros ?w;
  repeat match goal with
         | |- context [match ?x with _ => _ end] => destruct x
         end;
  (split; [reflexivity | discriminate]).

Lemma silent_stat (p : path) : silent (stat p).
Proof. unfold stat. silent_leaf. Qed.

Lemma silent_readdir (p : path) : silent (readdir p).
Proof. unfold readdir. silent_leaf. Qed.

Lemma silent_readStream (p : path) : silent (readStream p).
Proof. unfold readStream. silent_leaf. Qed.

Lemma silent_checkIfFileExists (p : path) : silent (checkIfFileExists p).
Proof.
  intros w. rewrite checkIfFileExists_run. split; [reflexivity | discriminate].
Qed.

Lemma silent_totalDirectorySize (p : path) : silent (totalDirectorySize p).
Proof. unfold totalDirectorySize. silent_leaf. Qed.

Lemma silent_dateNow : silent dateNow.
Proof. intros w. split; [reflexivity | discriminate]. Qed.

Ltac plain_op :=
  intros ?t ?d;
  repeat match goal with
         | |- context [match ?x with _ => _ end] => destruct x
         end;
  discriminate.

Lemma silent_writeFile (p : path) (content : list byte) : silent (writeFile p content).
Proof.
  unfold writeFile. destruct p.
  - intros w. split; [reflexivity | discriminate].
  - apply silent_mutate. plain_op.
Qed.

Lemma silent_streamWrite (p : path) (chunk : list byte) : silent (streamWrite p chunk).
Proof.
  unfold streamWrite. destruct p; [apply silent_ret |].
  apply silent_tryCatch; [| apply silent_ret]. apply silent_mutate. plain_op.
Qed.

Lemma silent_createWriteStream (p : path) : silent (createWriteStream p).
Proof.
  unfold createWriteStream. destruct p; [apply silent_ret |].
  apply silent_tryCatch; [| apply silent_ret]. apply silent_mutate. plain_op.
Qed.

Lemma silent_ensureDir (p : path) : silent (ensureDir p).
Proof.
  unfold ensureDir. destruct p; [apply silent_ret |].
  apply silent_mutate. plain_op.
Qed.

Lemma silent_remove (p : path) : silent (remove p).
Proof.
  intros w. unfold remove.
  destruct (resolve p (root w)); [| split; [reflexivity | discriminate]].
  apply silent_mutate. intros t d. discriminate.
Qed.

Create HintDb silent.

#[local] Hint Resolve silent_ret silent_stat silent_readdir silent_readStream
  silent_checkIfFileExists silent_totalDirectorySize silent_dateNow
  silent_writeFile silent_streamWrite silent_createWriteStream
  silent_ensureDir silent_remove : silent.

Ltac silent_step :=
  match goal with
  | |- silent (bind _ _) => apply silent_bind; [| intros ?]
  | |- silent (forEach _ _) => apply silent_forEach; intros ?
  | |- silent (if ?b then _ else _) => destruct b
  | |- silent (match ?x with _ => _ end) => destruct x
  | |- silent _ => solve [auto with silent]
  end.

Lemma silent_sendError (uploadDir : path) (msg : string) :
  silent (sendError uploadDir msg).
Proof. unfold sendError. repeat silent_step. Qed.

Lemma silent_storeChunk (uploadDir : path) (part total : nat) (uploadFile : File) :
  silent (storeChunk uploadDir part total uploadFile).
Proof. unfold storeChunk. repeat silent_step. Qed.

Lemma silent_assemble (uploadDir uploadFilePath : path) (files : list string) :
  silent (assemble uploadDir uploadFilePath files).
Proof. unfold assemble, copyChunk. repeat silent_step. Qed.

Lemma silent_deleteOldUploads (maxUploadTime : Z) :
  silent (deleteOldUploads [] maxUploadTime).
Proof. unfold deleteOldUploads, reapEntry. repeat silent_step. Qed.

Lemma afterHook_reached (hook : option (string -> nat -> HookEnd)) (id : string)
    (k : nat) :
  reachedHook (afterHook hook id k).
Proof.
  unfold reachedHook, afterHook.
  destruct hook as [h |]; [destruct (h id k) |]; auto.
Qed.

Lemma hooked_bind (hook : option (string -> nat -> HookEnd)) (id : string) {A}
    (m : M A) (k : A -> M outcome) :
  silent m -> (forall a, hooked hook id (k a)) -> hooked hook id (bind m k).
Proof.
  intros Hm Hk w. unfold bind. destruct (Hm w) as [Hc Hn].
  destruct (m w) as [[a | e] w1]; simpl in *.
  - rewrite <- Hc. apply Hk.
  - right. split; [| exact Hc].
    intros [H | H]; [discriminate |].
    apply Hn. inversion H. reflexivity.
Qed.

Lemma hooked_ret (hook : option (string -> nat -> HookEnd)) (id : string)
    (r : Reply) :
  r <> jsonFinished -> hooked hook id (ret (Respond r)).
Proof.
  intros Hr w. right. simpl. split; [| reflexivity].
  intros [H | H]; [congruence | discriminate].
Qed.

Lemma hooked_sendError (hook : option (string -> nat -> HookEnd)) (id : string)
    (uploadDir : path) (msg : string) :
  hooked hook id (sendError uploadDir msg).
Proof.
  intros w. right. destruct (silent_sendError uploadDir msg w) as [Hc Hn].
  split; [| exact Hc].
  intros [H | H]; [| contradiction].
  apply sendError_reply in H. discriminate.
Qed.

Lemma hooked_finishUpload (o : Settings) (uploadDir : path) (data : UploadInfo) :
  hooked (s_onFinished o) (uploadId data) (finishUpload o uploadDir data).
Proof.
  unfold finishUpload. apply hooked_bind; [auto with silent | intros files].
  destruct (missingChunk files (total data)); [apply hooked_sendError |].
  apply hooked_bind; [apply silent_assemble | intros _].
  intros w. left. exists (List.length files).
  rewrite callOnFinished_then_finished. split; reflexivity.
Qed.

Lemma hooked_handleChunk (o : Settings) (data : UploadInfo) (uploadFile : File) :
  hooked (s_onFinished o) (uploadId data) (handleChunk o data uploadFile).
Proof.
  unfold handleChunk.
  apply hooked_bind; [auto with silent | intros _].
  destruct (refused o uploadFile data); [apply hooked_sendError |].
  destruct (uploadSize data >? s_maxUploadSize o); [apply hooked_sendError |].
  apply hooked_bind; [auto with silent | intros dirSize].
  destruct (_ >? s_maxDirectorySize o); [apply hooked_sendError |].
  apply hooked_bind; [auto with silent | intros dirSize'].
  destruct (_ >? s_maxUploadSize o).
  { apply hooked_bind; [auto with silent | intros _]. apply hooked_sendError. }
  apply hooked_bind; [auto with silent | intros present].
  destruct present; [apply hooked_sendError |].
  apply hooked_bind; [apply silent_storeChunk | intros _].
  destruct (negb (part data =? total data)%nat).
  - apply hooked_ret. discriminate.
  - apply hooked_finishUpload.
Qed.

(** The ways in which [finishUpload] ends with a response. *)
Lemma finishUpload_cases (o : Settings) (data : UploadInfo) (w w' : world)
    (r : Reply) :
  let s := ("chunks_" ++ uploadId data)%string in
  finishUpload o (join [] s) data w = (Ok (Respond r), w') ->
  exists m es,
    lookup s (root w) = Some (Directory m es) /\
    ((exists i,
        missingChunk (names es) (total data) = Some i /\
        sendError (join [] s)
          ("Missing chunk " ++ string_of_nat i ++ ", upload failed") w
        = (Ok (Respond r), w')) \/
     (missingChunk (names es) (total data) = None /\
      r = jsonFinished /\
      lookup s (root w') = None /\
      match lookup (uploadId data) (root w) with
      | Some (Directory t sub) =>
          lookup (uploadId data) (root w') = Some (Directory t sub)
      | _ => exists t c, lookup (uploadId data) (root w') = Some (RegFile t c)
      end /\
      finishedCalls w' =
        finishedCalls w ++ callsOf (s_onFinished o) (uploadId data) (List.length es))).
Proof.
  intros s H. unfold finishUpload in H.
  apply bind_ok in H. destruct H as [files [w1 [Hread H]]].
  unfold readdir, join in Hread. simpl in Hread.
  destruct (lookup s (root w)) as [[t c | m es] |] eqn:Hs; try discriminate.
  inversion Hread; subst w1 files. clear Hread.
  exists m, es. split; [reflexivity |].
  destruct (missingChunk (names es) (total data)) as [i |] eqn:E.
  - left. exists i. auto.
  - right. split; [reflexivity |].
    apply bind_ok in H. destruct H as [[] [w2 [Hasm H]]].
    rewrite callOnFinished_then_finished in H.
    unfold names in H. rewrite length_map in H.
    destruct (assemble_ok _ _ _ _ _ (staging_name_differs _) Hasm) as [Hgone Hart].
    destruct (silent_assemble (join [] s) (join [] (uploadId data)) (names es) w)
      as [Hsilent _].
    rewrite Hasm in Hsilent. simpl in Hsilent.
    inversion H as [[Hend Hw']]. subst w'. cbn [root finishedCalls].
    rewrite Hsilent. repeat split; try assumption.
    unfold afterHook in Hend.
    destruct (s_onFinished o) as [h |]; [destruct (h _ _) |]; congruence.
Qed.

Lemma responds_bind {A} (m : M A) (k : A -> M outcome) :
  (forall a, responds (k a)) -> responds (bind m k).
Proof.
  intros Hk w x w' H. apply bind_ok in H. destruct H as [a [w1 [_ H]]].
  apply (Hk a w1 x w' H).
Qed.

Lemma responds_ret (r : Reply) : responds (ret (Respond r)).
Proof. intros w x w' H. unfold ret in H. inversion H. eauto. Qed.

Lemma responds_sendError (uploadDir : path) (msg : string) :
  responds (sendError uploadDir msg).
Proof. unfold sendError. apply responds_bind. intros _. apply responds_ret. Qed.

Lemma responds_handleChunk (o : Settings) (data : UploadInfo) (uploadFile : File) :
  responds (handleChunk o data uploadFile).
Proof.
  unfold handleChunk, finishUpload.
  repeat first
    [ apply responds_sendError
    | apply responds_ret
    | apply responds_bind; intros ?
    | match goal with
      | |- responds (if ?b then _ else _) => destruct b
      | |- responds (match ?x with _ => _ end) => destruct x
      end ].
Qed.

Lemma loadUploadFiles_gated_run (astro : Request)
    (options : LoadUploadFilesOptions) (w : world) :
  gated astro = true ->
  loadUploadFiles astro options w =
  bind (deleteOldUploads [] (s_maxUploadTime (settings options)))
       (fun _ => afterReaping astro options) w.
Proof. intros Hg. unfold loadUploadFiles. rewrite Hg. reflexivity. Qed.

(** ** Properties read off an answer *)

(** X1. [loadUploadFiles] returns [false] exactly for a request that is
    not a chunk submission of this component (not a POST, rejected by
    [validateFrom], or without the field [astroBigFileUpload] set to
    [true]); such a request leaves the world as it is: nothing is reaped,
    nothing is created. *)
Theorem unhandled_request_touches_nothing (astro : Request)
    (options : LoadUploadFilesOptions) (w : world) :
  (fst (loadUploadFiles astro options w) = Ok NotHandled <-> gated astro = false) /\
  (gated astro = false -> snd (loadUploadFiles astro options w) = w).
Proof.
  split; [split |].
  - intros H. destruct (loadUploadFiles astro options w) as [x w'] eqn:E.
    simpl in H. subst x.
    destruct (loadUploadFiles_cases _ _ _ _ _ E) as [[Hg _] | [_ [_ Hafter]]];
      [exact Hg |].
    exfalso. unfold afterReaping in Hafter.
    destruct (info astro) as [data |]; [destruct (file astro) as [uploadFile |] |].
    + apply responds_handleChunk in Hafter. destruct Hafter as [r Hr]. discriminate.
    + unfold ret in Hafter. discriminate.
    + unfold ret in Hafter. discriminate.
  - intros Hg. unfold loadUploadFiles. rewrite Hg. reflexivity.
  - intros Hg. unfold loadUploadFiles. rewrite Hg. reflexivity.
Qed.

(** X2. A gated request whose metadata or file is invalid is answered
    [Invalid request] after the reaping step: the world it leaves is the
    one the reaper left, so no staging directory and no marker is
    created for it. *)
Theorem invalid_request_only_reaps (astro : Request)
    (options : LoadUploadFilesOptions) (w : world) :
  gated astro = true ->
  unique (root w) ->
  info astro = None \/ file astro = None ->
  loadUploadFiles astro options w
  = (Ok (Respond (jsonError "Invalid request")),
     reaped (s_maxUploadTime (settings options)) w).
Proof.
  intros Hg Hu Hbad. rewrite (loadUploadFiles_gated _ _ _ Hg Hu).
  unfold afterReaping.
  destruct Hbad as [-> | Hfile].
  - reflexivity.
  - rewrite Hfile. destruct (info astro); reflexivity.
Qed.

Lemma invalid_request_only_reaps_witness :
  loadUploadFiles Sample.malformed Sample.defaults Sample.two_uploads
  = (Ok (Respond (jsonError "Invalid request")),
     reaped (s_maxUploadTime (settings Sample.defaults)) Sample.two_uploads).
Proof.
  apply (invalid_request_only_reaps Sample.malformed Sample.defaults
           Sample.two_uploads eq_refl sample_unique_two).
  left. reflexivity.
Defined.

(** X3. A part that is acknowledged with [{ok: true}] is not the last
    one, and its chunk file is in the staging directory of the upload
    when the call returns: it holds the bytes of the payload, or the bytes
    it already held after the reaping step. *)
Theorem acknowledged_part_is_stored (astro : Request)
    (options : LoadUploadFilesOptions) (w w' : world) :
  loadUploadFiles astro options w = (Ok (Respond jsonOk), w') ->
  exists data uploadFile t c,
    info astro = Some data /\
    file astro = Some uploadFile /\
    part data <> total data /\
    let chunkSavePath :=
      join (join [] ("chunks_" ++ uploadId data))
           (chunkName (part data) (total data)) in
    resolve chunkSavePath (root w') = Some (RegFile t c) /\
    (c = fileBytes uploadFile \/
     resolve chunkSavePath (root (reaped (s_maxUploadTime (settings options)) w))
       = Some (RegFile t c)).
Proof.
  intros H.
  destruct (loadUploadFiles_cases _ _ _ _ _ H) as [[_ [E _]] | [_ [_ Hafter]]];
    [discriminate |].
  destruct (afterReaping_cases _ _ _ _ _ Hafter)
    as [[E _] | [data [uploadFile [Hinfo [Hfile Hrun]]]]]; [discriminate |].
  exists data, uploadFile.
  destruct (handleChunk_cases _ _ _ _ _ _ Hrun)
    as [w1 [Hens [[msg [_ Hsend]] | [_ [w2 [Hstore Hend]]]]]].
  - apply sendError_ok in Hsend. destruct Hsend as [E _]. discriminate.
  - destruct Hend as [[Hpart [_ ->]] | [_ Hfin]].
    + destruct (storeChunk_ok _ _ _ _ _ _ Hstore) as [t [c [Hnow Hwas]]].
      exists t, c. repeat split; try assumption.
      destruct Hwas as [-> | Hwas]; [left; reflexivity | right].
      rewrite <- (ensureDir_top_resolve _ _ _ _ Hens). exact Hwas.
    + exfalso.
      destruct (finishUpload_cases _ _ _ _ _ Hfin)
        as [m [es [_ [[i [_ Hsend]] | [_ [E _]]]]]].
      * apply sendError_ok in Hsend. destruct Hsend as [E _]. discriminate.
      * discriminate.
Qed.

Lemma acknowledged_part_is_stored_witness :
  exists data uploadFile t c,
    info Sample.part_two = Some data /\
    file Sample.part_two = Some uploadFile /\
    part data <> total data /\
    let chunkSavePath :=
      join (join [] ("chunks_" ++ uploadId data))
           (chunkName (part data) (total data)) in
    resolve chunkSavePath (root (Sample.after Sample.part_two Sample.fresh))
      = Some (RegFile t c) /\
    (c = fileBytes uploadFile \/
     resolve chunkSavePath
       (root (reaped (s_maxUploadTime (settings Sample.defaults)) Sample.fresh))
       = Some (RegFile t c)).
Proof.
  apply (acknowledged_part_is_stored Sample.part_two Sample.defaults Sample.fresh
           (Sample.after Sample.part_two Sample.fresh)).
  vm_compute. reflexivity.
Defined.

(** X4. A submission is accepted, that is answered with [ok: true], only
    when it passed the four quota checks on the staging root that the
    reaper left: the predicate did not refuse it, its declared size is
    within the per-upload maximum, and the aggregate size plus the larger
    of declared and actual size, and plus the declared size, are within
    the two maxima. *)
Theorem accepted_submission_respects_quotas (astro : Request)
    (options : LoadUploadFilesOptions) (w w' : world) (r : Reply) :
  loadUploadFiles astro options w = (Ok (Respond r), w') ->
  ok r = true ->
  exists data uploadFile,
    info astro = Some data /\
    file astro = Some uploadFile /\
    admitted (settings options) data uploadFile
      (directorySize (root (reaped (s_maxUploadTime (settings options)) w))).
Proof.
  intros H Hok.
  destruct (loadUploadFiles_cases _ _ _ _ _ H) as [[_ [E _]] | [_ [_ Hafter]]];
    [discriminate |].
  destruct (afterReaping_cases _ _ _ _ _ Hafter)
    as [[E _] | [data [uploadFile [Hinfo [Hfile Hrun]]]]].
  { subst r. discriminate. }
  exists data, uploadFile. split; [exact Hinfo | split; [exact Hfile |]].
  destruct (handleChunk_cases _ _ _ _ _ _ Hrun)
    as [w1 [_ [[msg [_ Hsend]] | [Hadm _]]]].
  - apply sendError_ok in Hsend. destruct Hsend as [E _].
    inversion E; subst r. discriminate.
  - exact Hadm.
Qed.

Lemma accepted_submission_respects_quotas_witness :
  exists data uploadFile,
    info Sample.part_two = Some data /\
    file Sample.part_two = Some uploadFile /\
    admitted (settings Sample.defaults) data uploadFile
      (directorySize
         (root (reaped (s_maxUploadTime (settings Sample.defaults)) Sample.fresh))).
Proof.
  apply (accepted_submission_respects_quotas Sample.part_two Sample.defaults
           Sample.fresh (Sample.after Sample.part_two Sample.fresh) jsonOk).
  - vm_compute. reflexivity.
  - reflexivity.
Defined.

(** X5. Every rejection other than [Invalid request] is recorded: when
    [loadUploadFiles] answers [{ok: false, error: msg}], the staging
    directory of the upload exists afterwards and its file [error.txt]
    holds exactly the bytes of [msg]. *)
Theorem rejection_leaves_marker (astro : Request)
    (options : LoadUploadFilesOptions) (w w' : world) (msg : string) :
  loadUploadFiles astro options w = (Ok (Respond (jsonError msg)), w') ->
  msg <> "Invalid request" ->
  exists data t,
    info astro = Some data /\
    resolve (join (join [] ("chunks_" ++ uploadId data)) "error.txt") (root w')
      = Some (RegFile t (list_byte_of_string msg)).
Proof.
  intros H Hmsg.
  destruct (loadUploadFiles_cases _ _ _ _ _ H) as [[_ [E _]] | [_ [_ Hafter]]];
    [discriminate |].
  destruct (afterReaping_cases _ _ _ _ _ Hafter)
    as [[E _] | [data [uploadFile [Hinfo [_ Hrun]]]]].
  { inversion E. contradiction. }
  exists data.
  assert (Hsent : forall m0 w0,
            sendError (join [] ("chunks_" ++ uploadId data)) m0 w0
              = (Ok (Respond (jsonError msg)), w') ->
            exists t,
              resolve (join (join [] ("chunks_" ++ uploadId data)) "error.txt")
                (root w') = Some (RegFile t (list_byte_of_string msg))).
  { intros m0 w0 Hsend. apply sendError_ok in Hsend.
    destruct Hsend as [E [Hmarker _]]. inversion E; subst m0. eauto. }
  destruct (handleChunk_cases _ _ _ _ _ _ Hrun)
    as [w1 [_ [[m0 [_ Hsend]] | [_ [w2 [_ Hend]]]]]].
  - destruct (Hsent _ _ Hsend) as [t Ht]. exists t. auto.
  - destruct Hend as [[_ [E _]] | [_ Hfin]]; [discriminate |].
    destruct (finishUpload_cases _ _ _ _ _ Hfin)
      as [m [es [_ [[i [_ Hsend]] | [_ [E _]]]]]]; [| discriminate].
    destruct (Hsent _ _ Hsend) as [t Ht]. exists t. auto.
Qed.

Lemma rejection_leaves_marker_witness :
  exists data t,
    info Sample.oversized = Some data /\
    resolve (join (join [] ("chunks_" ++ uploadId data)) "error.txt")
      (root (Sample.after Sample.oversized Sample.fresh))
      = Some (RegFile t (list_byte_of_string "File size exceeded")).
Proof.
  apply (rejection_leaves_marker Sample.oversized Sample.defaults Sample.fresh
           (Sample.after Sample.oversized Sample.fresh) "File size exceeded").
  - vm_compute. reflexivity.
  - discriminate.
Defined.

(** X6. The completeness check never lets an incomplete upload through:
    when [finishUpload] answers [finished], every index of [1..total] had
    its chunk name in the listing of the staging directory, and afterwards
    the staging directory is gone. The path of the artifact then holds a
    regular file, unless a directory was at that path: the stream could
    not be opened, nothing was written, and the directory is still there
    as it was. *)
Theorem finished_only_when_complete (o : Settings) (data : UploadInfo)
    (w w' : world) :
  let s := ("chunks_" ++ uploadId data)%string in
  finishUpload o (join [] s) data w = (Ok (Respond jsonFinished), w') ->
  exists m es,
    lookup s (root w) = Some (Directory m es) /\
    (forall i, (1 <= i <= total data)%nat ->
       In (chunkName i (total data)) (names es)) /\
    lookup s (root w') = None /\
    match lookup (uploadId data) (root w) with
    | Some (Directory t sub) =>
        lookup (uploadId data) (root w') = Some (Directory t sub)
    | _ => exists t c, lookup (uploadId data) (root w') = Some (RegFile t c)
    end.
Proof.
  intros s H.
  destruct (finishUpload_cases _ _ _ _ _ H)
    as [m [es [Hs [[i [_ Hsend]] | [Hnone [_ [Hgone [Hart _]]]]]]]].
  - apply sendError_ok in Hsend. destruct Hsend as [E _]. discriminate.
  - exists m, es. split; [exact Hs | split; [| split; [exact Hgone | exact Hart]]].
    apply (proj1 (missingChunk_None _ _) Hnone).
Qed.

Lemma finished_only_when_complete_witness :
  (exists m es,
     lookup Sample.chunks_U (root Sample.marker_after_chunks)
       = Some (Directory m es) /\
     (forall i, (1 <= i <= 2)%nat -> In (chunkName i 2) (names es)) /\
     lookup Sample.chunks_U
       (root (snd (finishUpload (settings Sample.defaults) (join [] Sample.chunks_U)
                     (mkInfo Sample.U 4 2 2) Sample.marker_after_chunks)))
       = None /\
     exists t c,
       lookup Sample.U
         (root (snd (finishUpload (settings Sample.defaults)
                       (join [] Sample.chunks_U) (mkInfo Sample.U 4 2 2)
                       Sample.marker_after_chunks)))
       = Some (RegFile t c)) /\
  (exists m es,
     lookup Sample.chunks_U (root Sample.staged_beside_directory)
       = Some (Directory m es) /\
     (forall i, (1 <= i <= 1)%nat -> In (chunkName i 1) (names es)) /\
     lookup Sample.chunks_U
       (root (snd (finishUpload (settings Sample.defaults) (join [] Sample.chunks_U)
                     (mkInfo Sample.U 2 1 1) Sample.staged_beside_directory)))
       = None /\
     lookup Sample.U
       (root (snd (finishUpload (settings Sample.defaults)
                     (join [] Sample.chunks_U) (mkInfo Sample.U 2 1 1)
                     Sample.staged_beside_directory)))
     = Some (Directory 5 [])).
Proof.
  split.
  - apply (finished_only_when_complete (settings Sample.defaults)
             (mkInfo Sample.U 4 2 2) Sample.marker_after_chunks).
    vm_compute. reflexivity.
  - apply (finished_only_when_complete (settings Sample.defaults)
             (mkInfo Sample.U 2 1 1) Sample.staged_beside_directory).
    vm_compute. reflexivity.
Defined.

(** Up to the completeness check, a submission leaves the path of the
    artifact as it found it. *)
Lemma artifact_untouched_by_store (id : string) (part total : nat)
    (uploadFile : File) (w w1 w2 : world) :
  ensureDir (join [] ("chunks_" ++ id)) w = (Ok tt, w1) ->
  storeChunk (join [] ("chunks_" ++ id)) part total uploadFile w1 = (Ok tt, w2) ->
  lookup id (root w2) = lookup id (root w).
Proof.
  intros Hens Hstore.
  set (s := ("chunks_" ++ id)%string) in *.
  assert (Hne : ~ s = id) by apply staging_name_differs.
  pose proof (confined_storeChunk (eq s) s part total uploadFile eq_refl w1 id Hne)
    as H2.
  pose proof (confined_ensureDir (eq s) s [] eq_refl w id Hne) as H1.
  unfold join in *. simpl in *. rewrite Hstore in H2. rewrite Hens in H1.
  simpl in H1, H2. congruence.
Qed.

(** X7. [loadUploadFiles] answers [finished] only to a submission with
    [part == total], and when it does the staging directory of the upload
    is gone. The path [tempDirectory/uploadId] of the artifact then holds
    a regular file, unless a directory was at that path after the reaping
    step: the submission is answered [finished] all the same, the chunks
    are removed, and the directory is still there as it was. *)
Theorem finished_answer_means_artifact (astro : Request)
    (options : LoadUploadFilesOptions) (w w' : world) :
  loadUploadFiles astro options w = (Ok (Respond jsonFinished), w') ->
  exists data,
    info astro = Some data /\
    part data = total data /\
    resolve (join [] ("chunks_" ++ uploadId data)) (root w') = None /\
    match resolve (join [] (uploadId data))
            (root (reaped (s_maxUploadTime (settings options)) w)) with
    | Some (Directory t sub) =>
        resolve (join [] (uploadId data)) (root w') = Some (Directory t sub)
    | _ =>
        exists t c,
          resolve (join [] (uploadId data)) (root w') = Some (RegFile t c)
    end.
Proof.
  intros H.
  destruct (loadUploadFiles_cases _ _ _ _ _ H) as [[_ [E _]] | [_ [_ Hafter]]];
    [discriminate |].
  destruct (afterReaping_cases _ _ _ _ _ Hafter)
    as [[E _] | [data [uploadFile [Hinfo [_ Hrun]]]]]; [discriminate |].
  exists data.
  destruct (handleChunk_cases _ _ _ _ _ _ Hrun)
    as [w1 [Hens [[m0 [_ Hsend]] | [_ [w2 [Hstore Hend]]]]]].
  - apply sendError_ok in Hsend. destruct Hsend as [E _]. discriminate.
  - destruct Hend as [[_ [E _]] | [Hpart Hfin]]; [discriminate |].
    destruct (finishUpload_cases _ _ _ _ _ Hfin)
      as [m [es [_ [[i [_ Hsend]] | [_ [_ [Hgone [Hart _]]]]]]]].
    + apply sendError_ok in Hsend. destruct Hsend as [E _]. discriminate.
    + rewrite (artifact_untouched_by_store _ _ _ _ _ _ _ Hens Hstore) in Hart.
      rewrite !resolve_one. auto.
Qed.

Lemma finished_answer_means_artifact_witness :
  (exists data,
     info Sample.only_part = Some data /\
     part data = total data /\
     resolve (join [] ("chunks_" ++ uploadId data))
       (root (Sample.after Sample.only_part Sample.fresh)) = None /\
     exists t c,
       resolve (join [] (uploadId data))
         (root (Sample.after Sample.only_part Sample.fresh))
       = Some (RegFile t c)) /\
  (exists data,
     info Sample.only_part = Some data /\
     part data = total data /\
     resolve (join [] ("chunks_" ++ uploadId data))
       (root (Sample.after Sample.only_part Sample.directory_at_artifact)) = None /\
     resolve (join [] (uploadId data))
       (root (Sample.after Sample.only_part Sample.directory_at_artifact))
     = Some (Directory 5 [])).
Proof.
  split.
  - apply (finished_answer_means_artifact Sample.only_part Sample.defaults
             Sample.fresh (Sample.after Sample.only_part Sample.fresh)).
    vm_compute. reflexivity.
  - destruct (finished_answer_means_artifact Sample.only_part Sample.defaults
                Sample.directory_at_artifact
                (Sample.after Sample.only_part Sample.directory_at_artifact))
      as [data [Hinfo [Hpart [Hgone Hart]]]].
    + vm_compute. reflexivity.
    + exists data. split; [exact Hinfo | split; [exact Hpart | split; [exact Hgone |]]].
      injection Hinfo as Hdata. subst data. exact Hart.
Defined.

(** X8. The hook [onFinished] is called exactly by the submissions that
    get as far as line 134: those that are answered [finished], and those
    that throw what the hook threw. Such a submission calls the hook once,
    after the assembly, with the identifier of the upload, and ends as the
    hook ends. A submission that is rejected, acknowledged or not handled,
    or that throws from a file-system call, makes no call. *)
Theorem hook_called_only_on_finish (astro : Request)
    (options : LoadUploadFilesOptions) (w : world) :
  let run := loadUploadFiles astro options w in
  (reachedHook (fst run) ->
   exists data k,
     info astro = Some data /\
     fst run = afterHook (onFinished options) (uploadId data) k /\
     finishedCalls (snd run) =
       finishedCalls w ++ callsOf (onFinished options) (uploadId data) k) /\
  (~ reachedHook (fst run) ->
   finishedCalls (snd run) = finishedCalls w) /\
  (forall e, fst run = Throw e -> e <> HookError ->
   finishedCalls (snd run) = finishedCalls w).
Proof.
  intros run.
  assert (Hmain :
    (reachedHook (fst run) ->
     exists data k,
       info astro = Some data /\
       fst run = afterHook (onFinished options) (uploadId data) k /\
       finishedCalls (snd run) =
         finishedCalls w ++ callsOf (onFinished options) (uploadId data) k) /\
    (~ reachedHook (fst run) -> finishedCalls (snd run) = finishedCalls w)).
  { unfold run. destruct (gated astro) eqn:Hg.
    2:{ unfold loadUploadFiles. rewrite Hg. simpl.
        split; [intros [H | H]; discriminate | reflexivity]. }
    rewrite (loadUploadFiles_gated_run _ _ _ Hg).
    destruct (silent_deleteOldUploads (s_maxUploadTime (settings options)) w)
      as [Hq Hplain].
    unfold bind.
    destruct (deleteOldUploads [] (s_maxUploadTime (settings options)) w)
      as [[[] | e] w0]; simpl in Hq, Hplain.
    2:{ simpl. split; [| intros _; exact Hq].
        intros [H | H]; [discriminate |].
        exfalso. apply Hplain. inversion H. reflexivity. }
    unfold afterReaping.
    destruct (info astro) as [data |]; [destruct (file astro) as [uploadFile |] |].
    - destruct (hooked_handleChunk (settings options) data uploadFile w0)
        as [[k [Hend Hk]] | [Hnot Hsame]].
      + split.
        * intros _. exists data, k. split; [reflexivity |].
          split; [exact Hend |]. rewrite Hk, Hq. reflexivity.
        * intros Hn. exfalso. apply Hn. rewrite Hend. apply afterHook_reached.
      + split; [intros Hf; contradiction |].
        intros _. rewrite Hsame. exact Hq.
    - simpl. split; [intros [H | H]; discriminate | intros _; exact Hq].
    - simpl. split; [intros [H | H]; discriminate | intros _; exact Hq]. }
  destruct Hmain as [H1 H2]. split; [exact H1 | split; [exact H2 |]].
  intros e He Hne. apply H2. rewrite He.
  intros [H | H]; [discriminate |]. apply Hne. inversion H. reflexivity.
Qed.

(** X9. A submission for an upload changes, directly under the staging
    root, only the staging directory and the artifact of that upload:
    every other entry is as the reaper left it, whether the call returns
    or throws. *)
Theorem submission_stays_within_its_upload (astro : Request)
    (options : LoadUploadFilesOptions) (w : world) (data : UploadInfo)
    (other : string) :
  info astro = Some data ->
  other <> ("chunks_" ++ uploadId data)%string ->
  other <> uploadId data ->
  lookup other (root (snd (loadUploadFiles astro options w))) =
  lookup other
    (root (if gated astro
           then reaped (s_maxUploadTime (settings options)) w
           else w)).
Proof.
  intros Hinfo Hs Hid.
  destruct (gated astro) eqn:Hg.
  2:{ unfold loadUploadFiles. rewrite Hg. reflexivity. }
  rewrite (loadUploadFiles_gated_run _ _ _ Hg).
  unfold bind, reaped.
  destruct (deleteOldUploads [] (s_maxUploadTime (settings options)) w)
    as [[[] | e] w0]; simpl; [| reflexivity].
  unfold afterReaping. rewrite Hinfo.
  destruct (file astro) as [uploadFile |]; [| reflexivity].
  apply confined_handleChunk. unfold ownNames. tauto.
Qed.

Lemma submission_stays_within_its_upload_witness :
  lookup ("chunks_" ++ Sample.W)
    (root (snd (loadUploadFiles Sample.part_two Sample.defaults Sample.two_uploads)))
  = lookup ("chunks_" ++ Sample.W)
      (root (reaped (s_maxUploadTime (settings Sample.defaults)) Sample.two_uploads)).
Proof.
  apply (submission_stays_within_its_upload Sample.part_two Sample.defaults
           Sample.two_uploads (mkInfo Sample.U 6 2 3) ("chunks_" ++ Sample.W)).
  - reflexivity.
  - vm_compute. discriminate.
  - vm_compute. discriminate.
Defined.

(** ** The names of the chunk files *)

(** X10. The name of a chunk file determines its key: two chunk names
    are equal exactly when both the part index and the declared total are
    equal, so chunks submitted under different keys never share a file. *)
Theorem chunk_name_determines_key (part total part' total' : nat) :
  chunkName part total = chunkName part' total' <->
  part = part' /\ total = total'.
Proof.
  split.
  - apply chunk_key_of_name.
  - intros [-> ->]. reflexivity.
Qed.

Lemma writeFile_staging_frame (s name other : string) (content : list byte)
    (w w' : world) :
  writeFile (join (join [] s) name) content w = (Ok tt, w') ->
  String.eqb other name = false ->
  resolve (join (join [] s) other) (root w')
  = resolve (join (join [] s) other) (root w).
Proof.
  intros H Hne. apply String.eqb_neq in Hne. revert H.
  rewrite !resolve_two. unfold writeFile, join, mutate. simpl.
  destruct (lookup s (root w)) as [[t c | m es] |] eqn:Hs; try discriminate.
  destruct (lookup name es) as [[t c | t sub] |] eqn:Hn; try discriminate;
    intros H; inversion H; subst; clear H; rewrite root_setRoot;
    rewrite lookup_replace_same by congruence.
  - apply lookup_replace_other. congruence.
  - apply lookup_insert_other. exact Hne.
Qed.

(** X11. The marker and the chunks never share a file: no chunk name is
    [error.txt], so recording a rejection leaves every chunk file of the
    staging directory as it is, and storing a chunk leaves the marker as
    it is. *)
Theorem marker_and_chunks_are_apart (part total : nat) :
  String.eqb (chunkName part total) "error.txt" = false /\
  (forall s msg w w' x,
     sendError (join [] s) msg w = (Ok x, w') ->
     resolve (join (join [] s) (chunkName part total)) (root w')
     = resolve (join (join [] s) (chunkName part total)) (root w)) /\
  (forall s uploadFile w w',
     storeChunk (join [] s) part total uploadFile w = (Ok tt, w') ->
     resolve (join (join [] s) "error.txt") (root w')
     = resolve (join (join [] s) "error.txt") (root w)).
Proof.
  split; [apply chunkName_not_marker | split].
  - intros s msg w w' x H. unfold sendError in H.
    apply bind_ok in H. destruct H as [[] [w1 [Hwrite H]]].
    unfold ret in H. inversion H; subst.
    apply (writeFile_staging_frame _ _ _ _ _ _ Hwrite).
    apply chunkName_not_marker.
  - intros s uploadFile w w' H. unfold storeChunk in H.
    rewrite (bind_run _ _ _ _ _ (checkIfFileExists_run _ w)) in H.
    destruct (negb _).
    + apply (writeFile_staging_frame _ _ _ _ _ _ H).
      rewrite String.eqb_sym. apply chunkName_not_marker.
    + unfold ret in H. inversion H. reflexivity.
Qed.

(** ** The reaper, entry by entry *)

Lemma lookup_app_gen (d1 d2 : dir) (name : string) :
  lookup name (d1 ++ d2) =
  match lookup name d1 with
  | Some x => Some x
  | None => lookup name d2
  end.
Proof.
  induction d1 as [|[k n] d1 IH]; simpl.
  - reflexivity.
  - destruct (String.eqb k name); [reflexivity | exact IH].
Qed.

Lemma delete_app (d1 d2 : dir) (k : string) :
  delete k (d1 ++ d2) = delete k d1 ++ delete k d2.
Proof. unfold delete. apply filter_app. Qed.

Lemma reap_loop_listing (maxUploadTime : Z) (ck : nat -> Z)
    (fc : list (string * nat)) :
  forall (suf pre : dir) (tk : nat),
    unique (pre ++ suf) ->
    forEach (names suf) (reapEntry [] maxUploadTime) (World (pre ++ suf) tk ck fc)
    = (Ok tt,
       World (pre ++ survivors maxUploadTime ck tk suf)
             (tk + List.length suf) ck fc).
Proof.
  induction suf as [|[k0 n0] suf IH]; intros pre tk Hu.
  - simpl. rewrite Nat.add_0_r. reflexivity.
  - assert (Hparts : ~ In k0 (names pre) /\ ~ In k0 (names suf)).
    { unfold unique, names in Hu. rewrite map_app in Hu. simpl in Hu.
      apply NoDup_remove_2 in Hu. split; intros H; apply Hu; apply in_or_app; auto. }
    destruct Hparts as [Hpre Hsuf].
    assert (Hk0 : lookup k0 (pre ++ (k0, n0) :: suf) = Some n0).
    { rewrite lookup_app_gen. rewrite (proj2 (lookup_None pre k0) Hpre).
      simpl. rewrite String.eqb_refl. reflexivity. }
    simpl survivors. simpl names. simpl forEach.
    destruct (ck tk - mtimeOf n0 >? maxUploadTime) eqn:Hold.
    + assert (Hstep : reapEntry [] maxUploadTime k0
                        (World (pre ++ (k0, n0) :: suf) tk ck fc)
                      = (Ok tt, World (pre ++ suf) (S tk) ck fc)).
      { unfold reapEntry, bind, stat, dateNow, timeOf. simpl.
        rewrite Hk0. simpl. rewrite mtime_statsOf, Hold.
        rewrite remove_top. unfold setRoot. simpl.
        rewrite delete_app. simpl. rewrite String.eqb_refl. simpl.
        rewrite !delete_absent by assumption. reflexivity. }
      rewrite (bind_run _ _ _ _ _ Hstep). rewrite IH.
      * replace (S tk + List.length suf)%nat
          with (tk + List.length ((k0, n0) :: suf))%nat by (simpl; lia).
        reflexivity.
      * unfold unique, names in *. rewrite map_app in *. simpl in Hu.
        apply NoDup_remove_1 in Hu. exact Hu.
    + assert (Hstep : reapEntry [] maxUploadTime k0
                        (World (pre ++ (k0, n0) :: suf) tk ck fc)
                      = (Ok tt, World ((pre ++ [(k0, n0)]) ++ suf) (S tk) ck fc)).
      { unfold reapEntry, bind, stat, dateNow, timeOf. simpl.
        rewrite Hk0. simpl. rewrite mtime_statsOf, Hold.
        rewrite <- app_assoc. reflexivity. }
      rewrite (bind_run _ _ _ _ _ Hstep). rewrite IH.
      * rewrite <- app_assoc.
        replace (S tk + List.length suf)%nat
          with (tk + List.length ((k0, n0) :: suf))%nat by (simpl; lia).
        reflexivity.
      * rewrite <- app_assoc. exact Hu.
Qed.

(** X12. The reaper is a filter of the listing of the staging root: it
    returns, it reads the clock once per entry, and it leaves exactly the
    entries that are not older than [maxUploadTime] at their reading, in
    the order in which they were listed; the calls of the hook are not
    touched. *)
Theorem reaper_filters_the_listing (maxUploadTime : Z) (w : world) :
  unique (root w) ->
  deleteOldUploads [] maxUploadTime w
  = (Ok tt,
     World (survivors maxUploadTime (clock w) (tick w) (root w))
           (tick w + List.length (root w)) (clock w) (finishedCalls w)).
Proof.
  intros Hu. destruct w as [r tk ck fc]. simpl in *.
  unfold deleteOldUploads. unfold bind at 1. unfold readdir. simpl.
  apply (reap_loop_listing maxUploadTime ck fc r [] tk). exact Hu.
Qed.

Lemma reaper_filters_the_listing_witness :
  deleteOldUploads [] 5400000 Sample.two_uploads
  = (Ok tt,
     World [(("chunks_" ++ Sample.W)%string,
             Directory 1000000 [("1-3", RegFile 1000000 (Sample.bytes "y"))])]
           2 (Sample.at_time 6000000) []).
Proof.
  exact (reaper_filters_the_listing 5400000 Sample.two_uploads sample_unique_two).
Defined.

(** X13. The duplicate guard lasts as long as the artifact: the artifact
    lies directly under the staging root, so once it is older than
    [maxUploadTime] the reaper of the next submission removes it, and a
    submission for the same identifier is then not answered [Upload
    already exists]. *)
Theorem duplicate_guard_expires_with_artifact (astro : Request)
    (options : LoadUploadFilesOptions) (w : world) (data : UploadInfo)
    (j : nat) (n : node) :
  let maxAge := s_maxUploadTime (settings options) in
  unique (root w) ->
  info astro = Some data ->
  nth_error (root w) j = Some (uploadId data, n) ->
  clock w (tick w + j)%nat - mtimeOf n > maxAge ->
  lookup (uploadId data) (root (reaped maxAge w)) = None /\
  fst (loadUploadFiles astro options w)
    <> Ok (Respond (jsonError "Upload already exists")).
Proof.
  intros maxAge Hu Hinfo Hj Hold.
  assert (Hgone : lookup (uploadId data) (root (reaped maxAge w)) = None).
  { destruct (reaped_root maxAge w Hu) as [_ Hin].
    rewrite (Hin j _ _ Hj). rewrite (gtb_true _ _ Hold). reflexivity. }
  split; [exact Hgone |].
  intros Hreply.
  destruct (gated astro) eqn:Hg.
  - rewrite (loadUploadFiles_gated _ _ _ Hg Hu) in Hreply.
    unfold afterReaping in Hreply. rewrite Hinfo in Hreply.
    destruct (file astro) as [uploadFile |].
    + apply handleChunk_already_exists in Hreply.
      destruct Hreply as [t [c Hreg]]. fold maxAge in Hreg. congruence.
    + simpl in Hreply. discriminate.
  - unfold loadUploadFiles in Hreply. rewrite Hg in Hreply.
    simpl in Hreply. discriminate.
Qed.

Lemma sample_unique_stale : unique (root Sample.stale_artifact).
Proof.
  unfold unique. simpl. repeat constructor; simpl; intuition discriminate.
Defined.

Lemma duplicate_guard_expires_with_artifact_witness :
  lookup Sample.U
    (root (reaped (s_maxUploadTime (settings Sample.defaults)) Sample.stale_artifact))
    = None /\
  fst (loadUploadFiles Sample.only_part Sample.defaults Sample.stale_artifact)
    <> Ok (Respond (jsonError "Upload already exists")).
Proof.
  apply (duplicate_guard_expires_with_artifact Sample.only_part Sample.defaults
           Sample.stale_artifact (mkInfo Sample.U 2 1 1) 0
           (RegFile 0 (Sample.bytes "AB")) sample_unique_stale eq_refl eq_refl).
  vm_compute. reflexivity.
Defined.

(** X14. Every submission leaves a staging root of the shape it found:
    the names directly under the root are distinct, and every directory
    under it holds regular files under distinct names. *)
Theorem staging_shape_is_invariant (astro : Request)
    (options : LoadUploadFilesOptions) (w : world) :
  shaped (root w) ->
  shaped (root (snd (loadUploadFiles astro options w))).
Proof. apply loadUploadFiles_keeps_shape. Qed.

Lemma staging_shape_is_invariant_witness :
  shaped (root (snd (loadUploadFiles Sample.part_two Sample.defaults Sample.fresh))).
Proof.
  apply (staging_shape_is_invariant Sample.part_two Sample.defaults Sample.fresh).
  split; [constructor | intros k n []].
Defined.

(** ** The aggregate size *)

(** X15. The aggregate size that [totalDirectorySize] computes does not
    depend on the order in which a directory lists its entries. *)
Theorem aggregate_size_ignores_listing_order (d1 d2 : dir) :
  Permutation d1 d2 -> directorySize d1 = directorySize d2.
Proof.
  induction 1 as [| [k x] d1 d2 _ IH | [k x] [k' x'] d | d1 d2 d3 _ IH1 _ IH2].
  - reflexivity.
  - rewrite !directorySize_cons, IH. reflexivity.
  - rewrite !directorySize_cons. lia.
  - congruence.
Qed.

Lemma aggregate_size_ignores_listing_order_witness :
  directorySize (root Sample.two_uploads)
  = directorySize (rev (root Sample.two_uploads)).
Proof.
  apply (aggregate_size_ignores_listing_order
           (root Sample.two_uploads) (rev (root Sample.two_uploads))).
  apply Permutation_rev.
Defined.

Lemma directorySize_replace (d : dir) (k : string) (old n : node) :
  lookup k d = Some old ->
  directorySize (replace k n d) = directorySize d - sizeBelow old + sizeBelow n.
Proof.
  induction d as [|[k0 n0] d IH]; simpl; intros H.
  - discriminate.
  - destruct (String.eqb k0 k).
    + inversion H; subst. rewrite !directorySize_cons. lia.
    + rewrite !directorySize_cons, (IH H). lia.
Qed.

(** X16. Storing a chunk that is not yet in the staging directory raises
    the aggregate size of the staging root by exactly the number of bytes
    of the payload, whatever size the submission declares. *)
Theorem stored_chunk_counts_its_bytes (s : string) (part total : nat)
    (uploadFile : File) (w : world) (m : Z) (es : dir) :
  lookup s (root w) = Some (Directory m es) ->
  lookup (chunkName part total) es = None ->
  exists w',
    storeChunk (join [] s) part total uploadFile w = (Ok tt, w') /\
    resolve (join (join [] s) (chunkName part total)) (root w')
      = Some (RegFile (timeOf w) (fileBytes uploadFile)) /\
    directorySize (root w') = directorySize (root w) + fileSize uploadFile.
Proof.
  intros Hs Hn. unfold storeChunk.
  rewrite (bind_run _ _ _ _ _ (checkIfFileExists_run _ w)).
  rewrite resolve_two, Hs, Hn. simpl negb. cbv iota.
  unfold writeFile, join, mutate. simpl. rewrite Hs, Hn.
  eexists. split; [reflexivity |]. rewrite root_setRoot. split.
  - rewrite lookup_replace_same by congruence.
    apply lookup_insert_same. exact Hn.
  - rewrite (directorySize_replace _ _ _ _ Hs).
    change (sizeBelow (Directory m es)) with (directorySize es).
    change (sizeBelow (Directory (timeOf w)
                         (insert (chunkName part total)
                            (RegFile (timeOf w) (fileBytes uploadFile)) es)))
      with (directorySize (insert (chunkName part total)
                             (RegFile (timeOf w) (fileBytes uploadFile)) es)).
    rewrite directorySize_insert. unfold fileSize. simpl. lia.
Qed.

Lemma stored_chunk_counts_its_bytes_witness :
  exists w',
    storeChunk (join [] Sample.chunks_U) 2 2 (mkFile "blob" (Sample.bytes "BB"))
      Sample.one_chunk_stored = (Ok tt, w') /\
    resolve (join (join [] Sample.chunks_U) (chunkName 2 2)) (root w')
      = Some (RegFile 10 (Sample.bytes "BB")) /\
    directorySize (root w') = directorySize (root Sample.one_chunk_stored) + 2.
Proof.
  apply (stored_chunk_counts_its_bytes Sample.chunks_U 2 2
           (mkFile "blob" (Sample.bytes "BB")) Sample.one_chunk_stored 5
           [("1-2", RegFile 5 (Sample.bytes "A"))]).
  - reflexivity.
  - reflexivity.
Defined.

Lemma directorySize_flat (es : dir) :
  flat es -> directorySize es = Z.of_nat (List.length (List.concat (contents es))).
Proof.
  induction es as [|[k n] es IH]; intros Hflat.
  - reflexivity.
  - rewrite directorySize_cons. simpl. rewrite length_app, Nat2Z.inj_add.
    rewrite <- IH.
    + destruct (Hflat k n (or_introl eq_refl)) as [t [c ->]]. reflexivity.
    + intros k' n' Hin. apply (Hflat k' n'). right. exact Hin.
Qed.

(** X17. The artifact has the size of what was staged: when a finishing
    submission assembles a staging directory of regular files, the number
    of bytes of the artifact is the aggregate size of that directory. The
    answer is [finished], unless the hook throws. *)
Theorem artifact_size_is_staged_size (o : Settings) (data : UploadInfo)
    (w : world) (m : Z) (es : dir) :
  let uploadDir := join [] ("chunks_" ++ uploadId data) in
  let uploadFilePath := join [] (uploadId data) in
  resolve uploadDir (root w) = Some (Directory m es) ->
  unique es ->
  flat es ->
  resolve uploadFilePath (root w) = None ->
  missingChunk (names es) (total data) = None ->
  exists (w' : world) (t : Z) (c : list byte),
    finishUpload o uploadDir data w
      = (afterHook (s_onFinished o) (uploadId data) (List.length es), w') /\
    resolve uploadFilePath (root w') = Some (RegFile t c) /\
    Z.of_nat (List.length c) = directorySize es.
Proof.
  intros uploadDir uploadFilePath Hdir Hu Hflat Hart Hnone.
  unfold uploadDir, uploadFilePath in *. rewrite resolve_one in Hdir, Hart.
  destruct (finishUpload_run o data w m es Hdir Hu Hflat Hart Hnone)
    as [w' [t [Hrun [Hart' _]]]].
  exists w', t, (List.concat (contents es)).
  split; [exact Hrun |]. rewrite resolve_one.
  split; [exact Hart' |]. symmetry. apply directorySize_flat. exact Hflat.
Qed.

Lemma artifact_size_is_staged_size_witness :
  exists (w' : world) (t : Z) (c : list byte),
    finishUpload (settings Sample.defaults) (join [] Sample.chunks_U)
      (mkInfo Sample.U 4 2 2) Sample.marker_after_chunks
      = (Ok (Respond jsonFinished), w') /\
    resolve (join [] Sample.U) (root w') = Some (RegFile t c) /\
    Z.of_nat (List.length c) = 8.
Proof.
  apply (artifact_size_is_staged_size (settings Sample.defaults)
           (mkInfo Sample.U 4 2 2) Sample.marker_after_chunks 5
           [("1-2", RegFile 5 (Sample.bytes "aa"));
            ("2-2", RegFile 4 (Sample.bytes "bb"));
            ("error.txt", RegFile 4 (Sample.bytes "oops"))]).
  - reflexivity.
  - unfold unique. simpl. repeat constructor; simpl; intuition discriminate.
  - intros k n [E | [E | [E | []]]]; inversion E; eauto.
  - reflexivity.
  - reflexivity.
Defined.

(** ** Uploads that come out right *)

Lemma storeChunk_new (s : string) (part total : nat) (uploadFile : File)
    (w : world) (m : Z) (es : dir) :
  lookup s (root w) = Some (Directory m es) ->
  lookup (chunkName part total) es = None ->
  storeChunk (join [] s) part total uploadFile w
  = (Ok tt,
     setRoot (replace s
                (Directory (timeOf w)
                   (insert (chunkName part total)
                      (RegFile (timeOf w) (fileBytes uploadFile)) es))
                (root w)) w).
Proof.
  intros Hs Hn. unfold storeChunk.
  rewrite (bind_run _ _ _ _ _ (checkIfFileExists_run _ w)).
  rewrite resolve_two, Hs, Hn. simpl negb. cbv iota.
  unfold writeFile, join, mutate. simpl. rewrite Hs, Hn. reflexivity.
Qed.

(** X18. When the staging directory lists exactly the chunks [1-total],
    ..., [total-total] in that order, the finishing submission produces
    the artifact that the upload is after: the bytes of part 1, then of
    part 2, and so on up to the last part. The answer is [finished],
    unless the hook throws. *)
Theorem ordered_listing_gives_ordered_artifact (o : Settings) (data : UploadInfo)
    (w : world) (m : Z) (es : dir) :
  let uploadDir := join [] ("chunks_" ++ uploadId data) in
  let uploadFilePath := join [] (uploadId data) in
  resolve uploadDir (root w) = Some (Directory m es) ->
  flat es ->
  names es = map (fun i => chunkName i (total data)) (seq 1 (total data)) ->
  resolve uploadFilePath (root w) = None ->
  exists (w' : world) (t : Z),
    finishUpload o uploadDir data w
      = (afterHook (s_onFinished o) (uploadId data) (total data), w') /\
    resolve uploadFilePath (root w')
      = Some (RegFile t
                (List.concat
                   (map (fun i => contentOf es (chunkName i (total data)))
                        (seq 1 (total data))))) /\
    resolve uploadDir (root w') = None.
Proof.
  intros uploadDir uploadFilePath Hdir Hflat Hnames Hart.
  unfold uploadDir, uploadFilePath in *. rewrite resolve_one in Hdir, Hart.
  assert (Hu : unique es).
  { unfold unique. rewrite Hnames. apply Finite.Injective_map_NoDup.
    - intros i j E. apply chunk_key_of_name in E. tauto.
    - apply seq_NoDup. }
  assert (Hnone : missingChunk (names es) (total data) = None).
  { apply missingChunk_None. intros j Hj. rewrite Hnames.
    apply in_map_iff. exists j. split; [reflexivity |].
    apply in_seq. lia. }
  assert (Hlen : List.length es = total data).
  { rewrite <- (length_map fst es). fold (names es).
    rewrite Hnames, length_map, length_seq. reflexivity. }
  destruct (finishUpload_run o data w m es Hdir Hu Hflat Hart Hnone)
    as [w' [t [Hrun [Hart' [Hgone _]]]]].
  exists w', t. rewrite Hlen in Hrun. split; [exact Hrun |]. rewrite !resolve_one.
  split; [| exact Hgone].
  rewrite Hart'. rewrite <- (contents_by_name es Hu), Hnames, map_map.
  reflexivity.
Qed.

Lemma ordered_listing_gives_ordered_artifact_witness :
  exists (w' : world) (t : Z),
    finishUpload (settings Sample.defaults) (join [] Sample.chunks_U)
      (mkInfo Sample.U 4 2 2) Sample.listed_in_order
      = (Ok (Respond jsonFinished), w') /\
    resolve (join [] Sample.U) (root w')
      = Some (RegFile t (Sample.bytes "aa" ++ Sample.bytes "bb")) /\
    resolve (join [] Sample.chunks_U) (root w') = None.
Proof.
  apply (ordered_listing_gives_ordered_artifact (settings Sample.defaults)
           (mkInfo Sample.U 4 2 2) Sample.listed_in_order 5
           [("1-2", RegFile 4 (Sample.bytes "aa"));
            ("2-2", RegFile 5 (Sample.bytes "bb"))]).
  - reflexivity.
  - intros k n [E | [E | []]]; inversion E; eauto.
  - reflexivity.
  - reflexivity.
Defined.

(** X19. An upload of a single part comes out as its payload: when the
    staging root, after the reaping step, holds nothing for the upload and
    the quota checks pass, the submission of part 1 of 1 leaves an
    artifact that holds exactly the bytes of the payload, the staging
    directory is gone and the hook is called with 1 part. The answer is
    [finished], unless the hook throws. *)
Theorem single_part_upload_is_its_payload (astro : Request)
    (options : LoadUploadFilesOptions) (w : world) (data : UploadInfo)
    (uploadFile : File) :
  let o := settings options in
  let w0 := reaped (s_maxUploadTime o) w in
  gated astro = true ->
  unique (root w) ->
  info astro = Some data ->
  file astro = Some uploadFile ->
  part data = 1%nat ->
  total data = 1%nat ->
  lookup ("chunks_" ++ uploadId data) (root w0) = None ->
  lookup (uploadId data) (root w0) = None ->
  admitted o data uploadFile (directorySize (root w0)) ->
  exists (w' : world) (t : Z),
    loadUploadFiles astro options w
      = (afterHook (onFinished options) (uploadId data) 1, w') /\
    resolve (join [] (uploadId data)) (root w')
      = Some (RegFile t (fileBytes uploadFile)) /\
    resolve (join [] ("chunks_" ++ uploadId data)) (root w') = None /\
    finishedCalls w' =
      finishedCalls w ++ callsOf (onFinished options) (uploadId data) 1.
Proof.
  intros o w0 Hg Hu Hinfo Hfile Hpart Htotal Hs Hid [Ha [Hb [Hc Hd]]].
  rewrite (loadUploadFiles_valid _ _ _ _ _ Hg Hu Hinfo Hfile).
  fold o. fold w0.
  set (s := ("chunks_" ++ uploadId data)%string) in *.
  set (w1 := setRoot (insert s (Directory (timeOf w0) []) (root w0)) w0).
  assert (Hens : ensureDir (join [] s) w0 = (Ok tt, w1)).
  { rewrite ensureDir_top, Hs. reflexivity. }
  assert (Hne : s <> uploadId data) by apply staging_name_differs.
  assert (Hs1 : lookup s (root w1) = Some (Directory (timeOf w0) [])).
  { unfold w1. rewrite root_setRoot. apply lookup_insert_same. exact Hs. }
  assert (Hid1 : lookup (uploadId data) (root w1) = None).
  { unfold w1. rewrite root_setRoot, lookup_insert_other by congruence. exact Hid. }
  rewrite (handleChunk_guards o data uploadFile w0 w1 Hens).
  rewrite (ensureDir_top_size _ _ _ Hens).
  rewrite Ha, (gtb_false _ _ Hb), (gtb_false _ _ Hc), (gtb_false _ _ Hd), Hid1.
  fold s.
  assert (Hn : lookup (chunkName (part data) (total data)) [] = None) by reflexivity.
  rewrite (bind_run _ _ _ _ _
             (storeChunk_new s (part data) (total data) uploadFile w1 _ _ Hs1 Hn)).
  rewrite Hpart, Htotal. simpl negb. cbv iota.
  set (es := insert (chunkName 1 1) (RegFile (timeOf w1) (fileBytes uploadFile)) []).
  set (w2 := setRoot (replace s (Directory (timeOf w1) es) (root w1)) w1).
  assert (Hs2 : lookup s (root w2) = Some (Directory (timeOf w1) es)).
  { unfold w2. rewrite root_setRoot. apply lookup_replace_same. congruence. }
  assert (Hid2 : lookup (uploadId data) (root w2) = None).
  { unfold w2. rewrite root_setRoot, lookup_replace_other by exact Hne. exact Hid1. }
  assert (Hues : unique es).
  { unfold unique, es. simpl. repeat constructor. intros []. }
  assert (Hfes : flat es).
  { intros k n [E | []]. inversion E. eauto. }
  assert (Hnone : missingChunk (names es) (total data) = None).
  { rewrite Htotal. apply missingChunk_None. intros j Hj.
    assert (j = 1)%nat as -> by lia. left. reflexivity. }
  destruct (finishUpload_run o data w2 _ es Hs2 Hues Hfes Hid2 Hnone)
    as [w' [t [Hrun [Hart [Hgone Hcalls]]]]].
  exists w', t. split; [exact Hrun |]. rewrite !resolve_one.
  split; [| split; [exact Hgone |]].
  - rewrite Hart. unfold es. simpl. rewrite app_nil_r. reflexivity.
  - rewrite Hcalls. unfold w2, w1. simpl.
    destruct (reaped_world (s_maxUploadTime o) w Hu) as [_ [_ Hfc]].
    fold w0 in Hfc. rewrite Hfc. reflexivity.
Qed.

Lemma sample_unique_fresh : unique (root Sample.fresh).
Proof. constructor. Defined.

Lemma single_part_upload_is_its_payload_witness :
  (exists (w' : world) (t : Z),
     loadUploadFiles Sample.only_part Sample.defaults Sample.fresh
       = (Ok (Respond jsonFinished), w') /\
     resolve (join [] Sample.U) (root w') = Some (RegFile t (Sample.bytes "AB")) /\
     resolve (join [] Sample.chunks_U) (root w') = None /\
     finishedCalls w' = [(Sample.U, 1%nat)]) /\
  (exists (w' : world) (t : Z),
     loadUploadFiles Sample.only_part Sample.with_failing_hook Sample.fresh
       = (Throw HookError, w') /\
     resolve (join [] Sample.U) (root w') = Some (RegFile t (Sample.bytes "AB")) /\
     resolve (join [] Sample.chunks_U) (root w') = None /\
     finishedCalls w' = [(Sample.U, 1%nat)]).
Proof.
  split.
  - apply (single_part_upload_is_its_payload Sample.only_part Sample.defaults
             Sample.fresh (mkInfo Sample.U 2 1 1) (mkFile "blob" (Sample.bytes "AB"))
             eq_refl sample_unique_fresh eq_refl eq_refl eq_refl eq_refl
             eq_refl eq_refl).
    vm_compute. repeat split; discriminate.
  - apply (single_part_upload_is_its_payload Sample.only_part
             Sample.with_failing_hook
             Sample.fresh (mkInfo Sample.U 2 1 1) (mkFile "blob" (Sample.bytes "AB"))
             eq_refl sample_unique_fresh eq_refl eq_refl eq_refl eq_refl
             eq_refl eq_refl).
    vm_compute. repeat split; discriminate.
Defined.

(** ** What the quotas count *)

Fixpoint sizeBelow_nonneg (n : node) : 0 <= sizeBelow n.
Proof.
  destruct n as [t c | t es].
  - simpl. lia.
  - change (0 <= directorySize es).
    induction es as [|[k x] es IH].
    + change (directorySize []) with 0. lia.
    + rewrite directorySize_cons. pose proof (sizeBelow_nonneg x). lia.
Qed.

Lemma directorySize_nonneg (d : dir) : 0 <= directorySize d.
Proof. apply (sizeBelow_nonneg (Directory 0 d)). Qed.

Lemma directorySize_entry (d : dir) (k : string) (n : node) :
  In (k, n) d -> sizeBelow n <= directorySize d.
Proof.
  induction d as [|[k0 n0] d IH]; intros Hin.
  - contradiction.
  - rewrite directorySize_cons. destruct Hin as [E | Hin].
    + inversion E; subst. pose proof (directorySize_nonneg d). lia.
    + pose proof (sizeBelow_nonneg n0). specialize (IH Hin). lia.
Qed.

(** X20. Everything under the staging root counts against the
    per-upload maximum: a submission is accepted only if, for every entry
    that the reaper left under the root, be it the staging directory of
    another upload or a finished artifact, the size of that entry plus the
    declared size of the submission is within [maxUploadSize]. *)
Theorem every_entry_counts_against_upload_limit (astro : Request)
    (options : LoadUploadFilesOptions) (w w' : world) (r : Reply)
    (name : string) (n : node) :
  loadUploadFiles astro options w = (Ok (Respond r), w') ->
  ok r = true ->
  lookup name (root (reaped (s_maxUploadTime (settings options)) w)) = Some n ->
  exists data,
    info astro = Some data /\
    sizeBelow n + uploadSize data <= s_maxUploadSize (settings options).
Proof.
  intros H Hok Hn.
  destruct (loadUploadFiles_cases _ _ _ _ _ H) as [[_ [E _]] | [_ [_ Hafter]]];
    [discriminate |].
  destruct (afterReaping_cases _ _ _ _ _ Hafter)
    as [[E _] | [data [uploadFile [Hinfo [Hfile Hrun]]]]].
  { subst r. discriminate. }
  exists data. split; [exact Hinfo |].
  destruct (handleChunk_cases _ _ _ _ _ _ Hrun)
    as [w1 [_ [[msg [_ Hsend]] | [[_ [_ [_ Hadm]]] _]]]].
  - apply sendError_ok in Hsend. destruct Hsend as [E _].
    inversion E; subst r. discriminate.
  - apply lookup_In in Hn. apply directorySize_entry in Hn. lia.
Qed.

Lemma every_entry_counts_against_upload_limit_witness :
  exists data,
    info Sample.second_part = Some data /\
    sizeBelow (Directory 5 [("1-2", RegFile 5 (Sample.bytes "A"))])
      + uploadSize data
    <= s_maxUploadSize (settings Sample.defaults).
Proof.
  apply (every_entry_counts_against_upload_limit Sample.second_part
           Sample.defaults Sample.one_chunk_stored
           (Sample.after Sample.second_part Sample.one_chunk_stored)
           jsonFinished Sample.chunks_U).
  - vm_compute. reflexivity.
  - reflexivity.
  - vm_compute. reflexivity.
Defined.

(** X21. Only a [finished] answer writes the artifact: when
    [loadUploadFiles] returns a rejection or an acknowledgement for an
    upload, the entry at the path of its artifact is as the reaper left
    it. *)
Theorem artifact_written_only_on_finish (astro : Request)
    (options : LoadUploadFilesOptions) (w w' : world) (r : Reply)
    (data : UploadInfo) :
  loadUploadFiles astro options w = (Ok (Respond r), w') ->
  finished r = None ->
  info astro = Some data ->
  resolve (join [] (uploadId data)) (root w')
  = resolve (join [] (uploadId data))
      (root (reaped (s_maxUploadTime (settings options)) w)).
Proof.
  intros H Hr Hinfo. rewrite !resolve_one.
  set (s := ("chunks_" ++ uploadId data)%string).
  assert (Hne : ~ uploadId data = s).
  { intros E. symmetry in E. revert E. apply staging_name_differs. }
  assert (Hkeep : forall {A} (m : M A) (x : result A) (wa wb : world),
            confined (eq s) m -> m wa = (x, wb) ->
            lookup (uploadId data) (root wb) = lookup (uploadId data) (root wa)).
  { intros A m x wa wb Hc Hm. specialize (Hc wa (uploadId data)).
    rewrite Hm in Hc. simpl in Hc. apply Hc. intros E. apply Hne. auto. }
  destruct (loadUploadFiles_cases _ _ _ _ _ H) as [[_ [E _]] | [_ [_ Hafter]]];
    [discriminate |].
  destruct (afterReaping_cases _ _ _ _ _ Hafter)
    as [[_ [-> _]] | [data' [uploadFile [Hinfo' [_ Hrun]]]]]; [reflexivity |].
  rewrite Hinfo in Hinfo'. inversion Hinfo'; subst data'. clear Hinfo'.
  destruct (handleChunk_cases _ _ _ _ _ _ Hrun)
    as [w1 [Hens [[msg [_ Hsend]] | [_ [w2 [Hstore Hend]]]]]].
  - rewrite (Hkeep _ _ _ _ _ (confined_sendError (eq s) s msg eq_refl) Hsend).
    apply (Hkeep _ _ _ _ _ (confined_ensureDir (eq s) s [] eq_refl) Hens).
  - assert (Hw2 : lookup (uploadId data) (root w2)
                  = lookup (uploadId data)
                      (root (reaped (s_maxUploadTime (settings options)) w))).
    { rewrite (Hkeep _ _ _ _ _
                 (confined_storeChunk (eq s) s _ _ _ eq_refl) Hstore).
      apply (Hkeep _ _ _ _ _ (confined_ensureDir (eq s) s [] eq_refl) Hens). }
    destruct Hend as [[_ [_ ->]] | [_ Hfin]]; [exact Hw2 |].
    destruct (finishUpload_cases _ _ _ _ _ Hfin)
      as [m [es [_ [[i [_ Hsend]] | [_ [E _]]]]]].
    + rewrite (Hkeep _ _ _ _ _ (confined_sendError (eq s) s _ eq_refl) Hsend).
      exact Hw2.
    + subst r. discriminate.
Qed.

Lemma artifact_written_only_on_finish_witness :
  resolve (join [] Sample.U) (root (Sample.after Sample.part_two Sample.fresh))
  = resolve (join [] Sample.U)
      (root (reaped (s_maxUploadTime (settings Sample.defaults)) Sample.fresh)).
Proof.
  apply (artifact_written_only_on_finish Sample.part_two Sample.defaults
           Sample.fresh (Sample.after Sample.part_two Sample.fresh) jsonOk
           (mkInfo Sample.U 6 2 3)).
  - vm_compute. reflexivity.
  - reflexivity.
  - reflexivity.
Defined.
